(** * Schema reconstruction, repair and merge: a model of schema.py and llm.py

    The development follows the Python module schema.py (with the part of
    llm.py it calls).  Text is a list of characters; the characters are the
    code points below 256, with the character classes Python gives them.
    Regular expressions are the patterns of the source, run by a small
    backtracking matcher that follows the order of Python's re module.
    Exceptions are values of a result type. *)

From Stdlib Require Import ZArith Ascii String List Bool Lia DecimalString.
From Stdlib Require Import Floats.SpecFloat.
From stdpp Require Import base option list gmap sets strings relations.

Set Default Proof Using "Type".
Set Warnings "-register-all".
Local Open Scope bool_scope.

Abbreviation str := (list ascii).

(** A literal of the source text. *)
Definition txt (s : string) : str := list_ascii_of_string s.
Arguments txt : simpl never.

(* ================================================================== *)
(** ** Characters and the string methods of Python used by the source *)
(* ================================================================== *)

Module Text.

Definition code (c : ascii) : N := N_of_ascii c.

Definition between (lo hi : N) (c : ascii) : bool :=
  ((lo <=? code c) && (code c <=? hi))%N.

(** [str.isspace] and the class [\s] on code points below 256. *)
Definition is_space (c : ascii) : bool :=
  between 9 13 c || between 28 32 c
  || (code c =? 133)%N || (code c =? 160)%N.

(** The class [\w] on code points below 256: alphanumeric or underscore. *)
Definition is_word (c : ascii) : bool :=
  between 48 57 c || between 65 90 c || between 97 122 c || (code c =? 95)%N
  || (code c =? 170)%N || (code c =? 178)%N || (code c =? 179)%N
  || (code c =? 181)%N || (code c =? 185)%N || (code c =? 186)%N
  || between 188 190 c || between 192 214 c || between 216 246 c
  || between 248 255 c.

(** Lower case of an ASCII letter; other characters are left alone.  It is
    used to compare against ASCII literals only. *)
Definition lower (c : ascii) : ascii :=
  if between 65 90 c then ascii_of_N (code c + 32) else c.

(** [str.upper] on one character.  The three characters below 256 whose
    upper case is not below 256 (or is two letters) are left alone: the
    source only compares the result with ASCII words. *)
Definition upper_char (c : ascii) : ascii :=
  if between 97 122 c || ((between 224 246 c || between 248 254 c))
  then ascii_of_N (code c - 32) else c.

Definition upper (s : str) : str := map upper_char s.

Definition eqb (a b : ascii) : bool := Ascii.eqb a b.

(** Equality up to case, the test of a literal under [re.IGNORECASE]. *)
Definition eqb_ci (a b : ascii) : bool := Ascii.eqb (lower a) (lower b).

Fixpoint str_eqb (a b : str) : bool :=
  match a, b with
  | [], [] => true
  | x :: a', y :: b' => Ascii.eqb x y && str_eqb a' b'
  | _, _ => false
  end.

Fixpoint drop_while (p : ascii -> bool) (s : str) : str :=
  match s with
  | c :: s' => if p c then drop_while p s' else s
  | [] => []
  end.

(** [s.lstrip()], [s.rstrip()], [s.strip()] and [s.rstrip(chars)]. *)
Definition lstrip_by (p : ascii -> bool) (s : str) : str := drop_while p s.
Definition rstrip_by (p : ascii -> bool) (s : str) : str :=
  rev (drop_while p (rev s)).
Definition strip (s : str) : str := rstrip_by is_space (lstrip_by is_space s).

Definition in_chars (cs : str) (c : ascii) : bool :=
  existsb (Ascii.eqb c) cs.

Definition rstrip_chars (cs : str) (s : str) : str := rstrip_by (in_chars cs) s.

(** [s.find(c)] for a single character: the index of the first
    occurrence, [None] for Python's -1. *)
Fixpoint find_char (c : ascii) (s : str) : option nat :=
  match s with
  | [] => None
  | x :: s' => if Ascii.eqb x c then Some 0
               else option_map S (find_char c s')
  end.

Fixpoint starts_with (p s : str) : bool :=
  match p, s with
  | [], _ => true
  | x :: p', y :: s' => Ascii.eqb x y && starts_with p' s'
  | _ :: _, [] => false
  end.

(** [s.replace(old, new)] for a non-empty [old]: the occurrences are
    replaced from the left, without overlap. *)
Fixpoint replace_skip (old new : str) (skip : nat) (s : str) : str :=
  match s with
  | [] => []
  | c :: s' =>
      match skip with
      | S k => replace_skip old new k s'
      | O => if starts_with old s
             then new ++ replace_skip old new (length old - 1) s'
             else c :: replace_skip old new 0 s'
      end
  end.

Definition replace (old new s : str) : str := replace_skip old new 0 s.

(** [x in s] for strings: [x] occurs in [s]. *)
Fixpoint contains (x s : str) : bool :=
  starts_with x s || match s with [] => false | _ :: s' => contains x s' end.

(** The decimal text of a non-negative integer, as an f-string prints it. *)
Definition decimal (n : N) : str :=
  txt (NilZero.string_of_uint (N.to_uint n)).

End Text.

(* ================================================================== *)
(** ** Regular expressions: the subset of Python's re the source uses *)
(* ================================================================== *)

Module Regex.

(** Every repetition in the patterns of the source is over one character
    class, so a pattern is a sequence of the following items. *)
Inductive atom : Type :=
| Ch (p : ascii -> bool)        (* one character of the class *)
| Bol                           (* ^ without re.MULTILINE *)
| Eol                           (* $ without re.MULTILINE *)
| Star (p : ascii -> bool)      (* p*, greedy *)
| StarLazy (p : ascii -> bool)  (* p*?, lazy *)
| Opt (p : ascii -> bool)       (* p?, greedy *)
| Mark.                         (* an opening or closing parenthesis *)

Abbreviation regex := (list atom).

Definition any (c : ascii) : bool := true.

(** A literal, and a literal under re.IGNORECASE. *)
Definition lit (s : string) : regex := map (fun c => Ch (Text.eqb c)) (txt s).
Definition lit_ci (s : string) : regex :=
  map (fun c => Ch (Text.eqb_ci c)) (txt s).

(** p+ *)
Definition plus (p : ascii -> bool) : regex := [Ch p; Star p].

(** [$] matches at the end of the text and before a newline that ends it. *)
Definition at_eol (s : str) : bool :=
  match s with
  | [] => true
  | [c] => Ascii.eqb c "010"
  | _ => false
  end.

(** [p*] followed by the rest of the pattern [k]: the longest run of [p]
    is tried first, then shorter ones. *)
Fixpoint star_greedy {R : Type} (p : ascii -> bool)
    (k : nat -> str -> option R) (i : nat) (s : str) : option R :=
  match s with
  | c :: s' =>
      if p c then
        match star_greedy p k (S i) s' with
        | Some x => Some x
        | None => k i s
        end
      else k i s
  | [] => k i s
  end.

(** [p*?] followed by [k]: the shortest run is tried first. *)
Fixpoint star_lazy {R : Type} (p : ascii -> bool)
    (k : nat -> str -> option R) (i : nat) (s : str) : option R :=
  match k i s with
  | Some x => Some x
  | None =>
      match s with
      | c :: s' => if p c then star_lazy p k (S i) s' else None
      | [] => None
      end
  end.

(** [run r i s ms]: match [r] at position [i], where [s] is the text from
    [i] on and [ms] the positions marked so far (latest first).  The result
    is the position after the match and the marks.  Alternatives are tried
    in Python's order. *)
Fixpoint run (r : regex) (i : nat) (s : str) (ms : list nat)
  : option (nat * list nat) :=
  match r with
  | [] => Some (i, ms)
  | Ch p :: r' =>
      match s with
      | c :: s' => if p c then run r' (S i) s' ms else None
      | [] => None
      end
  | Bol :: r' => if Nat.eqb i 0 then run r' i s ms else None
  | Eol :: r' => if at_eol s then run r' i s ms else None
  | Mark :: r' => run r' i s (i :: ms)
  | Opt p :: r' =>
      match s with
      | c :: s' =>
          if p c then
            match run r' (S i) s' ms with
            | Some x => Some x
            | None => run r' i s ms
            end
          else run r' i s ms
      | [] => run r' i s ms
      end
  | Star p :: r' => star_greedy p (fun j t => run r' j t ms) i s
  | StarLazy p :: r' => star_lazy p (fun j t => run r' j t ms) i s
  end.

(** [re.match]: a match at the start of the text. *)
Definition match_start (r : regex) (s : str) : option (nat * list nat) :=
  run r 0 s [].

(** [re.search]: the leftmost match, as (start, end, marks). *)
Fixpoint search_from (r : regex) (i : nat) (s : str)
  : option (nat * nat * list nat) :=
  match run r i s [] with
  | Some (j, ms) => Some (i, j, ms)
  | None =>
      match s with
      | [] => None
      | _ :: s' => search_from r (S i) s'
      end
  end.

Definition search (r : regex) (s : str) := search_from r 0 s.

(** The text between two positions. *)
Definition slice (s : str) (a b : nat) : str := firstn (b - a) (skipn a s).

(** [re.sub(r, repl, s)] for a replacement without group references.
    [skip] counts the characters of the current match still to be passed.
    Every pattern of the source consumes at least one character; on an
    empty match the model puts the replacement and copies the character. *)
Fixpoint sub_loop (r : regex) (repl : str) (i skip : nat) (s : str) : str :=
  match s with
  | [] =>
      match skip, run r i [] [] with
      | O, Some _ => repl
      | _, _ => []
      end
  | c :: s' =>
      match skip with
      | S k => sub_loop r repl (S i) k s'
      | O =>
          match run r i s [] with
          | Some (j, _) =>
              if Nat.eqb j i then repl ++ c :: sub_loop r repl (S i) 0 s'
              else repl ++ sub_loop r repl (S i) (j - i - 1) s'
          | None => c :: sub_loop r repl (S i) 0 s'
          end
      end
  end.

Definition sub (r : regex) (repl : str) (s : str) : str :=
  sub_loop r repl 0 0 s.

(** [re.findall] scans like [re.sub]; the model returns the spans of the
    matches with their marks. *)
Fixpoint findall_loop (r : regex) (i skip : nat) (s : str)
  : list (nat * nat * list nat) :=
  match s with
  | [] =>
      match skip, run r i [] [] with
      | O, Some (j, ms) => [(i, j, ms)]
      | _, _ => []
      end
  | c :: s' =>
      match skip with
      | S k => findall_loop r (S i) k s'
      | O =>
          match run r i s [] with
          | Some (j, ms) =>
              (i, j, ms) :: findall_loop r (S i) (j - i - 1) s'
          | None => findall_loop r (S i) 0 s'
          end
      end
  end.

Definition findall (r : regex) (s : str) := findall_loop r 0 0 s.

End Regex.

(* ================================================================== *)
(** ** Exceptions *)
(* ================================================================== *)

(** The exception classes the modelled code can meet.  All of them are
    subclasses of Python's [Exception]. *)
Inductive exn : Type :=
| ValueError
| TypeError
| AttributeError
| KeyError
| RuntimeError
| IndexError
| JSONDecodeError
| ConnectionError                   (* a RequestException of requests
                                       other than HTTPError *)
| HTTPError (status : option nat).  (* requests' HTTPError and the status
                                       of its response, if it has one *)

Inductive result (A : Type) : Type :=
| Ok (a : A)
| Raise (e : exn).
Arguments Ok {A} a.
Arguments Raise {A} e.

#[export] Instance result_ret : MRet result := fun A a => Ok a.
#[export] Instance result_bind : MBind result := fun A B f m =>
  match m with
  | Ok a => f a
  | Raise e => Raise e
  end.

(** [try: body  except Exception: handler] *)
Definition try_except {A : Type} (body : result A) (handler : exn -> result A)
  : result A :=
  match body with
  | Ok a => Ok a
  | Raise e => handler e
  end.

(* ================================================================== *)
(** ** schema.py: text functions *)
(* ================================================================== *)

Import Text Regex.

Definition lbrace : ascii := "{".
Definition rbrace : ascii := "}".

(** r"^```json\s*" with re.IGNORECASE *)
Definition fence_open_re : regex := Bol :: lit_ci "```json" ++ [Star is_space].

(** r"\s*```$" *)
Definition fence_close_re : regex := Star is_space :: lit "```" ++ [Eol].

(** The loop of [clean_json_string] over [range(first_brace, len(cleaned))]:
    [s] is the text from index [i] on. *)
Fixpoint scan_braces (brace_count : Z) (i : nat) (s : str) : option nat :=
  match s with
  | [] => None
  | c :: s' =>
      if Ascii.eqb c lbrace then scan_braces (brace_count + 1) (S i) s'
      else if Ascii.eqb c rbrace then
        let brace_count := (brace_count - 1)%Z in
        if (brace_count =? 0)%Z then Some i
        else scan_braces brace_count (S i) s'
      else scan_braces brace_count (S i) s'
  end.

(** The value of [cleaned] in [clean_json_string] when the search for the
    object starts: the input stripped and without its fences. *)
Definition cleaned_text (raw_str : str) : str :=
  let cleaned := strip raw_str in
  let cleaned := sub fence_open_re [] cleaned in
  let cleaned := sub fence_close_re [] cleaned in
  cleaned.

Definition clean_json_string (raw_str : str) : result str :=
  let cleaned := cleaned_text raw_str in
  match find_char lbrace cleaned with
  | None => Raise ValueError
  | Some first_brace =>
      match scan_braces 0 first_brace (skipn first_brace cleaned) with
      | Some i => Ok (slice cleaned first_brace (i + 1))
      | None => Raise ValueError
      end
  end.

(** r'NVARCHAR\(\s*\)', r'VARCHAR\(\s*\)' with re.IGNORECASE;
    r',\s*\)' and r',\s*;' *)
Definition nvarchar_empty_re : regex :=
  lit_ci "NVARCHAR(" ++ [Star is_space] ++ lit_ci ")".
Definition varchar_empty_re : regex :=
  lit_ci "VARCHAR(" ++ [Star is_space] ++ lit_ci ")".
Definition comma_paren_re : regex := lit "," ++ [Star is_space] ++ lit ")".
Definition comma_semi_re : regex := lit "," ++ [Star is_space] ++ lit ";".

Definition fix_sql_schema (sql_text : str) : str :=
  let fixed := sub nvarchar_empty_re (txt "NVARCHAR(255)") sql_text in
  let fixed := sub varchar_empty_re (txt "VARCHAR(255)") fixed in
  let fixed := sub comma_paren_re (txt ")") fixed in
  let fixed := sub comma_semi_re (txt ";") fixed in
  fixed.

(** r"(CREATE TABLE\s+\[?\w+\]?.*?\);)" with re.IGNORECASE | re.DOTALL *)
Definition table_block_re : regex :=
  Mark :: lit_ci "CREATE TABLE" ++ plus is_space ++ [Opt (Text.eqb "[")]
  ++ plus is_word ++ [Opt (Text.eqb "]"); StarLazy any] ++ lit_ci ");"
  ++ [Mark].

(** The text of group 1 of a match: between the two marks. *)
Definition group1 (s : str) (m : nat * nat * list nat) : str :=
  match m with
  | (_, _, [b; a]) => slice s a b
  | _ => []
  end.

Definition split_schema_to_tables (schema_text : str) : list str :=
  map (group1 schema_text) (findall table_block_re schema_text).

(** r"CREATE TABLE\s+\[?(\w+)\]?" with re.IGNORECASE *)
Definition table_name_re : regex :=
  lit_ci "CREATE TABLE" ++ plus is_space ++ [Opt (Text.eqb "[")]
  ++ [Mark] ++ plus is_word ++ [Mark; Opt (Text.eqb "]")].

Definition extract_table_name (table_sql : str) : str :=
  match match_start table_name_re table_sql with
  | Some (j, ms) => group1 table_sql (0, j, ms)
  | None => txt "Unknown"
  end.

(* ================================================================== *)
(** ** schema.py: the DDL text built from the catalog rows *)
(* ================================================================== *)

(** One row of [get_schema].  A field is [None] when the key is absent
    from the row.  For [table_name], the two key flags and the four
    reference fields a NULL value is [None] as well: the code treats it as
    it treats an absent key.  [column_name], [data_type], [max_length] and
    [is_nullable] are never NULL in the rows of [get_schema]; a NULL there
    is not modelled. *)
Record row : Type := {
  table_name : option str;
  column_name : option str;
  data_type : option str;
  max_length : option Z;
  is_nullable : option bool;
  is_primary_key : option bool;
  is_foreign_key : option bool;
  ReferenceTable : option str;
  referenced_table : option str;
  ReferenceColumn : option str;
  referenced_column : option str
}.

(** [a or b] on texts: the first one unless it is empty. *)
Definition str_or (a b : str) : str :=
  match a with [] => b | _ => a end.

Definition nonempty (a : str) : bool :=
  match a with [] => false | _ => true end.

Definition varchar_types : list str := [txt "VARCHAR"; txt "NVARCHAR"].

Definition is_varchar (data_type : str) : bool :=
  existsb (str_eqb (upper data_type)) varchar_types.

(** The text added for the column of one row
    (suggest_schema_improvements, from [column_name = ...] to the
    closing comma), in three parts: the length in parentheses, ... *)
Definition length_text (data_type : str) (max_length : Z) : str :=
  if is_varchar data_type
  then txt "("
       ++ decimal (Z.to_N (if (max_length >? 0)%Z then max_length
                           else 255%Z))
       ++ txt ")"
  else [].

(** ... the nullability and the keys, ... *)
Definition constraints_text (r : row) : str :=
  (if negb (default true (is_nullable r)) then txt " NOT NULL"
   else txt " NULL")
  ++ (if default false (is_primary_key r) then txt " PRIMARY KEY" else [])
  ++ (if default false (is_foreign_key r) then
        let ref_table := str_or (default [] (ReferenceTable r))
                                (default [] (referenced_table r)) in
        let ref_col := str_or (default [] (ReferenceColumn r))
                              (default [] (referenced_column r)) in
        if nonempty ref_table && nonempty ref_col
        then txt " FOREIGN KEY REFERENCES " ++ ref_table ++ txt "("
             ++ ref_col ++ txt ")"
        else []
      else []).

(** ... and the whole. *)
Definition column_text (r : row) : str :=
  let column_name := default (txt "UnknownColumn") (column_name r) in
  let data_type := default (txt "VARCHAR") (data_type r) in
  let max_length := Z.abs (default 0%Z (max_length r)) in
  txt "  [" ++ column_name ++ txt "] " ++ data_type
  ++ length_text data_type max_length
  ++ constraints_text r
  ++ [","; "010"]%char.

Definition comma_newline : str := [","; "010"]%char.

Definition table_header (name : str) : str :=
  txt "CREATE TABLE [" ++ name ++ txt "] (" ++ ["010"%char].

Definition table_close : str := "010"%char :: txt ");".

Arguments table_header : simpl never.
Arguments table_close : simpl never.
Arguments comma_newline : simpl never.
Arguments column_text : simpl never.

(** One turn of the loop over the rows: the state is [schema_text] and
    [current_table]. *)
Definition schema_step (st : str * option str) (r : row) : str * option str :=
  let '(schema_text, current_table) := st in
  match table_name r with
  | None => st
  | Some table_name =>
      let '(schema_text, current_table) :=
        if bool_decide (Some table_name ≠ current_table) then
          let schema_text :=
            match current_table with
            | Some _ => rstrip_chars comma_newline schema_text
                        ++ table_close ++ ["010"; "010"]%char
            | None => schema_text
            end in
          (schema_text ++ table_header table_name, Some table_name)
        else (schema_text, current_table) in
      (schema_text ++ column_text r, current_table)
  end.

(** The DDL text of suggest_schema_improvements: the loop, the closing
    of the last table and [fix_sql_schema]. *)
Definition build_schema_text (schema_data : list row) : str :=
  let '(schema_text, current_table) :=
    fold_left schema_step schema_data ([], None) in
  let schema_text :=
    match current_table with
    | Some _ => rstrip_chars comma_newline schema_text ++ table_close
    | None => schema_text
    end in
  fix_sql_schema schema_text.

(* ================================================================== *)
(** ** schema.py: the dependency graph *)
(* ================================================================== *)

(** [resolve_chunk_tables].  [depth] bounds the depth of the recursion
    (Python's recursion limit); [None] is the RecursionError.  [visited]
    is one set, changed in place by every call. *)
Fixpoint resolve_chunk_tables (depth : nat) (graph : gmap str (gset str))
    (table : str) (visited : option (gset str)) : option (gset str) :=
  match depth with
  | O => None
  | S depth =>
      let visited := default ∅ visited in
      if decide (table ∈ visited) then Some visited
      else
        let visited := {[table]} ∪ visited in
        foldl (fun acc fk_table =>
                 visited ← acc;
                 resolve_chunk_tables depth graph fk_table (Some visited))
              (Some visited)
              (elements (default ∅ (graph !! table)))
  end.

(* ================================================================== *)
(** ** Decoded JSON and Python's operations on it *)
(* ================================================================== *)

(** What [json.loads] returns: None, bool, int, float, str, list, dict. *)
Inductive json : Type :=
| JNull
| JBool (b : bool)
| JInt (z : Z)
| JFloat (f : spec_float)
| JStr (s : str)
| JArr (items : list json)
| JObj (fields : list (str * json)).

(** A Python dict: the items in insertion order, each key once. *)
Section Dict.
Context {K V : Type} `{EqDecision K}.

Fixpoint dict_get (k : K) (d : list (K * V)) : option V :=
  match d with
  | [] => None
  | (k', v) :: d' => if decide (k' = k) then Some v else dict_get k d'
  end.

Definition dict_has (k : K) (d : list (K * V)) : bool :=
  match dict_get k d with Some _ => true | None => false end.

(** [d[k] = v]: a key already there keeps its place. *)
Fixpoint dict_set (k : K) (v : V) (d : list (K * V)) : list (K * V) :=
  match d with
  | [] => [(k, v)]
  | (k', v') :: d' =>
      if decide (k' = k) then (k', v) :: d' else (k', v') :: dict_set k v d'
  end.

(** [del d[k]] and [d.pop(k)] for a key that is there. *)
Fixpoint dict_del (k : K) (d : list (K * V)) : list (K * V) :=
  match d with
  | [] => []
  | (k', v') :: d' =>
      if decide (k' = k) then d' else (k', v') :: dict_del k d'
  end.

(** [d.setdefault(k, v)] *)
Definition dict_setdefault (k : K) (v : V) (d : list (K * V))
  : list (K * V) :=
  if dict_has k d then d else d ++ [(k, v)].
End Dict.

(** [bool(v)] *)
Definition truthy (v : json) : bool :=
  match v with
  | JNull => false
  | JBool b => b
  | JInt z => negb (z =? 0)%Z
  | JFloat (S754_zero _) => false
  | JFloat _ => true
  | JStr s => nonempty s
  | JArr l => match l with [] => false | _ => true end
  | JObj d => match d with [] => false | _ => true end
  end.

(** [a or b] *)
Definition py_or (a b : json) : json := if truthy a then a else b.

(** [v.get(k)] and [v.get(k, dflt)]: only a dict has the method. *)
Definition py_get (v : json) (k : string) (dflt : json) : result json :=
  match v with
  | JObj d => Ok (default dflt (dict_get (txt k) d))
  | _ => Raise AttributeError
  end.

(** [v[k]] for a string key. *)
Definition py_item (v : json) (k : string) : result json :=
  match v with
  | JObj d =>
      match dict_get (txt k) d with
      | Some x => Ok x
      | None => Raise KeyError
      end
  | _ => Raise TypeError
  end.

(** [k in v] for a string [k]. *)
Definition py_in (k : string) (v : json) : result bool :=
  match v with
  | JObj d => Ok (dict_has (txt k) d)
  | JArr l =>
      Ok (existsb (fun x => match x with
                            | JStr s => str_eqb s (txt k)
                            | _ => false
                            end) l)
  | JStr s => Ok (contains (txt k) s)
  | _ => Raise TypeError
  end.

(** [for x in v]: the values the loop runs over. *)
Definition py_iter (v : json) : result (list json) :=
  match v with
  | JArr l => Ok l
  | JObj d => Ok (map (fun kv => JStr (fst kv)) d)
  | JStr s => Ok (map (fun c => JStr [c]) s)
  | _ => Raise TypeError
  end.

(** A loop body run over a list, stopping at the first exception. *)
Fixpoint map_result {A B : Type} (f : A -> result B) (l : list A)
  : result (list B) :=
  match l with
  | [] => Ok []
  | x :: l' => y ← f x; ys ← map_result f l'; Ok (y :: ys)
  end.

(* ================================================================== *)
(** ** schema.py: repair of the generated objects *)
(* ================================================================== *)

Definition normalize_erd_col (col : json) : result json :=
  name ← py_get col "name" JNull;
  type ← py_get col "type" JNull;
  pk ← py_get col "isPrimaryKey" JNull;
  pk' ← py_get col "primaryKey" JNull;
  fk ← py_get col "isForeignKey" JNull;
  fk' ← py_get col "foreignKey" JNull;
  nullable ← py_get col "nullable" (JBool false);
  Ok (JObj [(txt "name", name);
            (txt "type", type);
            (txt "isPrimaryKey", JBool (truthy (py_or pk pk')));
            (txt "isForeignKey", JBool (truthy (py_or fk fk')));
            (txt "nullable", nullable)]).

Definition normalize_erd_node (node : json) : result json :=
  match node with
  | JObj d =>
      let d := dict_set (txt "type") (JStr (txt "table")) d in
      let columns :=
        py_or (py_or (default JNull (dict_get (txt "columns") d))
                     (default JNull (dict_get (txt "data") d)))
              (JArr []) in
      cols ← py_iter columns;
      normalized_columns ← map_result normalize_erd_col cols;
      let d := dict_set (txt "columns") (JArr normalized_columns) d in
      let d := if dict_has (txt "data") d then dict_del (txt "data") d
               else d in
      Ok (JObj d)
  | _ => Raise TypeError
  end.

(** r'\{.*\}' with re.DOTALL *)
Definition json_object_re : regex := lit "{" ++ [Star any] ++ lit "}".

Definition backslash : ascii := "092".
Definition quote : ascii := "'".
Definition dquote : ascii := "034".

(** [node.setdefault(k, v)] *)
Definition py_setdefault (v : json) (k : string) (dflt : json) : result json :=
  match v with
  | JObj d => Ok (JObj (dict_setdefault (txt k) dflt d))
  | _ => Raise AttributeError
  end.

(** Step 4 of [parse_erd_json] for one node: the edges found inside the
    node and the node without them. *)
Definition hoist_edges (node : json) : result (list json * json) :=
  has ← py_in "edges" node;
  if (has : bool) then
    inner ← py_item node "edges";
    extracted ← py_iter inner;
    match node with
    | JObj d => Ok (extracted, JObj (dict_del (txt "edges") d))
    | _ => Raise AttributeError
    end
  else Ok ([], node).

(** The final clean-up of [parse_erd_json] for one node. *)
Definition default_node (node : json) : result json :=
  node ← py_setdefault node "type" (JStr (txt "table"));
  columns ← py_get node "columns" (JArr []);
  cols ← py_iter columns;
  cols' ← map_result (fun col =>
             col ← py_setdefault col "nullable" (JBool false);
             col ← py_setdefault col "isPrimaryKey" (JBool false);
             py_setdefault col "isForeignKey" (JBool false)) cols;
  match node, columns with
  | JObj d, JArr _ =>
      Ok (if dict_has (txt "columns") d
          then JObj (dict_set (txt "columns") (JArr cols') d)
          else node)
  | _, _ => Ok node
  end.

Section Decoder.
(** [json.loads], of Python's standard library. *)
Variable json_loads : str -> result json.

Definition parse_erd_json_body (response : str) : result json :=
  match search json_object_re response with
  | None => Raise ValueError
  | Some (a, b, _) =>
      let json_str := slice response a b in
      let json_str :=
        strip (replace [backslash; dquote] [dquote]
                 (replace [backslash; quote] [quote] json_str)) in
      parsed ← json_loads json_str;
      nodes ← py_get parsed "nodes" JNull;
      parsed ←
        match parsed, nodes with
        | JObj d, JArr nodes =>
            hoisted ← map_result hoist_edges nodes;
            let corrected_nodes := map snd hoisted in
            let extracted_edges := concat (map fst hoisted) in
            let d := dict_set (txt "nodes") (JArr corrected_nodes) d in
            match dict_get (txt "edges") d with
            | None =>
                Ok (JObj (dict_set (txt "edges") (JArr extracted_edges) d))
            | Some (JArr edges) =>
                Ok (JObj (dict_set (txt "edges")
                            (JArr (edges ++ extracted_edges)) d))
            | Some _ => Raise AttributeError
            end
        | _, _ => Ok parsed
        end;
      has_nodes ← py_in "nodes" parsed;
      has_edges ← py_in "edges" parsed;
      if negb has_nodes || negb has_edges then Raise ValueError
      else
        nodes ← py_item parsed "nodes";
        items ← py_iter nodes;
        items' ← map_result default_node items;
        match parsed, nodes with
        | JObj d, JArr _ =>
            Ok (JObj (dict_set (txt "nodes") (JArr items') d))
        | _, _ => Ok parsed
        end
  end.

(** [parse_erd_json]: the body inside [try], and [None] from the
    handler of [except Exception]. *)
Definition parse_erd_json (response : str) : result (option json) :=
  try_except (parsed ← parse_erd_json_body response; Ok (Some parsed))
             (fun _ => Ok None).

(** The body of the chunk loop of suggest_schema_improvements after the
    external call: what one answer adds to [all_nodes] and [all_edges]. *)
Definition chunk_erd (all : list json * list json) (raw_erd : str)
  : list json * list json :=
  let '(all_nodes, all_edges) := all in
  if negb (nonempty raw_erd) then all
  else
    match clean_json_string raw_erd with
    | Raise _ => all
    | Ok cleaned =>
        match
          parsed ← parse_erd_json cleaned;
          let parsed := default JNull parsed in
          ns ← py_get parsed "nodes" (JArr []);
          ns ← py_iter ns;
          nodes ← map_result normalize_erd_node ns;
          edges ← py_get parsed "edges" (JArr []);
          Ok (nodes, edges)
        with
        | Raise _ => all
        | Ok (nodes, edges) =>
            let all_nodes := all_nodes ++ nodes in
            match py_iter edges with
            | Raise _ => (all_nodes, all_edges)
            | Ok es => (all_nodes, all_edges ++ es)
            end
        end
    end.

Definition collect_erd (raws : list str) : list json * list json :=
  fold_left chunk_erd raws ([], []).
End Decoder.

(* ================================================================== *)
(** ** schema.py: the final merge *)
(* ================================================================== *)

(** Numbers as dict keys: Python's ints, floats and bools are one key when
    they are equal as numbers.  A finite number is kept as
    [(-1)^neg * m * 2^e] with [m] odd. *)
Inductive number : Type :=
| NZero
| NDyadic (neg : bool) (m : positive) (e : Z)
| NInf (neg : bool)
| NNaN.

Fixpoint dyadic (neg : bool) (m : positive) (e : Z) : number :=
  match m with
  | xO m' => dyadic neg m' (e + 1)
  | _ => NDyadic neg m e
  end.

Definition number_of_Z (z : Z) : number :=
  match z with
  | Z0 => NZero
  | Zpos p => dyadic false p 0
  | Zneg p => dyadic true p 0
  end.

Definition number_of_float (f : spec_float) : number :=
  match f with
  | S754_zero _ => NZero
  | S754_infinity s => NInf s
  | S754_nan => NNaN
  | S754_finite s m e => dyadic s m e
  end.

(** The hashable values a decoded object can hold. *)
Inductive hashable : Type :=
| HNone
| HStr (s : str)
| HNum (n : number).

#[export] Instance number_eq_dec : EqDecision number.
Proof. solve_decision. Defined.
#[export] Instance hashable_eq_dec : EqDecision hashable.
Proof. solve_decision. Defined.

(** The key a value is as a dict key or a member of a set; lists and dicts
    are unhashable. *)
Definition py_key (v : json) : result hashable :=
  match v with
  | JNull => Ok HNone
  | JBool b => Ok (HNum (number_of_Z (if b then 1 else 0)))
  | JInt z => Ok (HNum (number_of_Z z))
  | JFloat f => Ok (HNum (number_of_float f))
  | JStr s => Ok (HStr s)
  | JArr _ | JObj _ => Raise TypeError
  end.

Fixpoint fold_result {A B : Type} (f : A -> B -> result A) (a : A)
    (l : list B) : result A :=
  match l with
  | [] => Ok a
  | x :: l' => a' ← f a x; fold_result f a' l'
  end.

(** [{n["id"]: n for n in all_nodes}], one node at a time. *)
Definition unique_nodes_step (unique_nodes : list (hashable * json))
    (n : json) : result (list (hashable * json)) :=
  id ← py_item n "id";
  k ← py_key id;
  Ok (dict_set k n unique_nodes).

Definition edge_key (e : json) : result (hashable * hashable * hashable) :=
  source ← py_get e "source" JNull;
  target ← py_get e "target" JNull;
  label ← py_get e "label" JNull;
  s ← py_key source;
  t ← py_key target;
  l ← py_key label;
  Ok (s, t, l).

(** One turn of the loop over [all_edges]; the state is
    [unique_edges_set] and [unique_edges]. *)
Definition unique_edges_step
    (st : list (hashable * hashable * hashable) * list json) (e : json)
  : result (list (hashable * hashable * hashable) * list json) :=
  let '(unique_edges_set, unique_edges) := st in
  key ← edge_key e;
  if bool_decide (key ∈ unique_edges_set) then Ok st
  else Ok (key :: unique_edges_set, unique_edges ++ [e]).

(** The end of suggest_schema_improvements: the lists put under "nodes"
    and "edges" of the result. *)
Definition merge_erd (all_nodes all_edges : list json)
  : result (list json * list json) :=
  unique_nodes ← fold_result unique_nodes_step [] all_nodes;
  st ← fold_result unique_edges_step ([], []) all_edges;
  Ok (map snd unique_nodes, snd st).

(* ================================================================== *)
(** ** llm.py and the retry wrapper *)
(* ================================================================== *)

(** What [requests.post] gives for one request: an exception of the
    transport, or a response with a status and a body ([None] when the
    body is not JSON). *)
Inductive reply : Type :=
| NoReply
| Reply (status : nat) (body : option json).

(** [v[0]] *)
Definition py_first (v : json) : result json :=
  match v with
  | JArr (x :: _) => Ok x
  | JArr [] => Raise IndexError
  | JStr (c :: _) => Ok (JStr [c])
  | JStr [] => Raise IndexError
  | JObj _ => Raise KeyError
  | _ => Raise TypeError
  end.

(** [v[k]] for a string key, on any value. *)
Definition py_index (v : json) (k : string) : result json :=
  match v with
  | JObj _ => py_item v k
  | _ => Raise TypeError
  end.

(** [v.strip()] *)
Definition py_strip (v : json) : result str :=
  match v with
  | JStr s => Ok (strip s)
  | _ => Raise AttributeError
  end.

Definition is_request_exception (e : exn) : bool :=
  match e with
  | ConnectionError | HTTPError _ => true
  | _ => false
  end.

Definition is_value_key_index_error (e : exn) : bool :=
  match e with
  | ValueError | JSONDecodeError | KeyError | IndexError => true
  | _ => false
  end.

(** [response.raise_for_status()] *)
Definition raise_for_status (status : nat) : result unit :=
  if (400 <=? status) && (status <? 600) then Raise (HTTPError (Some status))
  else Ok tt.

(** [call_llm] of llm.py.  [configured] says that API_KEY, API_URL and
    MODEL_NAME are set; [r] is what the service answers. *)
Definition call_llm (configured : bool) (r : reply) : result str :=
  if negb configured then Raise ValueError
  else
    try_except
      (match r with
       | NoReply => Raise ConnectionError
       | Reply status body =>
           _ ← raise_for_status status;
           data ← match body with
                  | Some data => Ok data
                  | None => Raise JSONDecodeError
                  end;
           choices ← py_index data "choices";
           choice ← py_first choices;
           message ← py_index choice "message";
           content ← py_index message "content";
           py_strip content
       end)
      (fun e =>
         if is_request_exception e then Raise RuntimeError
         else if is_value_key_index_error e then Raise RuntimeError
         else Raise e).

(** The state of the world around the wrapper: how many requests were
    sent and the waits of [time.sleep], latest first. *)
Record world : Type := {
  requests : nat;
  sleeps : list nat
}.

Definition do_sleep (t : nat) (w : world) : world :=
  {| requests := requests w; sleeps := t :: sleeps w |}.

Section Wrapper.
(** What the n-th call of [call_llm] does. *)
Variable call_llm_at : nat -> result str.

Definition do_call_llm (w : world) : result str * world :=
  (call_llm_at (requests w),
   {| requests := S (requests w); sleeps := sleeps w |}).

(** The loop [while retries < max_retries] of [call_llm_single];
    [fuel] is [max_retries - retries]. *)
Fixpoint call_llm_loop (fuel retries base_delay : nat) (w : world)
  : result str * world :=
  match fuel with
  | O => (Ok [], w)
  | S fuel =>
      let '(r, w) := do_call_llm w in
      match r with
      | Ok result => (Ok (strip result), w)
      | Raise (HTTPError response) =>
          match response with
          | None => (Raise AttributeError, w)
          | Some status_code =>
              if Nat.eqb status_code 429 then
                let wait_time := base_delay * 2 ^ retries in
                call_llm_loop fuel (S retries) base_delay
                  (do_sleep wait_time w)
              else (Ok [], w)
          end
      | Raise _ => (Ok [], w)
      end
  end.

(** The body of [call_llm_single] around any callee. *)
Definition call_llm_single_around (max_retries base_delay : nat) (w : world)
  : result str * world :=
  call_llm_loop max_retries 0 base_delay w.
End Wrapper.

(** [call_llm_single]: the wrapper around [call_llm] of llm.py.
    [service] gives the answer of the service to the n-th request. *)
Definition call_llm_single (configured : bool) (service : nat -> reply)
    (max_retries base_delay : nat) (w : world) : result str * world :=
  call_llm_single_around (fun n => call_llm configured (service n))
    max_retries base_delay w.

Definition default_max_retries : nat := 5.
Definition default_base_delay : nat := 2.

(* ================================================================== *)
(** ** schema.py: foreign keys, the dependency graph and the chunks *)
(* ================================================================== *)

Definition not_rparen (c : ascii) : bool := negb (Ascii.eqb c ")").

(** r"FOREIGN\s+KEY\s*\([^\)]+\)\s+REFERENCES\s+\[?(\w+)\]?" with
    re.IGNORECASE *)
Definition foreign_key_re : regex :=
  lit_ci "FOREIGN" ++ plus is_space ++ lit_ci "KEY" ++ [Star is_space]
  ++ lit_ci "(" ++ plus not_rparen ++ lit_ci ")" ++ plus is_space
  ++ lit_ci "REFERENCES" ++ plus is_space ++ [Opt (Text.eqb "[")]
  ++ [Mark] ++ plus is_word ++ [Mark; Opt (Text.eqb "]")].

Definition extract_foreign_key_targets (table_sql : str) : gset str :=
  list_to_set (map (group1 table_sql) (findall foreign_key_re table_sql)).

(** One turn of the loop of [build_dependency_graph]; the state is
    [graph] and [table_map]. *)
Definition dependency_step (st : gmap str (gset str) * list (str * str))
    (ddl : str) : gmap str (gset str) * list (str * str) :=
  let '(graph, table_map) := st in
  let name := extract_table_name ddl in
  if nonempty name then
    let table_map := dict_set name ddl table_map in
    let graph := <[name := extract_foreign_key_targets ddl]> graph in
    (graph, table_map)
  else st.

Definition build_dependency_graph (tables : list str)
  : gmap str (gset str) * list (str * str) :=
  fold_left dependency_step tables (∅, []).

(** [chunk_tables]: one chunk per key of [table_map], in its order. *)
Definition chunk_tables (graph : gmap str (gset str))
    (table_map : list (str * str)) (max_columns_per_chunk : Z)
  : result (list str) :=
  map_result (fun table_name =>
                match dict_get table_name table_map with
                | Some ddl => Ok ddl
                | None => Raise KeyError
                end)
             (map fst table_map).

(* ================================================================== *)
(** ** schema.py: the statements of a script *)
(* ================================================================== *)

(** [\b]: between a word character and a character that is not one, the
    ends of the text counting as not one.  [prev] is the character before
    the position, [s] the text from the position on. *)
Definition is_word_at (c : option ascii) : bool :=
  match c with
  | Some c => is_word c
  | None => false
  end.

Definition word_boundary (prev : option ascii) (s : str) : bool :=
  xorb (is_word_at prev) (is_word_at (head s)).

(** r"\bGO\b" with re.IGNORECASE at one position: the length of the
    match. *)
Definition go_re (prev : option ascii) (s : str) : option nat :=
  match s with
  | g :: o :: s' =>
      if word_boundary prev s && Text.eqb_ci "G" g && Text.eqb_ci "O" o
         && word_boundary (Some o) s'
      then Some 2 else None
  | _ => None
  end.

(** The piece being read is the first of the list. *)
Definition push (c : ascii) (pieces : list str) : list str :=
  match pieces with
  | piece :: pieces' => (c :: piece) :: pieces'
  | [] => [[c]]
  end.

(** [re.split(r"\bGO\b", s, flags=re.IGNORECASE)]: the text between the
    matches.  [skip] counts the characters of the current match still to
    be passed. *)
Fixpoint split_loop (prev : option ascii) (skip : nat) (s : str) : list str :=
  match s with
  | [] => [[]]
  | c :: s' =>
      match skip with
      | S k => split_loop (Some c) k s'
      | O =>
          match go_re prev s with
          | Some n => [] :: split_loop (Some c) (n - 1) s'
          | None => push c (split_loop (Some c) 0 s')
          end
      end
  end.

Definition split_go (s : str) : list str := split_loop None 0 s.

(** [[stmt.strip() for stmt in re.split(...) if stmt.strip()]] *)
Definition statements (sql : str) : list str :=
  map strip (filter (fun stmt => nonempty (strip stmt) = true) (split_go sql)).

(** [sep.join(l)] *)
Fixpoint join (sep : str) (l : list str) : str :=
  match l with
  | [] => []
  | [x] => x
  | x :: l' => x ++ sep ++ join sep l'
  end.

(** The values of [range(0, stop, step)] for a positive step. *)
Fixpoint range_from (fuel i stop step : nat) : list nat :=
  match fuel with
  | O => []
  | S fuel =>
      if i <? stop then i :: range_from fuel (i + step) stop step else []
  end.

(** [range(0, stop, step)]: a step of 0 is a ValueError, and with a
    negative step nothing is below 0. *)
Definition py_range (stop : nat) (step : Z) : result (list nat) :=
  if (step =? 0)%Z then Raise ValueError
  else if (step <? 0)%Z then Ok []
  else Ok (range_from stop 0 stop (Z.to_nat step)).

(** [l[i:j]] for [0 <= i] *)
Definition py_slice {A : Type} (l : list A) (i : nat) (j : Z) : list A :=
  let j := if (j <? 0)%Z then Z.to_nat (Z.of_nat (length l) + j)
           else Z.to_nat j in
  take (j - i) (drop i l).

Definition go_line : str := "010"%char :: txt "GO" ++ ["010"%char].

Definition chunk_sql_fixes (sql_fixes : str) (max_statements_per_chunk : Z)
  : result (list str) :=
  let statements := statements sql_fixes in
  starts ← py_range (length statements) max_statements_per_chunk;
  Ok (map (fun i =>
             join go_line
               (py_slice statements i
                  (Z.of_nat i + max_statements_per_chunk)))
          starts).

(* ================================================================== *)
(** ** schema.py: suggest_schema_improvements *)
(* ================================================================== *)

(** What suggest_schema_improvements returns: the dict with "success":
    False, or the dict with "success": True.  Of the first the message is
    kept as its cause ([None]: the schema data is empty; [Some e]: the
    exception caught at the end); of the second "reactflow_erd" is kept as
    the two lists that json.dumps writes under "nodes" and "edges". *)
Inductive outcome : Type :=
| Failure (cause : option exn)
| Success (textual_summary sql_fix : str) (nodes edges : list json).

Section Suggest.
Variable json_loads : str -> result json.
Variable configured : bool.
Variable service : nat -> reply.

(** [call_llm_single(prompt)], with the default retries and delay.  The
    answer of the service is what [service] says for the request, whatever
    the prompt. *)
Definition ask (w : world) : result str * world :=
  call_llm_single configured service default_max_retries default_base_delay w.

(** One turn of the loop over [table_map.items()] that collects
    [sql_fix]. *)
Definition sql_fix_step (st : result str * world) (item : str * str)
  : result str * world :=
  let '(acc, w) := st in
  match acc with
  | Raise e => (Raise e, w)
  | Ok sql_fix =>
      let '(r, w) := ask w in
      match r with
      | Raise e => (Raise e, w)
      | Ok partial_fix =>
          (Ok (if nonempty partial_fix
               then sql_fix ++ strip partial_fix ++ go_line
               else sql_fix), w)
      end
  end.

(** One turn of the loop over [schema_chunks]. *)
Definition erd_step (st : result (list json * list json) * world)
    (chunk : str) : result (list json * list json) * world :=
  let '(acc, w) := st in
  match acc with
  | Raise e => (Raise e, w)
  | Ok all =>
      let '(r, w) := ask w in
      match r with
      | Raise e => (Raise e, w)
      | Ok raw_erd => (Ok (chunk_erd json_loads all raw_erd), w)
      end
  end.

Definition default_max_columns : Z := 80.

(** [schema_data] is what [get_schema(database_name)] returns or
    raises. *)
Definition suggest_schema_improvements (schema_data : result (list row))
    (w : world) : outcome * world :=
  match schema_data with
  | Raise e => (Failure (Some e), w)
  | Ok [] => (Failure None, w)
  | Ok schema_data =>
      let schema_text := build_schema_text schema_data in
      let '(r, w) := ask w in
      match r with
      | Raise e => (Failure (Some e), w)
      | Ok summary =>
          let tables := split_schema_to_tables schema_text in
          let '(graph, table_map) := build_dependency_graph tables in
          let '(r, w) := fold_left sql_fix_step table_map (Ok [], w) in
          match r with
          | Raise e => (Failure (Some e), w)
          | Ok sql_fix =>
              let sql_fix := strip sql_fix in
              let full_fixed_schema :=
                schema_text
                ++ (if nonempty sql_fix
                    then ["010"; "010"]%char ++ sql_fix else []) in
              let tables := split_schema_to_tables full_fixed_schema in
              let '(graph, table_map) := build_dependency_graph tables in
              match chunk_tables graph table_map default_max_columns with
              | Raise e => (Failure (Some e), w)
              | Ok schema_chunks =>
                  let '(r, w) :=
                    fold_left erd_step schema_chunks (Ok ([], []), w) in
                  match r with
                  | Raise e => (Failure (Some e), w)
                  | Ok (all_nodes, all_edges) =>
                      match merge_erd all_nodes all_edges with
                      | Raise e => (Failure (Some e), w)
                      | Ok (nodes, edges) =>
                          (Success summary sql_fix nodes edges, w)
                      end
                  end
              end
          end
      end
  end.
End Suggest.

(* ================================================================== *)
(** ** normalize.py and analyzecleaning.py: the callers of [call_llm] *)
(* ================================================================== *)

(** [s.split(sep)] for a non-empty [sep]: the texts between the
    occurrences of [sep], which are found from the left, without overlap.
    [skip] counts the characters of the current occurrence still to be
    passed. *)
Fixpoint py_split_loop (sep : str) (skip : nat) (s : str) : list str :=
  match s with
  | [] => [[]]
  | c :: s' =>
      match skip with
      | S k => py_split_loop sep k s'
      | O =>
          if starts_with sep s
          then [] :: py_split_loop sep (length sep - 1) s'
          else push c (py_split_loop sep 0 s')
      end
  end.

Definition py_split (sep s : str) : list str := py_split_loop sep 0 s.

(** [[stmt.strip() for stmt in sql.split("GO") if stmt.strip()]] of
    apply_normalization and apply_fix. *)
Definition go_statements (sql : str) : list str :=
  map strip
    (filter (fun stmt => nonempty (strip stmt) = true)
       (py_split (txt "GO") sql)).

(** What analyze_normalization returns: the three failures with their
    messages, and the success with [sql_to_review]. *)
Inductive analysis : Type :=
| NoSchemaFound
| EmptySql
| AnalysisFailed (e : exn)
| SqlToReview (sql : str).

(** [analyze_normalization]: [all_chunks] is what [retrieve_schema_chunks]
    returns, [r] what the service answers to the prompt. *)
Definition analyze_normalization (all_chunks : list str) (configured : bool)
    (r : reply) : analysis :=
  match all_chunks with
  | [] => NoSchemaFound
  | _ =>
      match call_llm configured r with
      | Ok sql =>
          if negb (nonempty (strip sql)) then EmptySql
          else SqlToReview (strip sql)
      | Raise e => AnalysisFailed e
      end
  end.

(* ================================================================== *)
(** ** Vocabulary of the statements *)
(* ================================================================== *)

(** The waits of the loop of the wrapper before the retries [retries], ...,
    [retries + n - 1], latest first. *)
Definition waits (base_delay retries n : nat) : list nat :=
  rev (map (fun r => base_delay * 2 ^ r) (seq retries n)).

(** The name of a column object, and the names of the columns of a node. *)
Definition col_name (col : json) : json :=
  match col with
  | JObj f => default JNull (dict_get (txt "name") f)
  | _ => JNull
  end.

Definition column_names (node : json) : list json :=
  match node with
  | JObj d =>
      match dict_get (txt "columns") d with
      | Some (JArr cols) => map col_name cols
      | _ => []
      end
  | _ => []
  end.

(** The columns [normalize_erd_node] reads from a node:
    [node.get("columns") or node.get("data") or []]. *)
Definition source_columns (node : json) : json :=
  match node with
  | JObj d =>
      py_or (py_or (default JNull (dict_get (txt "columns") d))
                   (default JNull (dict_get (txt "data") d)))
            (JArr [])
  | _ => JArr []
  end.

(** A text in double quotes. *)
Definition quoted (s : string) : str := dquote :: txt s ++ [dquote].

(** A generated object whose node has two columns named "a", its JSON text
    and a decoder that knows this text. *)
Definition dup_node : json :=
  JObj [(txt "id", JStr (txt "T"));
        (txt "columns", JArr [JObj [(txt "name", JStr (txt "a"))];
                              JObj [(txt "name", JStr (txt "a"))]])].

Definition dup_object : json :=
  JObj [(txt "nodes", JArr [dup_node]); (txt "edges", JArr [])].

Definition dup_text : str :=
  txt "{" ++ quoted "nodes" ++ txt ":[{" ++ quoted "id" ++ txt ":"
  ++ quoted "T" ++ txt "," ++ quoted "columns" ++ txt ":[{" ++ quoted "name"
  ++ txt ":" ++ quoted "a" ++ txt "},{" ++ quoted "name" ++ txt ":"
  ++ quoted "a" ++ txt "}]}]," ++ quoted "edges" ++ txt ":[]}".

Definition dup_loads (s : str) : result json :=
  if str_eqb s dup_text then Ok dup_object else Raise JSONDecodeError.

(** The key of a node and of an edge in the merge, with a default where
    the code raises. *)
Definition node_key (n : json) : result hashable :=
  id ← py_item n "id"; py_key id.

Definition is_ok {A : Type} (r : result A) : Prop :=
  match r with Ok _ => True | Raise _ => False end.

Definition key_of {A K : Type} (dflt : K) (f : A -> result K) (x : A) : K :=
  match f x with Ok k => k | Raise _ => dflt end.

Definition node_key_of : json -> hashable := key_of HNone node_key.

(** A value that can be a dict key or a member of a set: any decoded value
    but a list or a dict. *)
Definition is_hashable (v : json) : Prop :=
  match v with
  | JArr _ | JObj _ => False
  | _ => True
  end.

(** A node that the merge can file: a dict with an "id" that can be a
    key.  An edge that the merge can file: a dict whose "source", "target"
    and "label", where it has them, can be members of a set. *)
Definition has_id (n : json) : Prop :=
  exists d id,
    n = JObj d /\ dict_get (txt "id") d = Some id /\ is_hashable id.

Definition keyed_edge (e : json) : Prop :=
  exists d,
    e = JObj d
    /\ Forall (fun k => forall v, dict_get k d = Some v -> is_hashable v)
         [txt "source"; txt "target"; txt "label"].

(** The value of a field as a key; [None] is the key of a field that is
    not there.  The key of an edge is made of its fields "source",
    "target" and "label". *)
Definition field_key (k : string) (e : json) : hashable :=
  match e with
  | JObj d =>
      match dict_get (txt k) d with
      | Some v => key_of HNone py_key v
      | None => HNone
      end
  | _ => HNone
  end.

Definition edge_key_of (e : json) : hashable * hashable * hashable :=
  (field_key "source" e, field_key "target" e, field_key "label" e).

(** First occurrence wins: an item is kept when no earlier item has its
    key; the kept items stay in their order. *)
Fixpoint first_wins {A K : Type} `{EqDecision K} (key : A -> K) (l : list A)
  : list A :=
  match l with
  | [] => []
  | x :: l' =>
      x :: filter (fun y => key y ≠ key x) (first_wins key l')
  end.

(** The last item of a list that has the key [k]. *)
Definition last_with_key {A K : Type} `{EqDecision K} (key : A -> K) (k : K)
    (l : list A) : option A :=
  last (filter (fun y => key y = k) l).

(** Two chunks that collide: both have a node "A" and an edge from "A" to
    "B" with the label "fk". *)
Definition sample_node (id label : string) : json :=
  JObj [(txt "id", JStr (txt id)); (txt "label", JStr (txt label))].

Definition sample_edge (source target label handle : string) : json :=
  JObj [(txt "source", JStr (txt source)); (txt "target", JStr (txt target));
        (txt "label", JStr (txt label));
        (txt "sourceHandle", JStr (txt handle))].

Definition sample_chunks : list (list json * list json) :=
  [([sample_node "A" "first"; sample_node "B" "b"],
    [sample_edge "A" "B" "fk" "DeptID"]);
   ([sample_node "A" "second"], [sample_edge "A" "B" "fk" "deptid"])].

(** The text that [parse_erd_json] gives to [json.loads]: the match of
    the object pattern in the response, without the backslash before a
    quote, stripped. *)
Definition json_text (response : str) : option str :=
  match search json_object_re response with
  | None => None
  | Some (a, b, _) =>
      Some (strip (replace [backslash; dquote] [dquote]
                     (replace [backslash; quote] [quote]
                        (slice response a b))))
  end.

(** A generated object whose node has no "id", its JSON text and a
    decoder that knows this text; a service that gives this text as every
    answer, and the body of such an answer. *)
Definition noid_object : json :=
  JObj [(txt "nodes", JArr [JObj [(txt "label", JStr (txt "T"))]]);
        (txt "edges", JArr [])].

Definition noid_text : str :=
  txt "{" ++ quoted "nodes" ++ txt ":[{" ++ quoted "label" ++ txt ":"
  ++ quoted "T" ++ txt "}]," ++ quoted "edges" ++ txt ":[]}".

Definition noid_loads (s : str) : result json :=
  if str_eqb s noid_text then Ok noid_object else Raise JSONDecodeError.

Definition answer_body (content : str) : json :=
  JObj [(txt "choices",
         JArr [JObj [(txt "message",
                      JObj [(txt "content", JStr content)])]])].

Definition noid_service (request : nat) : reply :=
  Reply 200 (Some (answer_body noid_text)).

(** A catalog row of a column [Notes NVARCHAR(MAX)] of a table [T]:
    sys.columns gives the length -1 for it. *)
Definition notes_row : row :=
  {| table_name := Some (txt "T");
     column_name := Some (txt "Notes");
     data_type := Some (txt "NVARCHAR");
     max_length := Some (-1)%Z;
     is_nullable := Some true;
     is_primary_key := Some false;
     is_foreign_key := Some false;
     ReferenceTable := None;
     referenced_table := None;
     ReferenceColumn := None;
     referenced_column := None |}.

(** Foreign-key edges of a graph, reachability along them, and all the
    table names of a graph. *)
Definition fk_edge (graph : gmap str (gset str)) (u v : str) : Prop :=
  v ∈ default ∅ (graph !! u).

Definition reachable (graph : gmap str (gset str)) : str -> str -> Prop :=
  rtc (fk_edge graph).

Definition tables (graph : gmap str (gset str)) : gset str :=
  dom graph ∪ ⋃ (map snd (map_to_list graph)).

Definition cycle_graph : gmap str (gset str) :=
  {[ txt "A" := {[ txt "B" ]}; txt "B" := {[ txt "C" ]};
     txt "C" := {[ txt "A" ]} ]}.

(** The loop over the foreign-key targets of one table. *)
Definition visit_targets (graph : gmap str (gset str)) (depth : nat) (visited : option (gset str))
    (targets : list str) : option (gset str) :=
  foldl (fun acc fk_table =>
           visited ← acc;
           resolve_chunk_tables depth graph fk_table (Some visited))
        visited targets.

(** The braces of a text, and the depth of a text: opening minus closing
    braces. *)
Definition is_brace (c : ascii) : bool :=
  Ascii.eqb c lbrace || Ascii.eqb c rbrace.

Definition braces (s : str) : str := filter (fun c => is_brace c = true) s.

Definition brace_value (c : ascii) : Z :=
  if Ascii.eqb c lbrace then 1 else if Ascii.eqb c rbrace then (-1) else 0.

Fixpoint depth (s : str) : Z :=
  match s with
  | [] => 0
  | c :: s' => brace_value c + depth s'
  end.

(** Counted from the first opening brace, the depth never returns to 0. *)
Definition never_closes (raw : str) : Prop :=
  forall k, find_char lbrace raw = Some k ->
    forall n, 0 < n <= length raw - k -> depth (take n (drop k raw)) ≠ 0%Z.

(** A text that starts with an opening brace and ends with the brace that
    closes it. *)
Definition balanced_object (obj : str) : Prop :=
  (exists body, obj = lbrace :: body)
  /\ depth obj = 0%Z
  /\ forall n, 0 < n < length obj -> depth (take n obj) ≠ 0%Z.

(** An answer in a fence: the object after an opening fence with a language
    tag, and prose around the closing fence. *)
Definition fenced (tag obj prose after : str) : str :=
  txt "```" ++ tag ++ ["010"%char] ++ obj ++ prose ++ ["010"%char]
  ++ txt "```" ++ after.

(** The characters an item can consume. *)
Definition atom_accepts (a : atom) (c : ascii) : bool :=
  match a with
  | Ch p | Star p | StarLazy p | Opt p => p c
  | Bol | Eol | Mark => false
  end.

Definition accepts (r : regex) (c : ascii) : bool :=
  existsb (fun a => atom_accepts a c) r.

(** The failure of the search for an object, in the text and in its
    braces. *)
Definition no_object (s : str) : Prop :=
  match find_char lbrace s with
  | None => True
  | Some k => scan_braces 0 k (drop k s) = None
  end.

Definition not_lbrace (c : ascii) : bool := negb (Ascii.eqb c lbrace).

(** A table name the parser can read back: one or more word characters. *)
Definition good_name (name : str) : Prop :=
  name ≠ [] /\ Forall (fun c => is_word c = true) name.

Definition newline : ascii := "010".

(** The shape of a DDL text, read from the left.  At the top the text is
    at its end, at a newline, at the header of a table with a good name, at
    a closing [);] or at any other character that opens a body; in a body
    it is at any character or at the closing [);] that ends the body.  The
    list holds the good names of the headers, in order. *)
Inductive mode : Type := at_top | in_body.

Inductive Segs : mode -> list str -> str -> Prop :=
| Segs_nil : Segs at_top [] []
| Segs_newline names s :
    Segs at_top names s -> Segs at_top names (newline :: s)
| Segs_header name names s :
    good_name name -> Segs in_body names s ->
    Segs at_top (name :: names) (table_header name ++ s)
| Segs_open c names s :
    Segs in_body names s -> Segs at_top names (c :: s)
| Segs_char c names s :
    Segs in_body names s -> Segs in_body names (c :: s)
| Segs_close names s :
    Segs at_top names s -> Segs in_body names (")" :: ";" :: s)%char
| Segs_close_top names s :
    Segs at_top names s -> Segs at_top names (")" :: ";" :: s)%char.

(** The text of suggest_schema_improvements before [fix_sql_schema]. *)
Definition close_last_table (st : str * option str) : str :=
  match st.2 with
  | Some _ => rstrip_chars comma_newline st.1 ++ table_close
  | None => st.1
  end.

(** The names read back from a DDL text. *)
Definition recovered_names (schema_text : str) : list str :=
  map extract_table_name (split_schema_to_tables schema_text).

(** A catalog row of the table [Order Details]. *)
Definition order_details_row : row :=
  {| table_name := Some (txt "Order Details");
     column_name := Some (txt "OrderID");
     data_type := Some (txt "int");
     max_length := Some 4%Z;
     is_nullable := Some false;
     is_primary_key := Some true;
     is_foreign_key := Some false;
     ReferenceTable := None;
     referenced_table := None;
     ReferenceColumn := None;
     referenced_column := None |}.

Definition Closed (names : list str) (closed : str) : Prop :=
  forall names' rest,
    Segs at_top names' rest -> Segs at_top (names ++ names') (closed ++ rest).

(** The state of the loop: nothing yet, or closed segments, the header of
    the current table and at least one column. *)
Definition step_inv (seen : list str) (st : str * option str) : Prop :=
  match st.2 with
  | None => st.1 = [] /\ seen = []
  | Some current =>
      exists names closed body,
        st.1 = closed ++ table_header current ++ " "%char :: body
        /\ Closed names closed
        /\ forall n, n ∈ seen -> good_name n -> n ∈ names \/ n = current
  end.

(** No match of [r] starts in [a] when [a] is followed by a text in [P]. *)
Definition no_match_in (r : regex) (a : str) (P : str -> Prop) : Prop :=
  forall i k s, P s -> k < length a ->
    run r (i + k) (drop k (a ++ s)) [] = None.

Definition header_open : str := txt "CREATE TABLE [".
Definition header_close : str := txt "] (" ++ [newline].

(** The closing [);] of the table pattern and the mark after it. *)
Definition closing : str := txt ");".

(** The part of the table pattern before [.*?]. *)
Definition table_head_re : regex :=
  lit_ci "CREATE TABLE" ++ plus is_space ++ [Opt (Text.eqb "[")]
  ++ plus is_word ++ [Opt (Text.eqb "]")].

Definition create_table : str := txt "CREATE TABLE".

(** A dict holds each key once. *)
Definition distinct_keys (v : json) : Prop :=
  match v with
  | JObj d => NoDup d.*1
  | _ => True
  end.

Definition is_object (v : json) : Prop :=
  match v with
  | JObj _ => True
  | _ => False
  end.

(** A column as [normalize_erd_node] writes it: the five keys in their
    order, the two key flags booleans. *)
Definition normal_col (col : json) : Prop :=
  exists name type pk fk nullable,
    col = JObj [(txt "name", name);
                (txt "type", type);
                (txt "isPrimaryKey", JBool pk);
                (txt "isForeignKey", JBool fk);
                (txt "nullable", nullable)].

(** A column that has the three keys [parse_erd_json] fills in, and a node
    that has a type and whose columns, when they are a list, have them. *)
Definition has_defaults (col : json) : Prop :=
  exists c, col = JObj c
            /\ dict_has (txt "nullable") c = true
            /\ dict_has (txt "isPrimaryKey") c = true
            /\ dict_has (txt "isForeignKey") c = true.

Definition typed_node (node : json) : Prop :=
  exists nd, node = JObj nd
             /\ dict_has (txt "type") nd = true
             /\ forall cols, dict_get (txt "columns") nd = Some (JArr cols) ->
                             Forall has_defaults cols.

(** The edges listed at the top of a decoded object, and the edges a node
    carries under its own key "edges". *)
Definition top_edges (decoded : json) : list json :=
  match decoded with
  | JObj d =>
      match dict_get (txt "edges") d with
      | Some (JArr edges) => edges
      | _ => []
      end
  | _ => []
  end.

Definition inner_edges (node : json) : list json :=
  match node with
  | JObj nd =>
      match dict_get (txt "edges") nd with
      | Some inner =>
          match py_iter inner with
          | Ok extracted => extracted
          | Raise _ => []
          end
      | None => []
      end
  | _ => []
  end.

(** [r] occurs in [s] as one piece. *)
Definition occurs_in (r s : str) : Prop := exists a b, s = a ++ r ++ b.

(** A text that does not end with a character of the class. *)
Definition ends_outside (p : ascii -> bool) (s : str) : Prop :=
  s = [] \/ exists a c, s = a ++ [c] /\ p c = false.


(** What a pattern matches: [matches r i s n] says that [r] matches the
    first [n] characters of [s], the text from position [i] on. *)
Inductive matches : regex -> nat -> str -> nat -> Prop :=
| matches_nil i s : matches [] i s 0
| matches_Ch p r i c s n :
    p c = true -> matches r (S i) s n -> matches (Ch p :: r) i (c :: s) (S n)
| matches_Bol r s n : matches r 0 s n -> matches (Bol :: r) 0 s n
| matches_Eol r i s n :
    at_eol s = true -> matches r i s n -> matches (Eol :: r) i s n
| matches_Mark r i s n : matches r i s n -> matches (Mark :: r) i s n
| matches_Opt_skip p r i s n : matches r i s n -> matches (Opt p :: r) i s n
| matches_Opt_take p r i c s n :
    p c = true -> matches r (S i) s n -> matches (Opt p :: r) i (c :: s) (S n)
| matches_Star_stop p r i s n :
    matches r i s n -> matches (Star p :: r) i s n
| matches_Star_more p r i c s n :
    p c = true -> matches (Star p :: r) (S i) s n ->
    matches (Star p :: r) i (c :: s) (S n)
| matches_StarLazy_stop p r i s n :
    matches r i s n -> matches (StarLazy p :: r) i s n
| matches_StarLazy_more p r i c s n :
    p c = true -> matches (StarLazy p :: r) (S i) s n ->
    matches (StarLazy p :: r) i (c :: s) (S n).

(** A pattern without [^] and [$]. *)
Definition unanchored (r : regex) : Prop :=
  Forall (fun a => a ≠ Bol /\ a ≠ Eol) r.

(** A pattern without its marks. *)
Definition is_mark (a : atom) : bool :=
  match a with
  | Mark => true
  | _ => false
  end.

Definition unmark (r : regex) : regex :=
  List.filter (fun a => negb (is_mark a)) r.

(** The character before the position [k] of a text [q] that follows
    [prev]. *)
Definition prev_at (prev : option ascii) (q : str) (k : nat) : option ascii :=
  match k with
  | O => prev
  | S k' => q !! k'
  end.

(** No match of [\bGO\b] starts inside [q], when [q] follows [prev] and is
    followed by [rest]. *)
Definition quiet (prev : option ascii) (q rest : str) : Prop :=
  forall k, k < length q ->
            go_re (prev_at prev q k) (drop k (q ++ rest)) = None.

(** A statement as [statements] gives them: not empty, stripped, and
    without a GO of its own. *)
Definition calm (p : str) : Prop := quiet None p [].

Definition stmt_ok (p : str) : Prop := p ≠ [] /\ strip p = p /\ calm p.

(** [q] put before the first piece of a list of pieces. *)
Definition pushes (q : str) (pieces : list str) : list str :=
  match pieces with
  | piece :: pieces' => (q ++ piece) :: pieces'
  | [] => [q]
  end.

(** The text of the column of a row without the comma and the newline that
    end it. *)
Definition column_body (r : row) : str :=
  let column_name := default (txt "UnknownColumn") (column_name r) in
  let data_type := default (txt "VARCHAR") (data_type r) in
  let max_length := Z.abs (default 0%Z (max_length r)) in
  txt "  [" ++ column_name ++ txt "] " ++ data_type
  ++ length_text data_type max_length
  ++ constraints_text r.

(** The runs of the rows: each run of consecutive rows of one table, with
    the name of the table and the columns of the rows, the latest run
    first.  A row without a table name belongs to no run and ends none. *)
Definition segment_step (segs : list (str * list str)) (r : row)
  : list (str * list str) :=
  match table_name r with
  | None => segs
  | Some name =>
      match segs with
      | (current, cols) :: older =>
          if decide (name = current)
          then (current, cols ++ [column_body r]) :: older
          else (name, [column_body r]) :: segs
      | [] => [(name, [column_body r])]
      end
  end.

Definition segments (schema_data : list row) : list (str * list str) :=
  rev (fold_left segment_step schema_data []).

(** The statement of a run, and the text of all the runs. *)
Definition segment_text (seg : str * list str) : str :=
  table_header seg.1 ++ join comma_newline seg.2 ++ table_close.

Definition blank_line : str := ["010"; "010"]%char.

Definition ddl_text (segs : list (str * list str)) : str :=
  join blank_line (map segment_text segs).

(** A text of word characters, and a row whose texts are such: the names
    that SQL Server accepts without brackets. *)
Definition plain (s : str) : Prop := Forall (fun c => is_word c = true) s.

Definition plain_field (field : option str) : Prop :=
  match field with
  | Some s => plain s
  | None => True
  end.

Definition plain_fields (r : row) : Prop :=
  plain_field (column_name r) /\ plain_field (data_type r)
  /\ plain_field (ReferenceTable r) /\ plain_field (referenced_table r)
  /\ plain_field (ReferenceColumn r) /\ plain_field (referenced_column r).

Definition plain_row (r : row) : Prop :=
  match table_name r with
  | None => True
  | Some name => good_name name /\ plain_fields r
  end.

(** The runs of such rows. *)
Definition plain_col (col : str) : Prop :=
  exists r, plain_fields r /\ col = column_body r.

Definition plain_seg (seg : str * list str) : Prop :=
  good_name seg.1 /\ seg.2 ≠ [] /\ Forall plain_col seg.2.

(** [scan a bad armed s] reads [s] and fails at a character of [bad] that
    comes after [a] and white space only; [armed] tells whether the text
    before [s] ends with [a] and white space.  The result is the state at
    the end of [s]. *)
Fixpoint scan (a : ascii) (bad : ascii -> bool) (armed : bool) (s : str)
  : option bool :=
  match s with
  | [] => Some armed
  | c :: s' =>
      if armed && bad c then None
      else scan a bad (Ascii.eqb c a || (armed && is_space c)) s'
  end.

(** No character of [bad] comes in [s] after [a] and white space only. *)
Definition never_after (a : ascii) (bad : ascii -> bool) (s : str) : Prop :=
  forall q k c,
    s !! q = Some a ->
    Forall (fun c => is_space c = true) (take k (drop (S q) s)) ->
    s !! (S q + k) = Some c ->
    bad c = false.

Definition paren_or_semi (c : ascii) : bool :=
  Ascii.eqb c ")" || Ascii.eqb c ";".

(** A column text ends with a character that [rstrip(",\n")] keeps. *)
Definition col_ok (col : str) : Prop :=
  exists b c, col = b ++ [c] /\ in_chars comma_newline c = false.

Definition segs_ok (segs : list (str * list str)) : Prop :=
  Forall (fun seg => seg.2 ≠ [] /\ Forall col_ok seg.2) segs.

(** The state of the loop over the rows after the runs [segs], the latest
    first: the earlier runs are closed, the latest is open. *)
Definition open_text (segs : list (str * list str)) : str * option str :=
  match segs with
  | [] => ([], None)
  | (current, cols) :: older =>
      (concat (map (fun seg => segment_text seg ++ blank_line) (rev older))
       ++ table_header current
       ++ concat (map (fun col => col ++ comma_newline) cols),
       Some current)
  end.

(** A generated node that lists its columns under "data" and marks the
    key with "primaryKey". *)
Definition employees_node : json :=
  JObj [(txt "id", JStr (txt "Employees"));
        (txt "data", JArr [JObj [(txt "name", JStr (txt "EID"));
                                 (txt "primaryKey", JBool true)]])].

(** A decoded answer whose node carries an edge of its own, and a decoder
    that gives this answer for every text. *)
Definition labelled_edge (label : string) : json :=
  JObj [(txt "source", JStr (txt "Employees"));
        (txt "target", JStr (txt "Departments"));
        (txt "label", JStr (txt label))].

Definition nested_object : json :=
  JObj [(txt "nodes",
         JArr [JObj [(txt "id", JStr (txt "Employees"));
                     (txt "columns",
                      JArr [JObj [(txt "name", JStr (txt "DeptID"))]]);
                     (txt "edges", JArr [labelled_edge "inner"])]]);
        (txt "edges", JArr [labelled_edge "top"])].

Definition nested_loads (s : str) : result json := Ok nested_object.

(** A block with a foreign key as the pattern of the source reads it. *)
Definition employees_block : str :=
  txt "CREATE TABLE [Employees] ( [DeptID] int, FOREIGN KEY (DeptID) REFERENCES [Departments] );".

(** A catalog row of a foreign-key column. *)
Definition dept_row : row :=
  {| table_name := Some (txt "Employees");
     column_name := Some (txt "DeptID");
     data_type := Some (txt "int");
     max_length := Some 4%Z;
     is_nullable := Some false;
     is_primary_key := Some false;
     is_foreign_key := Some true;
     ReferenceTable := None;
     referenced_table := Some (txt "Departments");
     ReferenceColumn := None;
     referenced_column := Some (txt "DeptID") |}.

(** Nothing requested yet. *)
Definition idle : world := {| requests := 0; sleeps := [] |}.

(** A callee that meets the rate limit twice and then answers. *)
Definition limited_twice (n : nat) : result str :=
  if n <? 2 then Raise (HTTPError (Some 429)) else Ok (txt " SELECT 1 ").

(** A script of two statements. *)
Definition two_statements : str :=
  txt "SELECT 1" ++ go_line ++ txt "SELECT 2".

(** The catalog rows of two tables, the first with a foreign key to the
    second. *)
Definition departments_row : row :=
  {| table_name := Some (txt "Departments");
     column_name := Some (txt "DeptID");
     data_type := Some (txt "int");
     max_length := Some 4%Z;
     is_nullable := Some false;
     is_primary_key := Some true;
     is_foreign_key := Some false;
     ReferenceTable := None;
     referenced_table := None;
     ReferenceColumn := None;
     referenced_column := None |}.

Definition two_tables : list row := [dept_row; departments_row].

(** Two characters that are the same up to the case of an ASCII letter,
    and two texts that are the same up to the case of their letters; the
    first as a test as well. *)
Definition is_ascii_letter (c : ascii) : bool :=
  between 65 90 c || between 97 122 c.

Definition same_letter (a b : ascii) : Prop :=
  a = b
  \/ (is_ascii_letter a = true /\ is_ascii_letter b = true
      /\ (code a = code b + 32 \/ code b = code a + 32)%N).

Definition same_letterb (a b : ascii) : bool :=
  Ascii.eqb a b
  || (is_ascii_letter a && is_ascii_letter b
      && ((code a =? code b + 32)%N || (code b =? code a + 32)%N)).

Definition same_word (u s : str) : Prop := Forall2 same_letter u s.

(** A type name that is VARCHAR or NVARCHAR up to letter case. *)
Definition varchar_name (data_type : str) : Prop :=
  same_word (txt "VARCHAR") data_type \/ same_word (txt "NVARCHAR") data_type.

(** A catalog row whose type name ends with an empty pair of
    parentheses. *)
Definition odd_type_row : row :=
  {| table_name := Some (txt "T");
     column_name := Some (txt "c");
     data_type := Some (txt "MYVARCHAR()");
     max_length := Some 4%Z;
     is_nullable := Some true;
     is_primary_key := Some false;
     is_foreign_key := Some false;
     ReferenceTable := None;
     referenced_table := None;
     ReferenceColumn := None;
     referenced_column := None |}.

(* ================================================================== *)
(** * Properties *)
(* ================================================================== *)

(* ------------------------------------------------------------------ *)
(** ** The retry wrapper *)
(* ------------------------------------------------------------------ *)

Section WrapperFacts.
Variable call_llm_at : nat -> result str.
Variables (base_delay : nat) (text : str).

Lemma waits_S (retries n : nat) :
  waits base_delay retries (S n)
  = waits base_delay (S retries) n ++ [base_delay * 2 ^ retries].
Proof. reflexivity. Qed.

(** Around a callee that lets the HTTPError of a 429 answer through, the
    loop sleeps and calls again until the callee returns. *)
Lemma call_llm_loop_retries (n : nat) :
  forall fuel retries w,
    n < fuel ->
    (forall k, k < n ->
       call_llm_at (requests w + k) = Raise (HTTPError (Some 429))) ->
    call_llm_at (requests w + n) = Ok text ->
    call_llm_loop call_llm_at fuel retries base_delay w
    = (Ok (strip text),
       {| requests := requests w + S n;
          sleeps := waits base_delay retries n ++ sleeps w |}).
Proof.
  induction n as [|n IH]; intros fuel retries w Hfuel Hrate Hok.
  - destruct fuel as [|fuel]; [lia|]. simpl.
    rewrite Nat.add_0_r in Hok. rewrite Hok. do 2 f_equal. lia.
  - destruct fuel as [|fuel]; [lia|]. simpl.
    pose proof (Hrate 0 ltac:(lia)) as H0. rewrite Nat.add_0_r in H0.
    rewrite H0. simpl.
    rewrite (IH fuel (S retries)); simpl; [| lia | |].
    + do 2 f_equal; [lia|]. rewrite waits_S, <- app_assoc. done.
    + intros k Hk. rewrite <- Nat.add_succ_r. apply Hrate. lia.
    + by rewrite <- Nat.add_succ_r.
Qed.

(** When the callee raises the HTTPError of a 429 answer every time, the
    loop gives up with the empty text after [fuel] calls and sleeps. *)
Lemma call_llm_loop_exhausted (fuel : nat) :
  forall retries w,
    (forall k, k < fuel ->
       call_llm_at (requests w + k) = Raise (HTTPError (Some 429))) ->
    call_llm_loop call_llm_at fuel retries base_delay w
    = (Ok [],
       {| requests := requests w + fuel;
          sleeps := waits base_delay retries fuel ++ sleeps w |}).
Proof.
  induction fuel as [|fuel IH]; intros retries w Hrate.
  - simpl. destruct w. simpl. by rewrite Nat.add_0_r.
  - simpl. pose proof (Hrate 0 ltac:(lia)) as H0.
    rewrite Nat.add_0_r in H0. rewrite H0. simpl.
    rewrite (IH (S retries)); simpl.
    + do 2 f_equal; [lia|]. rewrite waits_S, <- app_assoc. done.
    + intros k Hk. rewrite <- Nat.add_succ_r. apply Hrate. lia.
Qed.
End WrapperFacts.

Section RetryFacts.
Variable configured : bool.
Variable service : nat -> reply.

(** [call_llm] turns every exception of requests into a RuntimeError, so
    no HTTPError leaves it. *)
Lemma call_llm_no_http_error (r : reply) (response : option nat) :
  call_llm configured r ≠ Raise (HTTPError response).
Proof.
  unfold call_llm. destruct configured; simpl; [|discriminate].
  unfold try_except.
  match goal with |- context [match ?b with Ok a => _ | Raise e => _ end] =>
    destruct b as [a|e] end; [discriminate|].
  destruct e; simpl; discriminate.
Qed.

(** Whatever the service answers, the wrapper around [call_llm] sends one
    request, never sleeps and returns a text. *)
Lemma call_llm_single_one_request (max_retries base_delay : nat) (w : world) :
  0 < max_retries ->
  exists text,
    call_llm_single configured service max_retries base_delay w
    = (Ok text, {| requests := S (requests w); sleeps := sleeps w |}).
Proof.
  intros Hpos. destruct max_retries as [|n]; [lia|].
  unfold call_llm_single, call_llm_single_around. simpl.
  pose proof (call_llm_no_http_error (service (requests w))) as Hne.
  destruct (call_llm configured (service (requests w))) as [a|e].
  - eauto.
  - destruct e; eauto. exfalso. by eapply Hne.
Qed.
End RetryFacts.

(** C8: a service that answers every request with status 429 (rate limit).
    [call_llm] raises RuntimeError for it, which the wrapper takes for an
    ordinary failure: one request, no sleep, the empty text. *)
Theorem call_llm_single_rate_limit_not_retried (body : option json) (w : world) :
  call_llm_single true (fun _ => Reply 429 body)
    default_max_retries default_base_delay w
  = (Ok [], {| requests := S (requests w); sleeps := sleeps w |}).
Proof. reflexivity. Qed.

(** The HTTPError of a 429 answer is caught inside [call_llm] and leaves it
    as a RuntimeError. *)
Lemma call_llm_raises_runtime_error_on_429 (body : option json) :
  call_llm true (Reply 429 body) = Raise RuntimeError.
Proof. reflexivity. Qed.

(* ------------------------------------------------------------------ *)
(** ** Dicts *)
(* ------------------------------------------------------------------ *)

Section DictFacts.
Context {K V : Type} `{EqDecision K}.
Implicit Types (d : list (K * V)) (k : K) (v : V).

Lemma dict_get_set_eq d k v : dict_get k (dict_set k v d) = Some v.
Proof.
  induction d as [|[k' v'] d IH]; simpl.
  - by rewrite decide_True.
  - destruct (decide (k' = k)) as [->|Hne]; simpl.
    + by rewrite decide_True.
    + by rewrite decide_False.
Qed.

Lemma dict_get_set_ne d k k' v :
  k ≠ k' -> dict_get k' (dict_set k v d) = dict_get k' d.
Proof.
  intros Hne. induction d as [|[k0 v0] d IH]; simpl.
  - by rewrite decide_False.
  - destruct (decide (k0 = k)) as [->|Hne0]; simpl.
    + by rewrite !decide_False.
    + by rewrite IH.
Qed.

Lemma dict_get_del_ne d k k' :
  k ≠ k' -> dict_get k' (dict_del k d) = dict_get k' d.
Proof.
  intros Hne. induction d as [|[k0 v0] d IH]; simpl; [done|].
  destruct (decide (k0 = k)) as [->|Hne0]; simpl.
  - by rewrite decide_False.
  - by rewrite IH.
Qed.

Lemma dict_has_set d k k' v :
  dict_has k' (dict_set k v d) = bool_decide (k = k') || dict_has k' d.
Proof.
  unfold dict_has. destruct (decide (k = k')) as [->|Hne].
  - by rewrite dict_get_set_eq, bool_decide_eq_true_2.
  - by rewrite dict_get_set_ne, bool_decide_eq_false_2.
Qed.

Lemma dict_set_keys_present d k v :
  dict_has k d = true -> (dict_set k v d).*1 = d.*1.
Proof.
  unfold dict_has. induction d as [|[k0 v0] d IH]; simpl; [done|].
  destruct (decide (k0 = k)) as [->|Hne]; csimpl; [done|].
  intros Hd. f_equal. by apply IH.
Qed.

Lemma dict_set_keys_absent d k v :
  dict_has k d = false -> (dict_set k v d).*1 = d.*1 ++ [k].
Proof.
  unfold dict_has. induction d as [|[k0 v0] d IH]; simpl; [done|].
  destruct (decide (k0 = k)) as [->|Hne]; csimpl; [done|].
  intros Hd. f_equal. by apply IH.
Qed.

Lemma dict_has_elem_of d k : dict_has k d = true <-> k ∈ d.*1.
Proof.
  unfold dict_has. induction d as [|[k0 v0] d IH]; simpl.
  - split; [done|]. by intros ?%elem_of_nil.
  - destruct (decide (k0 = k)) as [->|Hne].
    + split; [left|done].
    + rewrite IH, elem_of_cons. split; [by right|].
      by intros [->|?].
Qed.
End DictFacts.

(* ------------------------------------------------------------------ *)
(** ** parse_erd_json *)
(* ------------------------------------------------------------------ *)

Lemma bind_Ok {A B : Type} (m : result A) (f : A -> result B) (b : B) :
  (x ← m; f x) = Ok b -> exists a, m = Ok a /\ f a = Ok b.
Proof. destruct m as [a|e]; simpl; [eauto|discriminate]. Qed.

Ltac bind_inv H :=
  let a := fresh "a" in
  let Ha := fresh "Ha" in
  apply bind_Ok in H; destruct H as (a & Ha & H).

Lemma py_get_Ok_dict (v : json) (k : string) (dflt r : json) :
  py_get v k dflt = Ok r -> exists d, v = JObj d.
Proof. destruct v; simpl; try discriminate. eauto. Qed.

(** C10: whatever the decoder does and whatever the text is, parse_erd_json
    returns without an exception, either None or a dict that has the keys
    "nodes" and "edges". *)
Theorem parse_erd_json_total (json_loads : str -> result json) (response : str) :
  parse_erd_json json_loads response = Ok None
  \/ exists d, parse_erd_json json_loads response = Ok (Some (JObj d))
            /\ dict_has (txt "nodes") d = true
            /\ dict_has (txt "edges") d = true.
Proof.
  unfold parse_erd_json, try_except.
  destruct (parse_erd_json_body json_loads response) as [parsed|e] eqn:Hbody;
    simpl; [right|by left].
  unfold parse_erd_json_body in Hbody.
  destruct (search json_object_re response) as [[[a b] ms]|]; [|discriminate].
  bind_inv Hbody. rename a0 into parsed0.
  bind_inv Hbody. rename a0 into nodes0.
  bind_inv Hbody. rename a0 into parsed1.
  bind_inv Hbody. rename a0 into has_nodes.
  bind_inv Hbody. rename a0 into has_edges.
  destruct has_nodes, has_edges; simpl in Hbody; try discriminate.
  bind_inv Hbody. bind_inv Hbody. bind_inv Hbody.
  assert (exists d1, parsed1 = JObj d1) as [d1 ->].
  { destruct (py_get_Ok_dict _ _ _ _ Ha0) as [d0 ->].
    destruct nodes0; simplify_eq; eauto.
    bind_inv Ha1. simpl in Ha1.
    repeat case_match; simplify_eq; eauto. }
  simpl in Ha2, Ha3. simplify_eq.
  destruct a0; simplify_eq; eexists; (split; [reflexivity|]); auto.
  rewrite !dict_has_set, Ha2, Ha3. by rewrite !orb_true_r.
Qed.

(* ------------------------------------------------------------------ *)
(** ** normalize_erd_node *)
(* ------------------------------------------------------------------ *)

Lemma map_result_Ok_map {A B : Type} (f : A -> result B) (g : B -> json)
    (h : A -> json) (l : list A) (l' : list B) :
  (forall x y, f x = Ok y -> g y = h x) ->
  map_result f l = Ok l' -> map g l' = map h l.
Proof.
  intros Hfg. revert l'. induction l as [|x l IH]; intros l' Hl; simpl in Hl.
  - by simplify_eq.
  - bind_inv Hl. bind_inv Hl. simplify_eq. simpl.
    f_equal; [by apply Hfg|by apply IH].
Qed.

Lemma normalize_erd_col_name (col col' : json) :
  normalize_erd_col col = Ok col' -> col_name col' = col_name col.
Proof.
  intros Hc. unfold normalize_erd_col in Hc.
  destruct col; simpl in Hc; try discriminate.
  by simplify_eq.
Qed.

(** C9, as the code has it: the normalized node has one column for each
    column it read from the decoded node ("columns", else "data"), with the
    same names in the same order; so its names are pairwise distinct
    whenever the names of the decoded columns are. *)
Theorem normalize_erd_node_column_names (node node' : json) :
  normalize_erd_node node = Ok node' ->
  exists cols,
    py_iter (source_columns node) = Ok cols
    /\ column_names node' = map col_name cols
    /\ (NoDup (map col_name cols) -> NoDup (column_names node')).
Proof.
  intros Hn. destruct node as [| | | | | |d]; simpl in Hn; try discriminate.
  bind_inv Hn. rename a into cols. bind_inv Hn. rename a into ncols.
  assert (Hne1 : txt "type" ≠ txt "columns") by discriminate.
  assert (Hne2 : txt "type" ≠ txt "data") by discriminate.
  do 2 (rewrite dict_get_set_ne in Ha by done).
  exists cols. split; [exact Ha|].
  assert (column_names node' = map col_name cols) as Heq.
  { simplify_eq. unfold column_names.
    set (d1 := dict_set (txt "columns") _ _).
    assert (dict_get (txt "columns") d1 = Some (JArr ncols)) as Hget
      by apply dict_get_set_eq.
    assert (dict_get (txt "columns")
              (if dict_has (txt "data") d1 then dict_del (txt "data") d1
               else d1) = Some (JArr ncols)) as ->.
    { destruct (dict_has (txt "data") d1); [|done].
      by rewrite dict_get_del_ne. }
    eapply map_result_Ok_map; [|exact Ha0].
    apply normalize_erd_col_name. }
  split; [done|]. by rewrite Heq.
Qed.

Lemma normalize_erd_node_column_names_witness :
  exists cols,
    py_iter (source_columns dup_node) = Ok cols
    /\ column_names (JObj [(txt "id", JStr (txt "T"));
                           (txt "columns",
                            JArr [JObj [(txt "name", JStr (txt "a"));
                                        (txt "type", JNull);
                                        (txt "isPrimaryKey", JBool false);
                                        (txt "isForeignKey", JBool false);
                                        (txt "nullable", JBool false)];
                                  JObj [(txt "name", JStr (txt "a"));
                                        (txt "type", JNull);
                                        (txt "isPrimaryKey", JBool false);
                                        (txt "isForeignKey", JBool false);
                                        (txt "nullable", JBool false)]]);
                           (txt "type", JStr (txt "table"))])
       = map col_name cols
    /\ (NoDup (map col_name cols) -> NoDup (map col_name cols)).
Proof.
  destruct (normalize_erd_node_column_names dup_node _ eq_refl)
    as (cols & H1 & H2 & _).
  exists cols. split; [exact H1|]. split; [exact H2|]. auto.
Defined.

(** C9, as stated, fails: the answer [dup_text] is decoded, repaired and
    normalized into a node whose two columns are both named "a". *)
Lemma columns_with_the_same_name :
  ~ (forall n, n ∈ (collect_erd dup_loads [dup_text]).1 ->
               NoDup (column_names n)).
Proof.
  intros Hall.
  assert (exists n, (collect_erd dup_loads [dup_text]).1 = [n]
                    /\ column_names n = [JStr (txt "a"); JStr (txt "a")])
    as (n & Hn & Hc).
  { eexists. split; vm_compute; reflexivity. }
  specialize (Hall n). rewrite Hn, Hc in Hall.
  specialize (Hall (list_elem_of_here _ _)).
  apply NoDup_cons in Hall as [Hin _]. apply Hin. left.
Qed.

(* ------------------------------------------------------------------ *)
(** ** The final merge *)
(* ------------------------------------------------------------------ *)

Section FirstWins.
Context {A K : Type} `{EqDecision K} (key : A -> K).

Lemma first_wins_subset (l : list A) (x : A) :
  x ∈ first_wins key l -> x ∈ l.
Proof.
  induction l as [|y l IH]; simpl; [done|].
  rewrite !elem_of_cons, list_elem_of_filter. intros [->|[_ Hx]]; auto.
Qed.

Lemma first_wins_keys (l : list A) (k : K) :
  k ∈ map key (first_wins key l) <-> k ∈ map key l.
Proof.
  induction l as [|y l IH]; simpl; [done|].
  rewrite !elem_of_cons, <- IH. rewrite !list_elem_of_fmap.
  split.
  - intros [->|(x & -> & Hx)]; [by left|].
    apply list_elem_of_filter in Hx as [_ Hx]. right. eauto.
  - intros [->|(x & -> & Hx)]; [by left|].
    destruct (decide (key x = key y)) as [Heq|Hne]; [by left|].
    right. exists x. split; [done|]. by apply list_elem_of_filter.
Qed.

(** The items of [first_wins] have pairwise distinct keys. *)
Lemma first_wins_NoDup (l : list A) : NoDup (map key (first_wins key l)).
Proof.
  induction l as [|y l IH]; simpl; [constructor|].
  constructor.
  - rewrite list_elem_of_fmap. intros (x & Hk & Hx).
    apply list_elem_of_filter in Hx as [Hne _]. by apply Hne.
  - eapply sublist_NoDup; [exact IH|].
    apply fmap_sublist, sublist_filter.
Qed.

(** The loop view of [first_wins]: an item added at the end is kept when
    its key is new. *)
Lemma first_wins_snoc (l : list A) (x : A) :
  first_wins key (l ++ [x])
  = if decide (key x ∈ map key l) then first_wins key l
    else first_wins key l ++ [x].
Proof.
  induction l as [|y l IH]; simpl.
  - done.
  - rewrite IH. destruct (decide (key x ∈ map key l)) as [Hin|Hnin].
    + rewrite decide_True; [done|]. by apply list_elem_of_further.
    + rewrite filter_app, filter_cons, filter_nil.
      destruct (decide (key x = key y)) as [Heq|Hne].
      * rewrite (decide_True (P := key x ∈ _))
          by (rewrite Heq; apply list_elem_of_here).
        rewrite (decide_False (P := key x ≠ key y))
          by (intros Hn; by apply Hn).
        by rewrite app_nil_r.
      * rewrite (decide_True (P := key x ≠ key y)) by done.
        rewrite (decide_False (P := key x ∈ _)); [done|].
        intros [?|?]%elem_of_cons; done.
Qed.

Lemma first_wins_id (l : list A) : NoDup (map key l) -> first_wins key l = l.
Proof.
  induction l as [|y l IH]; simpl; [done|].
  intros [Hy Hl]%NoDup_cons. rewrite IH by done. f_equal.
  clear IH Hl. induction l as [|x l IH]; [done|].
  rewrite filter_cons. simpl in Hy. apply not_elem_of_cons in Hy as [Hx Hy].
  rewrite decide_True by done. f_equal. by apply IH.
Qed.

Lemma last_with_key_snoc (l : list A) (x : A) (k : K) :
  last_with_key key k (l ++ [x])
  = if decide (key x = k) then Some x else last_with_key key k l.
Proof.
  unfold last_with_key. rewrite filter_app, filter_cons, filter_nil.
  case_decide; [by rewrite last_snoc|by rewrite app_nil_r].
Qed.
End FirstWins.

Lemma fold_result_app {A B : Type} (f : A -> B -> result A) (a : A)
    (l1 l2 : list B) :
  fold_result f a (l1 ++ l2) = (a' ← fold_result f a l1; fold_result f a' l2).
Proof.
  revert a. induction l1 as [|x l1 IH]; intros a; simpl; [done|].
  destruct (f a x) as [a'|e]; simpl; [apply IH|done].
Qed.

Lemma key_of_Ok {A K : Type} (dflt : K) (f : A -> result K) (x : A) :
  is_ok (f x) -> f x = Ok (key_of dflt f x).
Proof. unfold key_of. by destruct (f x). Qed.

Lemma py_key_hashable (v : json) :
  is_ok (py_key v) <-> is_hashable v.
Proof. by destruct v. Qed.

Lemma node_key_has_id (n : json) : is_ok (node_key n) <-> has_id n.
Proof.
  unfold node_key, has_id, py_item. split.
  - destruct n as [| | | | | |d]; try done.
    destruct (dict_get (txt "id") d) as [id|] eqn:Hid; [|done]. simpl.
    intros Hok%py_key_hashable. by exists d, id.
  - intros (d & id & -> & -> & Hid). simpl. by apply py_key_hashable.
Qed.

Lemma field_key_get (k : string) (d : list (str * json)) :
  (forall v, dict_get (txt k) d = Some v -> is_hashable v) ->
  py_key (default JNull (dict_get (txt k) d)) = Ok (field_key k (JObj d)).
Proof.
  intros Hk. unfold field_key.
  destruct (dict_get (txt k) d) as [v|]; [|done]. simpl.
  apply (key_of_Ok HNone). by apply py_key_hashable, Hk.
Qed.

Lemma field_key_hashable (k : string) (d : list (str * json)) :
  is_ok (py_key (default JNull (dict_get (txt k) d))) ->
  forall v, dict_get (txt k) d = Some v -> is_hashable v.
Proof. intros Hok v Hv. rewrite Hv in Hok. by apply py_key_hashable. Qed.

(** The key that the code computes for an edge is the key of its three
    fields. *)
Lemma edge_key_keyed (e : json) : is_ok (edge_key e) <-> keyed_edge e.
Proof.
  unfold edge_key, keyed_edge, py_get. split.
  - destruct e as [| | | | | |d]; try done. simpl. intros Hok.
    exists d. split; [done|].
    destruct (py_key (default JNull (dict_get (txt "source") d)))
      as [ks|] eqn:Hs; [|done].
    destruct (py_key (default JNull (dict_get (txt "target") d)))
      as [kt|] eqn:Ht; [|done].
    destruct (py_key (default JNull (dict_get (txt "label") d)))
      as [kl|] eqn:Hl; [|done].
    repeat constructor; apply field_key_hashable.
    + by rewrite Hs.
    + by rewrite Ht.
    + by rewrite Hl.
  - intros (d & -> & Hall). simpl.
    apply Forall_cons in Hall as [Hs Hall].
    apply Forall_cons in Hall as [Ht Hall].
    apply Forall_cons in Hall as [Hl _].
    by rewrite !field_key_get.
Qed.

Lemma edge_key_Ok (e : json) :
  is_ok (edge_key e) -> edge_key e = Ok (edge_key_of e).
Proof.
  intros (d & -> & Hall)%edge_key_keyed. unfold edge_key, py_get. simpl.
  apply Forall_cons in Hall as [Hs Hall].
  apply Forall_cons in Hall as [Ht Hall].
  apply Forall_cons in Hall as [Hl _].
  by rewrite !field_key_get.
Qed.

Lemma dict_get_NoDup {K V : Type} `{EqDecision K} (d : list (K * V))
    (k : K) (v : V) :
  NoDup d.*1 -> (k, v) ∈ d -> dict_get k d = Some v.
Proof.
  induction d as [|[k0 v0] d IH]; csimpl; intros Hnd Hin.
  - by apply elem_of_nil in Hin.
  - apply NoDup_cons in Hnd as [Hk0 Hnd].
    apply elem_of_cons in Hin as [Heq|Hin].
    + simplify_eq. by rewrite decide_True.
    + rewrite decide_False; [by apply IH|].
      intros ->. apply Hk0. apply list_elem_of_fmap. by exists (k, v).
Qed.

Lemma dict_set_Forall {K V : Type} `{EqDecision K} (P : K * V -> Prop)
    (d : list (K * V)) (k : K) (v : V) :
  P (k, v) -> Forall P d -> Forall P (dict_set k v d).
Proof.
  intros Hkv. induction 1 as [|[k0 v0] d H0 Hd IH]; simpl.
  - by constructor.
  - destruct (decide (k0 = k)) as [->|Hne]; by constructor.
Qed.

(** The dict built from the nodes: its keys are the ids in the order of
    their first occurrence, and each id holds the last node that has it. *)
Lemma unique_nodes_fold (all_nodes : list json) :
  Forall (fun n => is_ok (node_key n)) all_nodes ->
  exists d,
    fold_result unique_nodes_step [] all_nodes = Ok d
    /\ d.*1 = map node_key_of (first_wins node_key_of all_nodes)
    /\ (forall k, dict_get k d = last_with_key node_key_of k all_nodes)
    /\ Forall (fun kn => node_key_of kn.2 = kn.1) d.
Proof.
  induction all_nodes as [|x l IH] using rev_ind; intros Hok.
  - exists []. repeat split; auto.
  - apply Forall_app in Hok as [Hl Hx]. rewrite Forall_singleton in Hx.
    destruct (IH Hl) as (d & Hd & Hkeys & Hget & Hall).
    rewrite fold_result_app, Hd. simpl.
    assert (unique_nodes_step d x = Ok (dict_set (node_key_of x) x d)) as ->.
    { unfold unique_nodes_step. apply (key_of_Ok HNone) in Hx.
      fold node_key_of in Hx. unfold node_key in Hx.
      destruct (py_item x "id") as [i|]; simpl in *; [|done].
      by rewrite Hx. }
    simpl. eexists. split; [done|].
    split; [|split].
    + rewrite first_wins_snoc.
      destruct (decide (node_key_of x ∈ map node_key_of l)) as [Hin|Hnin].
      * rewrite dict_set_keys_present; [done|].
        apply dict_has_elem_of. rewrite Hkeys. by apply first_wins_keys.
      * rewrite dict_set_keys_absent.
        { by rewrite Hkeys, map_app. }
        apply not_true_is_false. rewrite dict_has_elem_of, Hkeys.
        by rewrite first_wins_keys.
    + intros k. rewrite last_with_key_snoc.
      destruct (decide (node_key_of x = k)) as [<-|Hne].
      * apply dict_get_set_eq.
      * by rewrite dict_get_set_ne.
    + by apply dict_set_Forall.
Qed.

(** The loop over the edges keeps the first edge of every key. *)
Lemma unique_edges_fold (all_edges : list json) :
  Forall (fun e => is_ok (edge_key e)) all_edges ->
  exists seen,
    fold_result unique_edges_step ([], []) all_edges
    = Ok (seen, first_wins edge_key_of all_edges)
    /\ (forall k, k ∈ seen <-> k ∈ map edge_key_of all_edges).
Proof.
  induction all_edges as [|x l IH] using rev_ind; intros Hok.
  - exists []. split; [done|]. done.
  - apply Forall_app in Hok as [Hl Hx]. rewrite Forall_singleton in Hx.
    destruct (IH Hl) as (seen & Hfold & Hseen).
    rewrite fold_result_app, Hfold. simpl.
    apply edge_key_Ok in Hx.
    unfold unique_edges_step. rewrite Hx. simpl.
    rewrite first_wins_snoc, map_app. simpl.
    destruct (decide (edge_key_of x ∈ map edge_key_of l)) as [Hin|Hnin].
    + rewrite bool_decide_eq_true_2 by (by apply Hseen).
      exists seen. split; [done|]. intros k. rewrite elem_of_app, Hseen.
      split; [by left|]. intros [?|Hk]; [done|].
      apply list_elem_of_singleton in Hk. by subst.
    + rewrite bool_decide_eq_false_2 by (by rewrite Hseen).
      eexists. split; [done|]. intros k.
      rewrite elem_of_cons, elem_of_app, list_elem_of_singleton, Hseen.
      tauto.
Qed.

(** C3, as the code has it: the merge of the nodes and edges of the
    chunks, when every node is a dict with an "id" that can be a key and
    every edge a dict whose "source", "target" and "label" can be members
    of a set.  The ids of the merged nodes are the ids met, each once, in
    the order of their first occurrence; each merged node is the last node
    with its id; the merged edges are the first edge of every key (the
    fields source, target and label), in their order; and when the ids of
    all nodes are pairwise distinct, any other order of the chunks gives
    the same set of nodes. *)
Theorem merge_erd_dedup (chunks : list (list json * list json)) :
  let all_nodes := concat chunks.*1 in
  let all_edges := concat chunks.*2 in
  Forall has_id all_nodes ->
  Forall keyed_edge all_edges ->
  exists nodes edges,
    merge_erd all_nodes all_edges = Ok (nodes, edges)
    /\ map node_key_of nodes
       = map node_key_of (first_wins node_key_of all_nodes)
    /\ NoDup (map node_key_of nodes)
    /\ (forall n, n ∈ nodes ->
          last_with_key node_key_of (node_key_of n) all_nodes = Some n)
    /\ edges = first_wins edge_key_of all_edges
    /\ (NoDup (map node_key_of all_nodes) ->
        forall chunks', chunks' ≡ₚ chunks ->
          exists nodes' edges',
            merge_erd (concat chunks'.*1) (concat chunks'.*2)
            = Ok (nodes', edges')
            /\ nodes' ≡ₚ nodes).
Proof.
  intros all_nodes all_edges Hids Hkeyed.
  assert (Forall (fun n => is_ok (node_key n)) all_nodes) as Hn.
  { eapply Forall_impl; [exact Hids|]. intros n. apply node_key_has_id. }
  assert (Forall (fun e => is_ok (edge_key e)) all_edges) as He.
  { eapply Forall_impl; [exact Hkeyed|]. intros e. apply edge_key_keyed. }
  destruct (unique_nodes_fold all_nodes Hn) as (d & Hd & Hkeys & Hget & Hall).
  destruct (unique_edges_fold all_edges He) as (seen & Hfold & _).
  assert (Hmk : map node_key_of d.*2 = d.*1).
  { clear -Hall. induction Hall as [|[k n] d Hkn _ IH]; csimpl; [done|].
    simpl in Hkn. by rewrite Hkn, IH. }
  exists d.*2, (first_wins edge_key_of all_edges).
  split; [|split; [|split; [|split; [|split]]]].
  - unfold merge_erd. by rewrite Hd, Hfold.
  - by rewrite Hmk.
  - rewrite Hmk, Hkeys. apply first_wins_NoDup.
  - intros n Hin. rewrite <- Hget.
    apply list_elem_of_fmap in Hin as ([k n'] & -> & Hin). simpl.
    rewrite Forall_forall in Hall. specialize (Hall _ Hin). simpl in Hall.
    rewrite Hall.
    apply dict_get_NoDup; [|done]. rewrite Hkeys. apply first_wins_NoDup.
  - done.
  - intros Hnd chunks' Hperm.
    assert (Hpn : concat chunks'.*1 ≡ₚ all_nodes).
    { unfold all_nodes. by rewrite Hperm. }
    assert (Hpe : concat chunks'.*2 ≡ₚ all_edges).
    { unfold all_edges. by rewrite Hperm. }
    assert (Hn' : Forall (fun n => is_ok (node_key n)) (concat chunks'.*1))
      by (by rewrite Hpn).
    assert (He' : Forall (fun e => is_ok (edge_key e)) (concat chunks'.*2))
      by (by rewrite Hpe).
    destruct (unique_nodes_fold _ Hn') as (d' & Hd' & Hkeys' & _ & Hall').
    destruct (unique_edges_fold _ He') as (seen' & Hfold' & _).
    exists d'.*2, (first_wins edge_key_of (concat chunks'.*2)).
    split; [unfold merge_erd; by rewrite Hd', Hfold'|].
    assert (Hnd' : NoDup (map node_key_of (concat chunks'.*1)))
      by (by rewrite Hpn).
    (* with distinct ids nothing is overwritten: the dict holds the nodes *)
    assert (forall l dl,
               fold_result unique_nodes_step [] l = Ok dl ->
               Forall (fun n => is_ok (node_key n)) l ->
               NoDup (map node_key_of l) -> dl.*2 = l) as Hsame.
    { clear. intros l. induction l as [|x l IH] using rev_ind;
        intros dl Hdl Hok Hnd.
      - simpl in Hdl. by simplify_eq.
      - apply Forall_app in Hok as [Hl Hx]. rewrite Forall_singleton in Hx.
        rewrite map_app in Hnd. apply NoDup_app in Hnd as (Hndl & Hx' & _).
        destruct (unique_nodes_fold l Hl) as (d & Hd & Hkeys & _).
        rewrite fold_result_app, Hd in Hdl. simpl in Hdl.
        unfold unique_nodes_step in Hdl.
        apply (key_of_Ok HNone) in Hx. fold node_key_of in Hx.
        unfold node_key in Hx.
        destruct (py_item x "id") as [i|]; simpl in *; [|done].
        rewrite Hx in Hdl. simpl in Hdl. simplify_eq.
        assert (dict_has (node_key_of x) d = false) as Hnew.
        { apply not_true_is_false. rewrite dict_has_elem_of, Hkeys.
          rewrite first_wins_keys. intros Hin. apply (Hx' _ Hin). left. }
        rewrite <- (IH d Hd Hl Hndl). clear -Hnew.
        induction d as [|[k0 v0] d IHd]; csimpl; [done|].
        unfold dict_has in Hnew. simpl in Hnew.
        destruct (decide (k0 = node_key_of x)); [done|].
        csimpl. f_equal. by apply IHd. }
    rewrite (Hsame _ _ Hd' Hn' Hnd'), (Hsame _ _ Hd Hn Hnd). done.
Qed.

Lemma merge_erd_dedup_witness :
  exists nodes edges,
    merge_erd (concat sample_chunks.*1) (concat sample_chunks.*2)
    = Ok (nodes, edges)
    /\ nodes = [sample_node "A" "second"; sample_node "B" "b"]
    /\ edges = [sample_edge "A" "B" "fk" "DeptID"]
    /\ map node_key_of nodes
       = map node_key_of
           (first_wins node_key_of (concat sample_chunks.*1)).
Proof.
  destruct (merge_erd_dedup sample_chunks)
    as (nodes & edges & Hm & Hk & _ & _ & He & _).
  - repeat constructor; by eexists _, _.
  - repeat constructor; eexists; (split; [reflexivity|]);
      repeat constructor; intros v [= <-]; exact I.
  - exists nodes, edges. split; [exact Hm|].
    vm_compute in Hm. injection Hm as <- <-.
    split; [reflexivity|]. split; [reflexivity|]. exact Hk.
Defined.

(** C3, as stated, fails: a sequence need not be mergeable.  The answer
    [noid_text] is decoded, repaired and normalized into a node without
    "id"; the merge raises KeyError on it, and the whole request fails. *)
Lemma merge_erd_raises_without_id :
  let node := JObj [(txt "label", JStr (txt "T"));
                    (txt "type", JStr (txt "table"));
                    (txt "columns", JArr [])] in
  collect_erd noid_loads [noid_text] = ([node], [])
  /\ ~ has_id node
  /\ merge_erd [node] [] = Raise KeyError
  /\ suggest_schema_improvements noid_loads true noid_service
       (Ok [notes_row]) {| requests := 0; sleeps := [] |}
     = (Failure (Some KeyError), {| requests := 3; sleeps := [] |}).
Proof.
  split; [vm_compute; reflexivity|].
  split; [|split; vm_compute; reflexivity].
  intros (d & id & [= <-] & Hid & _). discriminate Hid.
Qed.

(* ------------------------------------------------------------------ *)
(** ** The length of the character types *)
(* ------------------------------------------------------------------ *)

(** The failing input of C2: the row [notes_row] is of type NVARCHAR with
    the non-positive max_length -1, and its length is written 1, not 255:
    the code takes the absolute value before it tests [> 0]. *)
Lemma negative_length_is_not_255 :
  is_varchar (default (txt "VARCHAR") (data_type notes_row)) = true
  /\ (default 0 (max_length notes_row) <= 0)%Z
  /\ build_schema_text [notes_row]
     = txt "CREATE TABLE [T] (" ++ ["010"%char]
       ++ txt "  [Notes] NVARCHAR(1) NULL" ++ ["010"%char] ++ txt ");"
  /\ build_schema_text [notes_row]
     ≠ txt "CREATE TABLE [T] (" ++ ["010"%char]
       ++ txt "  [Notes] NVARCHAR(255) NULL" ++ ["010"%char] ++ txt ");".
Proof.
  split; [reflexivity|]. split; [simpl; lia|].
  split; [vm_compute; reflexivity|]. vm_compute. discriminate.
Qed.

(* ------------------------------------------------------------------ *)
(** ** resolve_chunk_tables *)
(* ------------------------------------------------------------------ *)

Section Closure.
Variable graph : gmap str (gset str).

Lemma resolve_chunk_tables_unfold (depth : nat) (table : str)
    (visited : gset str) :
  resolve_chunk_tables (S depth) graph table (Some visited)
  = if decide (table ∈ visited) then Some visited
    else visit_targets graph depth (Some ({[table]} ∪ visited))
           (elements (default ∅ (graph !! table))).
Proof. reflexivity. Qed.

Lemma visit_targets_None (depth : nat) (targets : list str) :
  visit_targets graph depth None targets = None.
Proof. induction targets as [|c l IH]; [done|]. exact IH. Qed.

Lemma visit_targets_cons (depth : nat) (visited : gset str) (c : str)
    (l : list str) :
  visit_targets graph depth (Some visited) (c :: l)
  = visit_targets graph depth (resolve_chunk_tables depth graph c (Some visited)) l.
Proof. reflexivity. Qed.

(** What one call adds to [visited]. *)
Definition grows_from (table : str) (visited result : gset str) : Prop :=
  visited ⊆ result
  /\ table ∈ result
  /\ (forall x, x ∈ result -> x ∈ visited \/ reachable graph table x)
  /\ (forall u v, u ∈ result -> u ∉ visited -> fk_edge graph u v ->
                  v ∈ result).

Lemma resolve_chunk_tables_grows (depth : nat) :
  forall table visited result,
    resolve_chunk_tables depth graph table (Some visited) = Some result ->
    grows_from table visited result.
Proof.
  induction depth as [|depth IH]; intros table visited result Hres;
    [discriminate|].
  rewrite resolve_chunk_tables_unfold in Hres.
  destruct (decide (table ∈ visited)) as [Hin|Hnin].
  { simplify_eq. repeat split; auto. intros u v Hu Hnu. done. }
  (* the loop: everything true of the set before it stays true *)
  assert (forall targets v0 r,
             visit_targets graph depth (Some v0) targets = Some r ->
             v0 ⊆ r
             /\ (forall c, c ∈ targets -> c ∈ r)
             /\ (forall x, x ∈ r ->
                   x ∈ v0 \/ exists c, c ∈ targets /\ reachable graph c x)
             /\ (forall u v, u ∈ r -> u ∉ v0 -> fk_edge graph u v -> v ∈ r))
    as Hloop.
  { clear -IH. induction targets as [|c l IHl]; intros v0 r Hr.
    - simpl in Hr. simplify_eq. repeat split; auto.
      + by intros c ?%elem_of_nil.
      + done.
    - rewrite visit_targets_cons in Hr.
      destruct (resolve_chunk_tables depth graph c (Some v0)) as [v1|] eqn:Hc;
        [|by rewrite visit_targets_None in Hr].
      apply IH in Hc as (Hsub1 & Hc1 & Hsound1 & Hclosed1).
      apply IHl in Hr as (Hsub & Hin & Hsound & Hclosed).
      repeat split.
      + set_solver.
      + intros c' [->|Hc']%elem_of_cons; [set_solver|auto].
      + intros x Hx. destruct (Hsound x Hx) as [Hx1|(c' & Hc' & Hreach)].
        * destruct (Hsound1 x Hx1) as [?|?]; [by left|].
          right. exists c. split; [left|done].
        * right. exists c'. split; [by right|done].
      + intros u v Hu Hnu Hedge.
        destruct (decide (u ∈ v1)) as [Hu1|Hnu1].
        * apply Hsub. by eapply Hclosed1.
        * by eapply Hclosed. }
  apply Hloop in Hres as (Hsub & Hin & Hsound & Hclosed).
  repeat split.
  - set_solver.
  - set_solver.
  - intros x Hx. destruct (Hsound x Hx) as [Hx1|(c & Hc & Hreach)].
    + apply elem_of_union in Hx1 as [->%elem_of_singleton|?]; [|by left].
      right. apply rtc_refl.
    + right. eapply rtc_l; [|exact Hreach].
      unfold fk_edge. by apply elem_of_elements.
  - intros u v Hu Hnu Hedge.
    destruct (decide (u = table)) as [->|Hne].
    + apply Hin. by apply elem_of_elements.
    + eapply Hclosed; [done| |done]. set_solver.
Qed.

Lemma fk_edge_tables (u v : str) : fk_edge graph u v -> v ∈ tables graph.
Proof.
  unfold fk_edge, tables. intros Hv.
  destruct (graph !! u) as [s|] eqn:Hu; simpl in Hv; [|set_solver].
  apply elem_of_union_r, elem_of_union_list. exists s. split; [|done].
  apply list_elem_of_fmap. exists (u, s). split; [done|].
  by apply elem_of_map_to_list.
Qed.

(** With enough depth the traversal returns. *)
Lemma resolve_chunk_tables_returns (universe : gset str) (depth : nat) :
  (forall u v, fk_edge graph u v -> v ∈ universe) ->
  forall table visited,
    table ∈ universe ->
    size (universe ∖ visited) < depth ->
    exists result,
      resolve_chunk_tables depth graph table (Some visited) = Some result.
Proof.
  intros Hclosed. induction depth as [|depth IH];
    intros table visited Htable Hsize; [lia|].
  rewrite resolve_chunk_tables_unfold.
  destruct (decide (table ∈ visited)) as [Hin|Hnin]; [eauto|].
  assert (size (universe ∖ ({[table]} ∪ visited)) < depth) as Hsize1.
  { assert (universe ∖ ({[table]} ∪ visited) ⊂ universe ∖ visited)
      as Hlt%subset_size by set_solver.
    lia. }
  assert (forall c, c ∈ elements (default ∅ (graph !! table)) -> c ∈ universe)
    as Htargets.
  { intros c Hc%elem_of_elements. by eapply Hclosed. }
  revert Hsize1 Htargets.
  generalize ({[table]} ∪ visited) as v0.
  generalize (elements (default ∅ (graph !! table))) as targets.
  induction targets as [|c l IHl]; intros v0 Hsize1 Htargets; [simpl; eauto|].
  rewrite visit_targets_cons.
  destruct (IH c v0) as [v1 Hv1]; [apply Htargets; left|done|].
  rewrite Hv1. apply IHl.
  - apply resolve_chunk_tables_grows in Hv1 as (Hsub & _).
    assert (universe ∖ v1 ⊆ universe ∖ v0) as Hle%subseteq_size by set_solver.
    lia.
  - intros c' Hc'. apply Htargets. by right.
Qed.
End Closure.

(** C4: for every graph and start table, with a recursion depth above the
    number of tables, resolve_chunk_tables returns, and the set it returns
    holds exactly the tables reachable from the start along foreign-key
    edges, the start included; on the cycle A -> B -> C -> A it returns
    {A, B, C}. *)
Theorem resolve_chunk_tables_reachable :
  (forall (graph : gmap str (gset str)) (table : str) (depth : nat),
      size (tables graph) + 1 < depth ->
      exists result,
        resolve_chunk_tables depth graph table None = Some result
        /\ table ∈ result
        /\ forall x, x ∈ result <-> reachable graph table x)
  /\ resolve_chunk_tables 1000 cycle_graph (txt "A") None
     = Some {[ txt "A"; txt "B"; txt "C" ]}.
Proof.
  split; [|vm_compute; reflexivity].
  intros graph table depth Hdepth.
  destruct depth as [|depth]; [lia|].
  destruct (resolve_chunk_tables_returns graph ({[table]} ∪ tables graph)
              (S depth)) with (table := table) (visited := (∅ : gset str))
    as [result Hres].
  - intros u v Huv. apply elem_of_union_r. by eapply fk_edge_tables.
  - set_solver.
  - assert (size (({[table]} ∪ tables graph) ∖ ∅)
            <= size ({[table]} : gset str) + size (tables graph)).
    { etrans; [apply subseteq_size with (Y := {[table]} ∪ tables graph);
               set_solver|].
      rewrite size_union_alt.
      assert (size (tables graph ∖ {[table]}) <= size (tables graph))
        by (apply subseteq_size; set_solver).
      lia. }
    rewrite size_singleton in *. lia.
  - exists result. split; [exact Hres|].
    apply resolve_chunk_tables_grows in Hres as (_ & Hin & Hsound & Hclosed).
    split; [done|]. intros x. split.
    + intros Hx. destruct (Hsound x Hx) as [?|?]; [set_solver|done].
    + intros Hr. eapply (rtc_ind_r (fun y => y ∈ result)); [exact Hin| |exact Hr].
      intros u v _ Huv IH. eapply Hclosed; [exact IH|set_solver|done].
Qed.

Lemma resolve_chunk_tables_reachable_witness :
  exists result,
    resolve_chunk_tables 10 cycle_graph (txt "A") None = Some result
    /\ txt "A" ∈ result
    /\ forall x, x ∈ result <-> reachable cycle_graph (txt "A") x.
Proof.
  apply (proj1 resolve_chunk_tables_reachable). vm_compute. lia.
Defined.

(* ------------------------------------------------------------------ *)
(** ** The matcher *)
(* ------------------------------------------------------------------ *)

Section MatcherFacts.
Context {R : Type}.
Implicit Types (p : ascii -> bool) (k : nat -> str -> option R).

(** A successful repetition: some run of [p] was taken, and the rest of the
    pattern matched after it. *)
Lemma star_greedy_inv p k i s x :
  star_greedy p k i s = Some x ->
  exists n, n <= length s /\ Forall (fun c => p c = true) (firstn n s)
            /\ k (i + n) (skipn n s) = Some x.
Proof.
  revert i. induction s as [|c s IH]; intros i Hs; simpl in Hs.
  - exists 0. rewrite Nat.add_0_r. simpl.
    split; [lia|]. split; [constructor|done].
  - destruct (p c) eqn:Hc.
    + destruct (star_greedy p k (S i) s) as [y|] eqn:Hrec.
      * simplify_eq. destruct (IH _ Hrec) as (n & Hn & Hall & Hk).
        exists (S n). simpl. split; [lia|]. split; [by constructor|].
        by rewrite <- Nat.add_succ_comm.
      * exists 0. rewrite Nat.add_0_r. simpl.
        split; [lia|]. split; [constructor|done].
    + exists 0. rewrite Nat.add_0_r. simpl.
      split; [lia|]. split; [constructor|done].
Qed.

Lemma star_lazy_inv p k i s x :
  star_lazy p k i s = Some x ->
  exists n, n <= length s /\ Forall (fun c => p c = true) (firstn n s)
            /\ k (i + n) (skipn n s) = Some x
            /\ forall m, m < n -> k (i + m) (skipn m s) = None.
Proof.
  revert i. induction s as [|c s IH]; intros i Hs; simpl in Hs.
  - destruct (k i []) eqn:Hk; [|done]. simplify_eq.
    exists 0. rewrite Nat.add_0_r. simpl.
    split; [lia|]. split; [constructor|]. split; [done|]. intros; lia.
  - destruct (k i (c :: s)) as [y|] eqn:Hk.
    + simplify_eq. exists 0. rewrite Nat.add_0_r. simpl.
      split; [lia|]. split; [constructor|]. split; [done|]. intros; lia.
    + destruct (p c) eqn:Hc; [|done].
      destruct (IH _ Hs) as (n & Hn & Hall & Hkn & Hmin).
      exists (S n). simpl. split; [lia|]. split; [by constructor|].
      split; [by rewrite <- Nat.add_succ_comm|].
      intros [|m] Hm; [by rewrite Nat.add_0_r|].
      simpl. rewrite <- Nat.add_succ_comm. apply Hmin. lia.
Qed.

(** Nothing matches after a repetition when the rest fails everywhere. *)
Lemma star_greedy_None p k i s :
  (forall n, n <= length s -> k (i + n) (skipn n s) = None) ->
  star_greedy p k i s = None.
Proof.
  revert i. induction s as [|c s IH]; intros i Hk; simpl.
  - specialize (Hk 0). rewrite Nat.add_0_r in Hk. by apply Hk.
  - assert (k i (c :: s) = None) as H0.
    { specialize (Hk 0). rewrite Nat.add_0_r in Hk. apply Hk. lia. }
    destruct (p c); [|done]. rewrite IH; [done|].
    intros n Hn. specialize (Hk (S n)). rewrite <- Nat.add_succ_comm in Hk.
    apply Hk. simpl. lia.
Qed.

(** The greedy repetition stops at the first character outside the class
    when the rest of the pattern cannot start inside the run. *)
Lemma star_greedy_run p k i (a s : str) :
  Forall (fun c => p c = true) a ->
  match s with [] => True | c :: _ => p c = false end ->
  (forall n, n < length a -> k (i + n) (skipn n (a ++ s)) = None) ->
  star_greedy p k i (a ++ s) = k (i + length a) s.
Proof.
  revert i. induction a as [|c a IH]; intros i Ha Hs Hk; simpl.
  - rewrite Nat.add_0_r. destruct s as [|c s]; simpl; [done|]. by rewrite Hs.
  - apply Forall_cons in Ha as [Hc Ha]. rewrite Hc.
    rewrite IH; [| done | done |].
    + rewrite <- Nat.add_succ_comm.
      destruct (k (S i + length a) s) eqn:Hres; [done|].
      specialize (Hk 0). rewrite Nat.add_0_r in Hk. apply Hk. simpl. lia.
    + intros n Hn. specialize (Hk (S n)). rewrite <- Nat.add_succ_comm in Hk.
      apply Hk. simpl. lia.
Qed.
End MatcherFacts.

(** The span of a match lies in the text, and every character of it is
    accepted by an item of the pattern. *)
Lemma run_span (r : regex) :
  forall i s ms j ms',
    run r i s ms = Some (j, ms') ->
    exists n, j = i + n /\ n <= length s
              /\ Forall (fun c => accepts r c = true) (firstn n s).
Proof.
  induction r as [|a r IH]; intros i s ms j ms' Hrun.
  - simpl in Hrun. simplify_eq. exists 0. split; [lia|]. split; [lia|].
    constructor.
  - assert (forall i s ms n0,
               n0 <= length s ->
               Forall (fun c => atom_accepts a c = true) (firstn n0 s) ->
               run r (i + n0) (skipn n0 s) ms = Some (j, ms') ->
               exists n, j = i + n /\ n <= length s
                 /\ Forall (fun c => accepts (a :: r) c = true) (firstn n s))
      as Hstep.
    { clear i s ms Hrun. intros i s ms n0 Hn0 Hall Hrun.
      destruct (IH _ _ _ _ _ Hrun) as (n & -> & Hn & Hacc).
      rewrite length_skipn in Hn.
      exists (n0 + n). split; [lia|]. split; [lia|].
      rewrite <- take_take_drop. apply Forall_app. split.
      - eapply Forall_impl; [exact Hall|]. intros c Hc. simpl.
        unfold accepts. simpl. by rewrite Hc.
      - eapply Forall_impl; [exact Hacc|]. intros c Hc. simpl.
        unfold accepts in *. simpl. by rewrite Hc, orb_true_r. }
    destruct a; simpl in Hrun.
    + destruct s as [|c s]; [done|]. destruct (p c) eqn:Hc; [|done].
      apply (Hstep i (c :: s) ms 1); simpl; [lia|by repeat constructor|].
      by rewrite Nat.add_1_r.
    + destruct (Nat.eqb i 0); [|done].
      apply (Hstep i s ms 0); simpl; [lia|constructor|].
      by rewrite Nat.add_0_r.
    + destruct (at_eol s); [|done].
      apply (Hstep i s ms 0); simpl; [lia|constructor|].
      by rewrite Nat.add_0_r.
    + apply star_greedy_inv in Hrun as (n0 & Hn0 & Hall & Hk).
      by apply (Hstep i s ms n0).
    + apply star_lazy_inv in Hrun as (n0 & Hn0 & Hall & Hk & _).
      by apply (Hstep i s ms n0).
    + assert (run r i s ms = Some (j, ms') ->
              exists n, j = i + n /\ n <= length s
                /\ Forall (fun c => accepts (Opt p :: r) c = true)
                     (firstn n s)) as Hskip.
      { intros Hr. apply (Hstep i s ms 0); simpl; [lia|constructor|].
        by rewrite Nat.add_0_r. }
      destruct s as [|c s]; [by apply Hskip|].
      destruct (p c) eqn:Hc; [|by apply Hskip].
      destruct (run r (S i) s ms) as [y|] eqn:Hrec; [|by apply Hskip].
      simplify_eq.
      apply (Hstep i (c :: s) ms 1); simpl; [lia|by repeat constructor|].
      by rewrite Nat.add_1_r.
    + apply (Hstep i s (i :: ms) 0); simpl; [lia|constructor|].
      by rewrite Nat.add_0_r.
Qed.

Lemma run_bounds (r : regex) i s ms j ms' :
  run r i s ms = Some (j, ms') -> i <= j <= i + length s.
Proof. intros (n & -> & Hn & _)%run_span. lia. Qed.

(** A pattern that starts with [^] matches at position 0 only. *)
Lemma run_bol_later (r : regex) i s ms : run (Bol :: r) (S i) s ms = None.
Proof. reflexivity. Qed.

(** A pattern that ends with [$] matches up to the end of the text, or up
    to a newline that ends it. *)
Lemma run_eol (r : regex) :
  forall i s ms j ms',
    run (r ++ [Eol]) i s ms = Some (j, ms') -> at_eol (drop (j - i) s) = true.
Proof.
  induction r as [|a r IH]; intros i s ms j ms' Hrun.
  - simpl in Hrun. destruct (at_eol s) eqn:He; [|done]. simplify_eq.
    by rewrite Nat.sub_diag.
  - assert (forall n0, run (r ++ [Eol]) (i + n0) (drop n0 s) ms = Some (j, ms')
                       -> at_eol (drop (j - i) s) = true) as Hstep.
    { intros n0 Hr. pose proof (run_bounds _ _ _ _ _ _ Hr) as Hb.
      apply IH in Hr. rewrite drop_drop in Hr.
      by replace (n0 + (j - (i + n0))) with (j - i) in Hr by lia. }
    assert (forall ms0, run (r ++ [Eol]) i s ms0 = Some (j, ms')
                        -> at_eol (drop (j - i) s) = true) as Hstep0.
    { intros ms0 Hr. pose proof (run_bounds _ _ _ _ _ _ Hr) as Hb.
      by apply IH in Hr. }
    destruct a; simpl in Hrun.
    + destruct s as [|c s]; [done|]. destruct (p c); [|done].
      pose proof (run_bounds _ _ _ _ _ _ Hrun) as Hb.
      apply IH in Hrun. by replace (j - i) with (S (j - S i)) by lia.
    + destruct (Nat.eqb i 0); [|done]. by eapply Hstep0.
    + destruct (at_eol s); [|done]. by eapply Hstep0.
    + apply star_greedy_inv in Hrun as (n0 & _ & _ & Hk). by eapply Hstep.
    + apply star_lazy_inv in Hrun as (n0 & _ & _ & Hk & _). by eapply Hstep.
    + destruct s as [|c s]; [by eapply Hstep0|].
      destruct (p c); [|by eapply Hstep0].
      destruct (run (r ++ [Eol]) (S i) s ms) as [y|] eqn:Hrec;
        [|by eapply Hstep0].
      simplify_eq. pose proof (run_bounds _ _ _ _ _ _ Hrec) as Hb.
      apply IH in Hrec. by replace (j - i) with (S (j - S i)) by lia.
    + by eapply Hstep0.
Qed.

(* ------------------------------------------------------------------ *)
(** ** re.sub *)
(* ------------------------------------------------------------------ *)

Lemma sub_loop_skip (r : regex) (repl : str) :
  forall n i s,
    n <= length s ->
    sub_loop r repl i n s = sub_loop r repl (i + n) 0 (drop n s).
Proof.
  induction n as [|n IH]; intros i s Hn.
  - by rewrite Nat.add_0_r.
  - destruct s as [|c s]; simpl in Hn; [lia|].
    simpl. rewrite IH by lia. by rewrite Nat.add_succ_comm.
Qed.

(** One step of the scan at a position where the text goes on. *)
Lemma sub_loop_cons (r : regex) (repl : str) (i : nat) (c : ascii) (s : str) :
  sub_loop r repl i 0 (c :: s)
  = match run r i (c :: s) [] with
    | Some (j, _) =>
        if Nat.eqb j i then repl ++ c :: sub_loop r repl (S i) 0 s
        else repl ++ sub_loop r repl j 0 (drop (j - i) (c :: s))
    | None => c :: sub_loop r repl (S i) 0 s
    end.
Proof.
  simpl. destruct (run r i (c :: s) []) as [[j ms]|] eqn:Hrun; [|done].
  destruct (Nat.eqb j i) eqn:Hj; [done|].
  apply Nat.eqb_neq in Hj. apply run_bounds in Hrun. simpl in Hrun.
  rewrite sub_loop_skip by lia.
  replace (S i + (j - i - 1)) with j by lia.
  remember (j - i - 1) as m eqn:Hm.
  replace (j - i) with (S m) by lia. done.
Qed.

(** Where no match starts, the text is copied. *)
Lemma sub_loop_no_match (r : regex) (repl : str) (a b : str) :
  forall i,
    (forall k, k < length a -> run r (i + k) (drop k (a ++ b)) [] = None) ->
    sub_loop r repl i 0 (a ++ b) = a ++ sub_loop r repl (i + length a) 0 b.
Proof.
  induction a as [|c a IH]; intros i Hno.
  - simpl. by rewrite Nat.add_0_r.
  - simpl app. rewrite sub_loop_cons.
    pose proof (Hno 0) as H0. rewrite Nat.add_0_r in H0. simpl in H0.
    rewrite H0 by lia. rewrite IH.
    + simpl length. by replace (i + S (length a)) with (S i + length a) by lia.
    + intros k Hk. specialize (Hno (S k)). rewrite <- Nat.add_succ_comm in Hno.
      apply Hno. simpl. lia.
Qed.

(** With an empty replacement the result keeps every character that no
    item of the pattern accepts. *)
Lemma sub_loop_filter (r : regex) (q : ascii -> bool) :
  (forall c, accepts r c = true -> q c = false) ->
  forall s i, filter (fun c => q c = true) (sub_loop r [] i 0 s)
              = filter (fun c => q c = true) s.
Proof.
  intros Hq s. remember (length s) as len eqn:Hlen.
  revert s Hlen. induction len as [len IH] using lt_wf_ind.
  intros s Hlen i. destruct s as [|c s].
  - simpl. by destruct (run r i [] []).
  - rewrite sub_loop_cons.
    destruct (run r i (c :: s) []) as [[j ms]|] eqn:Hrun.
    + destruct (Nat.eqb j i) eqn:Hj.
      * simpl. rewrite !filter_cons.
        rewrite (IH (length s)); [done| |done]. simpl in Hlen. lia.
      * apply Nat.eqb_neq in Hj. simpl "++".
        destruct (run_span _ _ _ _ _ _ Hrun) as (n & -> & Hn & Hacc).
        replace (i + n - i) with n by lia.
        rewrite (IH (length (drop n (c :: s)))); [| |done].
        -- rewrite <- (take_drop n (c :: s)) at 2. rewrite filter_app.
           replace (filter (fun c0 => q c0 = true) (take n (c :: s)))
             with (@nil ascii); [done|].
           symmetry. clear -Hacc Hq.
           induction Hacc as [|x l Hx _ IHl]; [done|].
           rewrite filter_cons. rewrite decide_False; [done|].
           rewrite (Hq _ Hx). done.
        -- rewrite length_drop. simpl in *. lia.
    + rewrite !filter_cons. rewrite (IH (length s)); [done| |done].
      simpl in Hlen. lia.
Qed.

(** A pattern anchored at the start removes a prefix of accepted
    characters, or nothing. *)
Lemma sub_bol_empty (r : regex) (s : str) :
  exists n, n <= length s
            /\ sub (Bol :: r) [] s = drop n s
            /\ Forall (fun c => accepts r c = true) (take n s).
Proof.
  assert (forall t i, sub_loop (Bol :: r) [] (S i) 0 t = t) as Hlater.
  { induction t as [|c t IH]; intros i; [done|].
    rewrite sub_loop_cons, run_bol_later. by rewrite IH. }
  unfold sub. destruct s as [|c s].
  - exists 0. simpl. split; [lia|]. split; [|constructor].
    by destruct (run r 0 [] []).
  - rewrite sub_loop_cons.
    destruct (run (Bol :: r) 0 (c :: s) []) as [[j ms]|] eqn:Hrun.
    + destruct (run_span _ _ _ _ _ _ Hrun) as (n & -> & Hn & Hacc).
      assert (Forall (fun c => accepts r c = true) (take n (c :: s))) as Hacc'.
      { eapply Forall_impl; [exact Hacc|]. intros x Hx. exact Hx. }
      destruct (Nat.eqb (0 + n) 0) eqn:Hj.
      * apply Nat.eqb_eq in Hj. exists 0. split; [lia|].
        rewrite Hlater. split; [done|]. constructor.
      * apply Nat.eqb_neq in Hj. exists n. split; [done|].
        destruct n as [|n]; [lia|]. simpl "+". rewrite Hlater.
        replace (S n - 0) with (S n) by lia. done.
    + exists 0. rewrite Hlater. split; [lia|]. split; [done|]. constructor.
Qed.
(* ------------------------------------------------------------------ *)
(** ** clean_json_string *)
(* ------------------------------------------------------------------ *)

Lemma scan_braces_step (c : Z) (i : nat) (x : ascii) (s : str) :
  scan_braces c i (x :: s)
  = if (Ascii.eqb x rbrace && (c + brace_value x =? 0)%Z) then Some i
    else scan_braces (c + brace_value x) (S i) s.
Proof.
  simpl. unfold brace_value.
  destruct (Ascii.eqb x lbrace) eqn:Hl.
  - apply Ascii.eqb_eq in Hl as ->. simpl. done.
  - destruct (Ascii.eqb x rbrace); simpl.
    + replace (c + -1)%Z with (c - 1)%Z by lia. done.
    + by rewrite Z.add_0_r.
Qed.

(** The loop of [clean_json_string] against the depth of the prefixes. *)
Lemma scan_braces_spec (s : str) :
  forall (c : Z) (i : nat),
    (1 <= c)%Z ->
    match scan_braces c i s with
    | None =>
        forall n, 0 < n <= length s -> (c + depth (take n s))%Z ≠ 0%Z
    | Some j =>
        exists m, j = i + m /\ m < length s
                  /\ (c + depth (take (S m) s) = 0)%Z
                  /\ forall n, 0 < n <= m -> (c + depth (take n s))%Z ≠ 0%Z
    end.
Proof.
  induction s as [|x s IH]; intros c i Hc.
  - simpl. intros n Hn. lia.
  - rewrite scan_braces_step.
    destruct (Ascii.eqb x rbrace && (c + brace_value x =? 0)%Z) eqn:Hx.
    + apply andb_true_iff in Hx as [_ Hx%Z.eqb_eq].
      exists 0. split; [lia|]. split; [simpl; lia|]. split.
      * simpl. lia.
      * intros n Hn. lia.
    + assert (1 <= c + brace_value x)%Z as Hc'.
      { unfold brace_value in *. destruct (Ascii.eqb x lbrace); [lia|].
        destruct (Ascii.eqb x rbrace); simpl in Hx; [|lia].
        apply Z.eqb_neq in Hx. lia. }
      specialize (IH _ (S i) Hc').
      destruct (scan_braces (c + brace_value x) (S i) s) as [j|].
      * destruct IH as (m & -> & Hm & Hz & Hmin).
        exists (S m). split; [lia|]. split; [simpl; lia|]. split.
        -- simpl in *. lia.
        -- intros [|n] Hn; [lia|]. simpl.
           destruct n as [|n]; [simpl; lia|].
           specialize (Hmin (S n)). simpl in Hmin. lia.
      * intros [|n] Hn; [lia|]. simpl.
        destruct n as [|n]; [simpl; lia|].
        specialize (IH (S n)). simpl in IH, Hn. lia.
Qed.

(** What follows the closing brace does not matter. *)
Lemma scan_braces_app (a b : str) :
  forall c i j, scan_braces c i a = Some j -> scan_braces c i (a ++ b) = Some j.
Proof.
  induction a as [|x a IH]; intros c i j Ha; [done|].
  simpl app. rewrite scan_braces_step in *.
  destruct (Ascii.eqb x rbrace && (c + brace_value x =? 0)%Z); [done|].
  by apply IH.
Qed.

Lemma scan_braces_take (s : str) :
  forall c i j, scan_braces c i s = Some j ->
                i <= j < i + length s
                /\ scan_braces c i (take (j - i + 1) s) = Some j
                /\ s !! (j - i) = Some rbrace.
Proof.
  induction s as [|x s IH]; intros c i j Hs; [done|].
  rewrite scan_braces_step in Hs.
  destruct (Ascii.eqb x rbrace && (c + brace_value x =? 0)%Z) eqn:Hx.
  - simplify_eq. rewrite Nat.sub_diag. simpl take.
    rewrite scan_braces_step, Hx. split; [simpl; lia|]. split; [done|].
    apply andb_true_iff in Hx as [Hx%Ascii.eqb_eq _]. by subst.
  - destruct (IH _ _ _ Hs) as (Hb & Ht & Hl).
    replace (j - i + 1) with (S (j - S i + 1)) by lia.
    simpl take. rewrite scan_braces_step, Hx.
    split; [simpl; lia|]. split; [done|].
    by replace (j - i) with (S (j - S i)) by lia.
Qed.


Lemma drop_while_app (p : ascii -> bool) (a b : str) (c : ascii) :
  p c = false -> drop_while p (a ++ c :: b) = drop_while p a ++ c :: b.
Proof.
  intros Hc. induction a as [|x a IH]; simpl; [by rewrite Hc|].
  by destruct (p x).
Qed.

Lemma drop_while_all (p : ascii -> bool) (a : str) :
  Forall (fun c => p c = true) a -> drop_while p a = [].
Proof. induction 1 as [|x a Hx _ IH]; simpl; [done|]. by rewrite Hx. Qed.

Lemma drop_while_drop (p : ascii -> bool) (a : str) :
  exists n, drop_while p a = drop n a
            /\ Forall (fun c => p c = true) (take n a).
Proof.
  induction a as [|x a (n & IH & Hall)]; [by exists 0|]. simpl.
  destruct (p x) eqn:Hx.
  - exists (S n). split; [done|]. simpl. by constructor.
  - exists 0. split; [done|]. constructor.
Qed.

Lemma rstrip_by_app (p : ascii -> bool) (a b : str) (c : ascii) :
  p c = false -> rstrip_by p (a ++ c :: b) = a ++ c :: rstrip_by p b.
Proof.
  intros Hc. unfold rstrip_by.
  rewrite rev_app_distr. simpl. rewrite <- app_assoc. simpl.
  rewrite drop_while_app by done.
  rewrite rev_app_distr. simpl. rewrite rev_involutive.
  by rewrite <- app_assoc.
Qed.

Lemma rstrip_by_take (p : ascii -> bool) (a : str) :
  exists n, rstrip_by p a = take n a
            /\ Forall (fun c => p c = true) (drop n a).
Proof.
  unfold rstrip_by. destruct (drop_while_drop p (rev a)) as (n & -> & Hall).
  exists (length a - n). rewrite skipn_rev, rev_involutive. split; [done|].
  rewrite firstn_rev in Hall. apply Forall_rev in Hall.
  by rewrite rev_involutive in Hall.
Qed.

Lemma take_accepted_le {A : Type} (P : A -> Prop) (a b : list A) (c : A)
    (n : nat) :
  Forall P (take n (a ++ c :: b)) -> ~ P c -> n <= length a.
Proof.
  intros Hall Hc. destruct (decide (n <= length a)) as [?|Hn]; [done|].
  exfalso. apply Hc. rewrite Forall_lookup in Hall.
  apply (Hall (length a)). rewrite lookup_take_lt by lia.
  by rewrite list_lookup_middle.
Qed.

Lemma fence_open_no_brace (c : ascii) :
  accepts fence_open_re c = true -> is_brace c = false.
Proof.
  destruct c as [[] [] [] [] [] [] [] []]; vm_compute; congruence.
Qed.

Lemma fence_close_no_brace (c : ascii) :
  accepts fence_close_re c = true -> is_brace c = false.
Proof.
  destruct c as [[] [] [] [] [] [] [] []]; vm_compute; congruence.
Qed.

Lemma space_no_brace (c : ascii) : is_space c = true -> is_brace c = false.
Proof.
  destruct c as [[] [] [] [] [] [] [] []]; vm_compute; congruence.
Qed.

(** The closing fence is not found before a closing brace. *)
Lemma fence_close_after_brace (a b : str) (k : nat) :
  k <= length a ->
  run fence_close_re k (drop k (a ++ rbrace :: b)) [] = None.
Proof.
  intros Hk.
  destruct (run fence_close_re k (drop k (a ++ rbrace :: b)) [])
    as [[j ms]|] eqn:Hrun; [exfalso|done].
  destruct (run_span _ _ _ _ _ _ Hrun) as (n & -> & Hn & Hacc).
  change fence_close_re with ((Star is_space :: lit "```") ++ [Eol]) in Hrun.
  apply run_eol in Hrun. rewrite drop_drop in Hrun.
  replace (k + (k + n - k)) with (k + n) in Hrun by lia.
  destruct (decide (k + n <= length a)) as [Hle|Hgt].
  - rewrite drop_app_le in Hrun by done.
    destruct (drop (k + n) a) as [|y [|z t]]; simpl in Hrun; try done.
    by destruct b.
  - rewrite Forall_lookup in Hacc.
    assert (accepts fence_close_re rbrace = true) as Hbad; [|done].
    apply (Hacc (length a - k)).
    rewrite lookup_take_lt by lia. rewrite lookup_drop.
    replace (k + (length a - k)) with (length a) by lia.
    by rewrite list_lookup_middle.
Qed.

(** Cleaning leaves an object alone, with what precedes it free of opening
    braces if it was so before. *)
Lemma cleaned_text_object (pre body post : str) :
  lbrace ∉ pre ->
  exists pre' post',
    cleaned_text (pre ++ lbrace :: body ++ rbrace :: post)
    = pre' ++ lbrace :: body ++ rbrace :: post'
    /\ lbrace ∉ pre'.
Proof.
  intros Hpre. unfold cleaned_text, strip, lstrip_by.
  rewrite drop_while_app by done.
  replace (drop_while is_space pre ++ lbrace :: body ++ rbrace :: post)
    with ((drop_while is_space pre ++ lbrace :: body) ++ rbrace :: post)
    by (by rewrite <- app_assoc).
  rewrite rstrip_by_app by done.
  destruct (drop_while_drop is_space pre) as (n1 & -> & _).
  destruct (sub_bol_empty (lit_ci "```json" ++ [Star is_space])
              ((drop n1 pre ++ lbrace :: body)
               ++ rbrace :: rstrip_by is_space post))
    as (n2 & Hn2 & Hsub & Hacc).
  change (Bol :: lit_ci "```json" ++ [Star is_space]) with fence_open_re
    in Hsub.
  rewrite Hsub. rewrite <- app_assoc in Hacc. simpl in Hacc.
  apply take_accepted_le in Hacc; [|by vm_compute].
  rewrite <- app_assoc. rewrite drop_app_le by done. rewrite drop_drop.
  set (pre2 := drop (n1 + n2) pre).
  unfold sub.
  replace (pre2 ++ (lbrace :: body) ++ rbrace :: rstrip_by is_space post)
    with ((pre2 ++ lbrace :: body ++ [rbrace]) ++ rstrip_by is_space post)
    by (by rewrite <- !app_assoc; simpl; rewrite <- !app_assoc).
  rewrite sub_loop_no_match.
  - eexists pre2, _. rewrite <- !app_assoc. simpl. rewrite <- !app_assoc.
    split; [reflexivity|].
    intros Hin. apply Hpre. unfold pre2 in Hin.
    rewrite <- (take_drop (n1 + n2) pre). apply elem_of_app. by right.
  - intros k Hk. simpl "+".
    replace ((pre2 ++ lbrace :: body ++ [rbrace]) ++ rstrip_by is_space post)
      with ((pre2 ++ lbrace :: body) ++ rbrace :: rstrip_by is_space post)
      by (by rewrite <- !app_assoc; simpl; rewrite <- !app_assoc).
    apply fence_close_after_brace.
    rewrite !length_app in *. simpl in *. rewrite length_app in Hk.
    simpl in Hk. lia.
Qed.

Lemma in_chars_elem_of (c : ascii) (s : str) :
  c ∈ s <-> in_chars s c = true.
Proof.
  unfold in_chars. induction s as [|x s IH]; simpl.
  - split; [by intros ?%elem_of_nil|done].
  - rewrite elem_of_cons, orb_true_iff, IH, Ascii.eqb_eq. done.
Qed.

Lemma find_char_app (c : ascii) (a b : str) :
  c ∉ a -> find_char c (a ++ c :: b) = Some (length a).
Proof.
  induction a as [|x a IH]; intros Ha; simpl.
  - by rewrite Ascii.eqb_refl.
  - apply not_elem_of_cons in Ha as [Hx Ha].
    destruct (Ascii.eqb x c) eqn:Hxc.
    + apply Ascii.eqb_eq in Hxc. by subst.
    + by rewrite IH.
Qed.

Lemma find_char_Some (c : ascii) (s : str) (k : nat) :
  find_char c s = Some k ->
  (c ∉ take k s) /\ exists t, drop k s = c :: t.
Proof.
  revert k. induction s as [|x s IH]; intros k Hk; [done|]. simpl in Hk.
  destruct (Ascii.eqb x c) eqn:Hxc.
  - apply Ascii.eqb_eq in Hxc. simplify_eq. split; [by intros ?%elem_of_nil|].
    by exists s.
  - destruct (find_char c s) as [k'|]; [|done]. simpl in Hk. simplify_eq.
    destruct (IH k' eq_refl) as (Hnot & t & Ht). split; [|by exists t].
    simpl. apply not_elem_of_cons. split; [|done].
    intros ->. by rewrite Ascii.eqb_refl in Hxc.
Qed.

Lemma find_char_None (c : ascii) (s : str) :
  find_char c s = None <-> c ∉ s.
Proof.
  induction s as [|x s IH]; simpl.
  - split; [intros _ ?%elem_of_nil; done|done].
  - destruct (Ascii.eqb x c) eqn:Hxc.
    + apply Ascii.eqb_eq in Hxc. subst. split; [done|].
      intros Hn. exfalso. apply Hn. left.
    + apply Ascii.eqb_neq in Hxc. rewrite not_elem_of_cons.
      destruct (find_char c s); simpl.
      * split; [done|]. intros [_ Hn]. by apply IH in Hn.
      * split; [|done]. intros _. split; [done|]. by apply IH.
Qed.

(** The index the scan starts from only shifts its result. *)
Lemma scan_braces_shift (s : str) :
  forall c i i' j,
    scan_braces c i s = Some j -> scan_braces c i' s = Some (j - i + i').
Proof.
  induction s as [|x s IH]; intros c i i' j Hs; [done|].
  rewrite scan_braces_step in *.
  destruct (Ascii.eqb x rbrace && (c + brace_value x =? 0)%Z).
  - simplify_eq. f_equal. lia.
  - pose proof (scan_braces_take _ _ _ _ Hs) as (Hb & _).
    rewrite (IH _ _ (S i') _ Hs). f_equal. lia.
Qed.

(** An object that the scan closes at its last character is returned as
    it is, whatever surrounds it, when no opening brace precedes it. *)
Lemma clean_json_string_object (pre body post : str) :
  lbrace ∉ pre ->
  scan_braces 0 0 (lbrace :: body ++ [rbrace]) = Some (S (length body)) ->
  clean_json_string (pre ++ lbrace :: body ++ rbrace :: post)
  = Ok (lbrace :: body ++ [rbrace]).
Proof.
  intros Hpre Hscan.
  destruct (cleaned_text_object pre body post Hpre)
    as (pre' & post' & Hclean & Hpre').
  unfold clean_json_string. fold (cleaned_text
    (pre ++ lbrace :: body ++ rbrace :: post)).
  rewrite Hclean. rewrite find_char_app by done.
  rewrite drop_app_length.
  replace (lbrace :: body ++ rbrace :: post')
    with ((lbrace :: body ++ [rbrace]) ++ post')
    by (simpl; by rewrite <- app_assoc).
  apply (scan_braces_shift _ _ _ (length pre')) in Hscan.
  rewrite (scan_braces_app _ _ _ _ _ Hscan).
  f_equal. unfold slice. rewrite drop_app_length.
  replace (S (length body) - 0 + length pre' + 1 - length pre')
    with (length (lbrace :: body ++ [rbrace]))
    by (simpl; rewrite length_app; simpl; lia).
  by rewrite take_app_length.
Qed.

(** C7: on its own result, clean_json_string succeeds and returns it. *)
Theorem clean_json_string_idempotent (raw_str result : str) :
  clean_json_string raw_str = Ok result ->
  clean_json_string result = Ok result.
Proof.
  intros Hraw.
  assert (exists body, result = lbrace :: body ++ [rbrace]
                       /\ scan_braces 0 0 result = Some (S (length body)))
    as (body & -> & Hscan0).
  { unfold clean_json_string in Hraw. fold (cleaned_text raw_str) in Hraw.
    destruct (find_char lbrace (cleaned_text raw_str)) as [k|] eqn:Hfind;
      [|done].
    destruct (scan_braces 0 k (drop k (cleaned_text raw_str)))
      as [i|] eqn:Hscan; [|done].
    simplify_eq.
    apply find_char_Some in Hfind as (_ & t & Ht).
    apply scan_braces_take in Hscan as (Hb & Htake & Hlast).
    unfold slice. replace (i + 1 - k) with (i - k + 1) by lia.
    set (obj := take (i - k + 1) (drop k (cleaned_text raw_str))) in *.
    assert (length obj = i - k + 1) as Hlen.
    { unfold obj. rewrite length_take. lia. }
    assert (obj !! (i - k) = Some rbrace) as Hl.
    { unfold obj. rewrite lookup_take_lt by lia. done. }
    assert (obj !! 0 = Some lbrace) as H0.
    { unfold obj. rewrite lookup_take_lt by lia. by rewrite Ht. }
    apply (scan_braces_shift _ _ _ 0) in Htake.
    clearbody obj. destruct obj as [|x obj']; [done|].
    simpl in H0. simplify_eq.
    destruct (decide (i - k = 0)) as [Hz|Hnz].
    { rewrite Hz in Hl. simpl in Hl. simplify_eq. }
    exists (take (i - k - 1) obj').
    assert (obj' = take (i - k - 1) obj' ++ [rbrace]) as Hobj.
    { replace (i - k) with (S (i - k - 1)) in Hl by lia. simpl in Hl.
      rewrite <- (take_drop (i - k - 1) obj') at 1. f_equal.
      apply drop_S in Hl. rewrite Hl. f_equal.
      rewrite drop_ge; [done|]. simpl in Hlen. lia. }
    split; [by f_equal|]. rewrite Htake. f_equal.
    rewrite length_take. simpl in Hlen. lia. }
  apply (clean_json_string_object [] body []);
    [by intros ?%elem_of_nil|done].
Qed.

Lemma braces_cons (x : ascii) (s : str) :
  braces (x :: s) = if is_brace x then x :: braces s else braces s.
Proof.
  unfold braces. rewrite filter_cons.
  destruct (is_brace x); [by rewrite decide_True|by rewrite decide_False].
Qed.

Lemma braces_app (a b : str) : braces (a ++ b) = braces a ++ braces b.
Proof. apply filter_app. Qed.

Lemma braces_spaces (a : str) :
  Forall (fun c => is_space c = true) a -> braces a = [].
Proof.
  induction 1 as [|x a Hx _ IH]; [done|].
  by rewrite braces_cons, (space_no_brace _ Hx).
Qed.

Lemma braces_strip (s : str) : braces (strip s) = braces s.
Proof.
  unfold strip, lstrip_by.
  destruct (rstrip_by_take is_space (drop_while is_space s)) as (n & -> & Hr).
  destruct (drop_while_drop is_space s) as (m & Hm & Hl).
  rewrite <- (take_drop m s) at 2. rewrite braces_app, (braces_spaces _ Hl).
  simpl. rewrite <- Hm.
  rewrite <- (take_drop n (drop_while is_space s)) at 2.
  by rewrite braces_app, (braces_spaces _ Hr), app_nil_r.
Qed.

(** Cleaning removes no brace. *)
Lemma braces_cleaned_text (raw_str : str) :
  braces (cleaned_text raw_str) = braces raw_str.
Proof.
  unfold cleaned_text, sub, braces.
  rewrite (sub_loop_filter fence_close_re is_brace fence_close_no_brace).
  rewrite (sub_loop_filter fence_open_re is_brace fence_open_no_brace).
  apply braces_strip.
Qed.

(** The scan fails or not by the braces alone. *)
Lemma scan_braces_filter (s : str) :
  forall c i i',
    scan_braces c i s = None <-> scan_braces c i' (braces s) = None.
Proof.
  induction s as [|x s IH]; intros c i i'; [done|].
  rewrite braces_cons, scan_braces_step.
  destruct (is_brace x) eqn:Hx.
  - rewrite scan_braces_step.
    destruct (Ascii.eqb x rbrace && (c + brace_value x =? 0)%Z); [done|].
    apply IH.
  - unfold is_brace in Hx. apply orb_false_iff in Hx as [Hl Hr].
    unfold brace_value. rewrite Hl, Hr. simpl. rewrite Z.add_0_r. apply IH.
Qed.

Lemma scan_braces_lbrace (c : Z) (i : nat) (s : str) :
  scan_braces c i (lbrace :: s) = scan_braces (c + 1) (S i) s.
Proof. reflexivity. Qed.

Lemma no_object_braces (s : str) :
  no_object s
  <-> match drop_while not_lbrace (braces s) with
      | [] => True
      | _ :: t => scan_braces 1 0 t = None
      end.
Proof.
  unfold no_object. destruct (find_char lbrace s) as [k|] eqn:Hfind.
  - apply find_char_Some in Hfind as (Hnot & t & Ht).
    assert (braces s = braces (take k s) ++ lbrace :: braces t) as ->.
    { rewrite <- (take_drop k s) at 1. by rewrite Ht, braces_app, braces_cons. }
    rewrite Ht. rewrite drop_while_app by done.
    rewrite drop_while_all.
    + rewrite app_nil_l, scan_braces_lbrace. apply scan_braces_filter.
    + apply Forall_forall. intros c Hc. unfold not_lbrace.
      apply negb_true_iff, Ascii.eqb_neq. intros ->. apply Hnot.
      unfold braces in Hc. by apply list_elem_of_filter in Hc as [_ Hc].
  - apply find_char_None in Hfind. rewrite drop_while_all; [done|].
    apply Forall_forall. intros c Hc. unfold not_lbrace.
    apply negb_true_iff, Ascii.eqb_neq. intros ->. apply Hfind.
    unfold braces in Hc. by apply list_elem_of_filter in Hc as [_ Hc].
Qed.

Lemma clean_json_string_raises (raw_str : str) :
  no_object raw_str -> clean_json_string raw_str = Raise ValueError.
Proof.
  intros Hno. apply no_object_braces in Hno.
  rewrite <- braces_cleaned_text in Hno. apply no_object_braces in Hno.
  unfold no_object in Hno. unfold clean_json_string.
  fold (cleaned_text raw_str).
  destruct (find_char lbrace (cleaned_text raw_str)); [|done].
  by rewrite Hno.
Qed.

Lemma never_closes_no_object (raw_str : str) :
  never_closes raw_str -> no_object raw_str.
Proof.
  intros Hnever. unfold no_object.
  destruct (find_char lbrace raw_str) as [k|] eqn:Hfind; [|done].
  specialize (Hnever k Hfind).
  apply find_char_Some in Hfind as (_ & t & Ht). rewrite Ht in *.
  rewrite scan_braces_lbrace. change (0 + 1)%Z with 1%Z.
  pose proof (scan_braces_spec t 1 (S k) ltac:(lia)) as Hspec.
  destruct (scan_braces 1 (S k) t) as [j|]; [exfalso|done].
  destruct Hspec as (m & _ & Hm & Hz & _).
  apply (Hnever (S (S m))).
  - assert (length (drop k raw_str) = S (length t)) as Hlen by (by rewrite Ht).
    rewrite length_drop in Hlen. lia.
  - simpl in *. change (brace_value lbrace) with 1%Z. lia.
Qed.

(** C5: a text without an opening brace, or whose depth from its first
    opening brace never returns to 0, makes clean_json_string raise; the
    chunk loop then leaves the nodes and edges as they were and goes on
    with the next answers. *)
Theorem clean_json_string_no_object (raw_erd : str) :
  (lbrace ∉ raw_erd) \/ never_closes raw_erd ->
  clean_json_string raw_erd = Raise ValueError
  /\ (forall json_loads all, chunk_erd json_loads all raw_erd = all)
  /\ (forall json_loads before after,
        collect_erd json_loads (before ++ raw_erd :: after)
        = collect_erd json_loads (before ++ after)).
Proof.
  intros Hraw.
  assert (clean_json_string raw_erd = Raise ValueError) as Hclean.
  { apply clean_json_string_raises. destruct Hraw as [Hno|Hnever].
    - unfold no_object. apply find_char_None in Hno. by rewrite Hno.
    - by apply never_closes_no_object. }
  assert (forall json_loads all, chunk_erd json_loads all raw_erd = all)
    as Hchunk.
  { intros json_loads [ns es]. unfold chunk_erd. rewrite Hclean.
    by destruct (negb (nonempty raw_erd)). }
  split; [done|]. split; [done|].
  intros json_loads before after. unfold collect_erd.
  rewrite !fold_left_app. simpl. by rewrite Hchunk.
Qed.

Lemma clean_json_string_no_object_witness :
  clean_json_string (txt "{a{b}") = Raise ValueError
  /\ (forall json_loads all, chunk_erd json_loads all (txt "{a{b}") = all)
  /\ (forall json_loads before after,
        collect_erd json_loads (before ++ txt "{a{b}" :: after)
        = collect_erd json_loads (before ++ after)).
Proof.
  apply clean_json_string_no_object. right.
  intros k Hk n Hn. vm_compute in Hk. injection Hk as <-.
  vm_compute in Hn.
  do 6 (destruct n as [|n]; [vm_compute; lia || discriminate|]).
  lia.
Defined.

Lemma clean_json_string_idempotent_witness :
  clean_json_string (txt "{a{b}}") = Ok (txt "{a{b}}").
Proof.
  apply (clean_json_string_idempotent
           (fenced (txt "json") (txt "{a{b}}") (txt " Done.") [])).
  vm_compute. reflexivity.
Defined.

(* ------------------------------------------------------------------ *)
(** ** The shape of the DDL text *)
(* ------------------------------------------------------------------ *)

Lemma Segs_body_app (a s : str) (names : list str) :
  Segs in_body names s -> Segs in_body names (a ++ s).
Proof. intros Hs. induction a as [|c a IH]; [done|]. by apply Segs_char. Qed.

Lemma Segs_top_app (a s : str) (names : list str) :
  a ≠ [] -> Segs in_body names s -> Segs at_top names (a ++ s).
Proof.
  intros Ha Hs. destruct a as [|c a]; [done|].
  apply Segs_open. by apply Segs_body_app.
Qed.

(** A closed segment before a text at the top. *)
Lemma Segs_segment (name body nls s : str) (names : list str) :
  Forall (fun c => c = newline) nls ->
  Segs at_top names s ->
  Segs at_top (if decide (good_name name) then name :: names else names)
    (table_header name ++ body ++ txt ");" ++ nls ++ s).
Proof.
  intros Hnls Hs.
  assert (Segs at_top names (nls ++ s)) as Hs'.
  { induction Hnls as [|c nls -> _ IH]; [done|]. by apply Segs_newline. }
  assert (Segs in_body names (body ++ txt ");" ++ nls ++ s)) as Hb.
  { apply Segs_body_app. by apply Segs_close. }
  destruct (decide (good_name name)) as [Hgood|Hbad].
  - by apply Segs_header.
  - apply Segs_top_app; [|done]. by destruct name.
Qed.

Lemma column_text_space (r : row) : exists t, column_text r = " "%char :: t.
Proof. unfold column_text. eexists. reflexivity. Qed.

Lemma rstrip_chars_body (a b : str) :
  rstrip_chars comma_newline (a ++ " "%char :: b)
  = a ++ " "%char :: rstrip_chars comma_newline b.
Proof. unfold rstrip_chars. by rewrite rstrip_by_app. Qed.

Lemma schema_step_inv (seen : list str) (st : str * option str) (r : row) :
  step_inv seen st ->
  step_inv (match table_name r with
            | Some n => seen ++ [n]
            | None => seen
            end) (schema_step st r).
Proof.
  intros Hinv. destruct st as [text cur]. unfold schema_step.
  destruct (table_name r) as [name|]; [|done].
  destruct (column_text_space r) as [col Hcol]. rewrite Hcol.
  destruct (bool_decide (Some name ≠ cur)) eqn:Hne.
  - apply bool_decide_eq_true in Hne.
    unfold step_inv in *. cbn [fst snd] in *.
    destruct cur as [current|].
    + destruct Hinv as (names & closed & body & -> & Hclosed & Hseen).
      rewrite (app_assoc closed (table_header current)), rstrip_chars_body.
      exists (names ++ if decide (good_name current) then [current] else []),
        (closed ++ table_header current
         ++ (" "%char :: rstrip_chars comma_newline body ++ [newline])
         ++ txt ");" ++ [newline; newline]),
        col.
      split; [|split].
      * unfold table_close. rewrite <- !app_assoc. simpl.
        rewrite <- !app_assoc. done.
      * intros names' rest Hrest. rewrite <- !app_assoc.
        apply Hclosed.
        pose proof (Segs_segment current
                      (" "%char :: rstrip_chars comma_newline body
                       ++ [newline]) [newline; newline] rest names'
                      ltac:(by repeat constructor) Hrest) as Hseg.
        destruct (decide (good_name current)); exact Hseg.
      * intros n Hn Hgood. apply elem_of_app in Hn as [Hn|Hn].
        -- left. apply elem_of_app. destruct (Hseen n Hn Hgood) as [?| ->].
           ++ by left.
           ++ right. rewrite decide_True by done. left.
        -- apply list_elem_of_singleton in Hn. by right.
    + destruct Hinv as [-> ->]. exists [], [], col. simpl.
      split; [done|]. split.
      * intros names' rest Hrest. done.
      * intros n Hn%list_elem_of_singleton _. by right.
  - apply bool_decide_eq_false in Hne. apply dec_stable in Hne.
    unfold step_inv in *. cbn [fst snd] in *. subst cur.
    destruct Hinv as (names & closed & body & -> & Hclosed & Hseen).
    exists names, closed, (body ++ " "%char :: col).
    split; [|split; [done|]].
    + rewrite <- !app_assoc. simpl. by rewrite <- !app_assoc.
    + intros n [Hn|Hn%list_elem_of_singleton]%elem_of_app Hgood; [auto|].
      by right.
Qed.

Lemma fold_schema_step_inv (schema_data : list row) :
  forall seen st,
    step_inv seen st ->
    step_inv (seen ++ omap table_name schema_data)
      (fold_left schema_step schema_data st).
Proof.
  induction schema_data as [|r l IH]; intros seen st Hinv; simpl.
  - by rewrite app_nil_r.
  - apply (schema_step_inv _ _ r) in Hinv.
    apply IH in Hinv. destruct (table_name r) as [n|]; simpl.
    + by rewrite <- app_assoc in Hinv.
    + done.
Qed.

(** The text built from the rows has the shape, with every good table
    name of the rows among its headers. *)
Lemma close_last_table_segs (schema_data : list row) :
  exists names,
    Segs at_top names
      (close_last_table (fold_left schema_step schema_data ([], None)))
    /\ forall r name,
         r ∈ schema_data -> table_name r = Some name -> good_name name ->
         name ∈ names.
Proof.
  pose proof (fold_schema_step_inv schema_data [] ([], None)
                ltac:(by split)) as Hinv.
  simpl in Hinv.
  assert (forall r name, r ∈ schema_data -> table_name r = Some name ->
                         name ∈ omap table_name schema_data) as Hin.
  { intros r name Hr Hname. apply list_elem_of_omap. eauto. }
  destruct (fold_left schema_step schema_data ([], None)) as [text cur].
  unfold step_inv, close_last_table in *. cbn [fst snd] in *.
  destruct cur as [current|].
  - destruct Hinv as (names & closed & body & -> & Hclosed & Hseen).
    exists (names ++ if decide (good_name current) then [current] else []).
    split.
    + rewrite (app_assoc closed (table_header current)), rstrip_chars_body.
      match goal with |- Segs _ _ ?t => replace t
        with (closed ++ table_header current
              ++ (" "%char :: rstrip_chars comma_newline body ++ [newline])
              ++ txt ");" ++ [] ++ [])
        by (unfold table_close; rewrite <- !app_assoc; simpl;
            by rewrite <- !app_assoc) end.
      apply Hclosed.
      pose proof (Segs_segment current
                    (" "%char :: rstrip_chars comma_newline body
                     ++ [newline]) [] [] [] ltac:(constructor) Segs_nil)
        as Hseg.
      destruct (decide (good_name current)); exact Hseg.
    + intros r name Hr Hname Hgood. apply elem_of_app.
      destruct (Hseen name (Hin _ _ Hr Hname) Hgood) as [?| ->]; [by left|].
      right. rewrite decide_True by done. left.
  - destruct Hinv as [-> Hnil]. exists []. split; [constructor|].
    intros r name Hr Hname _. specialize (Hin _ _ Hr Hname).
    rewrite Hnil in Hin. by apply elem_of_nil in Hin.
Qed.

Lemma build_schema_text_unfold (schema_data : list row) :
  build_schema_text schema_data
  = fix_sql_schema
      (close_last_table (fold_left schema_step schema_data ([], None))).
Proof.
  unfold build_schema_text, close_last_table.
  by destruct (fold_left schema_step schema_data ([], None)) as [text [c|]].
Qed.

Lemma Segs_body_top (names : list str) (s : str) :
  Segs in_body names s -> Segs at_top names s.
Proof.
  inversion 1; subst; [by apply Segs_open|by apply Segs_close_top].
Qed.

Lemma Segs_body_inv (names : list str) (c : ascii) (s : str) :
  Segs in_body names (c :: s) ->
  Segs in_body names s
  \/ (c = ")"%char /\ exists s', s = ";"%char :: s' /\ Segs at_top names s').
Proof. inversion 1; subst; [by left|]. right. eauto. Qed.

(** Characters of a body that are no closing parenthesis are passed in the
    body. *)
Lemma Segs_body_drop (names : list str) (n : nat) :
  forall s,
    Segs in_body names s -> n <= length s -> ")"%char ∉ take n s ->
    Segs in_body names (drop n s).
Proof.
  induction n as [|n IH]; intros s Hs Hn Hnot; [done|].
  destruct s as [|c s]; [simpl in Hn; lia|]. simpl in *.
  apply not_elem_of_cons in Hnot as [Hc Hnot].
  apply Segs_body_inv in Hs as [Hs|[-> _]]; [|done].
  apply IH; [done|lia|done].
Qed.

(* ------------------------------------------------------------------ *)
(** ** fix_sql_schema keeps the shape *)
(* ------------------------------------------------------------------ *)

(** A pattern that ends with one character: the span of a match is a run
    of characters accepted by the items before, and that character. *)
Lemma run_last_char (r : regex) (p : ascii -> bool) :
  forall i s ms j ms',
    run (r ++ [Ch p]) i s ms = Some (j, ms') ->
    exists n c, j = i + S n /\ s !! n = Some c /\ p c = true
                /\ Forall (fun c => accepts r c = true) (take n s).
Proof.
  induction r as [|a r IH]; intros i s ms j ms' Hrun.
  - simpl in Hrun. destruct s as [|c s]; [done|].
    destruct (p c) eqn:Hc; [|done]. simplify_eq.
    exists 0, c. split; [lia|]. split; [done|]. split; [done|]. constructor.
  - assert (forall n0 ms0,
               n0 <= length s ->
               Forall (fun c => atom_accepts a c = true) (take n0 s) ->
               run (r ++ [Ch p]) (i + n0) (drop n0 s) ms0 = Some (j, ms') ->
               exists n c, j = i + S n /\ s !! n = Some c /\ p c = true
                 /\ Forall (fun c => accepts (a :: r) c = true) (take n s))
      as Hstep.
    { clear Hrun. intros n0 ms0 Hn0 Hall Hrun.
      destruct (IH _ _ _ _ _ Hrun) as (n & c & -> & Hc & Hp & Hacc).
      exists (n0 + n), c. split; [lia|]. rewrite lookup_drop in Hc.
      split; [done|]. split; [done|].
      rewrite <- take_take_drop. apply Forall_app. split.
      - eapply Forall_impl; [exact Hall|]. intros x Hx. unfold accepts.
        simpl. by rewrite Hx.
      - eapply Forall_impl; [exact Hacc|]. intros x Hx. unfold accepts in *.
        simpl. by rewrite Hx, orb_true_r. }
    assert (forall ms0, run (r ++ [Ch p]) i s ms0 = Some (j, ms') ->
               exists n c, j = i + S n /\ s !! n = Some c /\ p c = true
                 /\ Forall (fun c => accepts (a :: r) c = true) (take n s))
      as Hstep0.
    { intros ms0 Hr. apply (Hstep 0 ms0); [lia|constructor|].
      by rewrite Nat.add_0_r. }
    assert (forall c s', s = c :: s' -> atom_accepts a c = true ->
               run (r ++ [Ch p]) (S i) s' ms = Some (j, ms') ->
               exists n c, j = i + S n /\ s !! n = Some c /\ p c = true
                 /\ Forall (fun c => accepts (a :: r) c = true) (take n s))
      as Hstep1.
    { intros c s' -> Hc Hr. apply (Hstep 1 ms); simpl; [lia| |].
      - by repeat constructor.
      - by rewrite Nat.add_1_r. }
    destruct a; simpl in Hrun.
    + destruct s as [|c s]; [done|]. destruct (p0 c) eqn:Hc; [|done].
      by eapply Hstep1.
    + destruct (Nat.eqb i 0); [|done]. by eapply Hstep0.
    + destruct (at_eol s); [|done]. by eapply Hstep0.
    + apply star_greedy_inv in Hrun as (n0 & Hn0 & Hall & Hk).
      by eapply Hstep.
    + apply star_lazy_inv in Hrun as (n0 & Hn0 & Hall & Hk & _).
      by eapply Hstep.
    + destruct s as [|c s]; [by eapply Hstep0|].
      destruct (p0 c) eqn:Hc; [|by eapply Hstep0].
      destruct (run (r ++ [Ch p]) (S i) s ms) as [y|] eqn:Hrec;
        [|by eapply Hstep0].
      simplify_eq. by eapply Hstep1.
    + by eapply Hstep0.
Qed.

(** A pattern that starts with literal characters matches them one by
    one. *)
Lemma run_chars (f : ascii -> ascii -> bool) (l : str) (r : regex) :
  forall i s ms x,
    run (map (fun c => Ch (f c)) l ++ r) i s ms = Some x ->
    length l <= length s
    /\ Forall2 (fun c y => f c y = true) l (take (length l) s).
Proof.
  induction l as [|c l IH]; intros i s ms x Hrun.
  - simpl. split; [lia|]. rewrite take_0. constructor.
  - simpl in Hrun. destruct s as [|y s]; [done|].
    destruct (f c y) eqn:Hy; [|done].
    destruct (IH _ _ _ _ Hrun) as [Hlen Hall].
    simpl. split; [lia|]. by constructor.
Qed.

(** No literal with a character that matches no word character is found
    where word characters are followed by a character of no use to it. *)
Lemma literal_not_in_word (f : ascii -> ascii -> bool) (l w t : str)
    (x : ascii) :
  Forall (fun c => is_word c = true) w ->
  Forall (fun c => f c x = false) l ->
  Exists (fun c => forall y, is_word y = true -> f c y = false) l ->
  ~ Forall2 (fun c y => f c y = true) l (take (length l) (w ++ x :: t)).
Proof.
  intros Hw Hx. revert w Hw. induction Hx as [|c l Hc Hl IH];
    intros w Hw Hex Hall; [by apply Exists_nil in Hex|].
  destruct w as [|y w]; simpl in Hall.
  - apply Forall2_cons in Hall as [Hcx _]. congruence.
  - apply Forall2_cons in Hall as [Hcy Hall].
    apply Forall_cons in Hw as [Hy Hw].
    apply Exists_cons in Hex as [Hex|Hex].
    + rewrite (Hex y Hy) in Hcy. done.
    + by apply (IH w).
Qed.

Section SubKeepsShape.
Variables (r : regex) (repl : str).
Hypothesis Hend : forall i, run r i [] [] = None.
Hypothesis Hfirst :
  forall i c s,
    c = newline \/ c = ")"%char \/ c = ";"%char -> run r i (c :: s) [] = None.
Hypothesis Hheader :
  forall i name s k,
    good_name name -> k < length (table_header name) ->
    run r (i + k) (drop k (table_header name ++ s)) [] = None.
Hypothesis Hshape :
  forall i s j ms,
    run r i s [] = Some (j, ms) ->
    exists n, j = i + n /\ 0 < n <= length s
      /\ ((")"%char ∉ take n s)
          \/ exists m0 repl0, take n s = m0 ++ [")"%char]
                              /\ (")"%char ∉ m0) /\ repl = repl0 ++ [")"%char]).

Lemma sub_loop_keeps_shape :
  forall len s, length s = len ->
    forall i m names, Segs m names s -> Segs m names (sub_loop r repl i 0 s).
Proof using Hend Hfirst Hheader Hshape.
  induction len as [len IH] using lt_wf_ind. intros s Hlen i m names Hs.
  assert (forall s' i' m' names', length s' < length s ->
             Segs m' names' s' -> Segs m' names' (sub_loop r repl i' 0 s'))
    as IH'.
  { intros s' i' m' names' Hlt Hs'. eapply IH; [|reflexivity|done]. lia. }
  clear IH.
  assert (forall i s' names',
             Segs at_top names' s' -> length s' < length s ->
             Segs in_body names' (")" :: sub_loop r repl i 0 (";" :: s'))%char)
    as Hclose.
  { intros i0 s' names' Hs' Hlt. rewrite sub_loop_cons, Hfirst by auto.
    apply Segs_close. by apply IH'. }
  assert (forall names' s0, s0 = s -> Segs in_body names' s0 ->
             Segs in_body names' (sub_loop r repl i 0 s0)) as Hbody.
  { intros names' s0 -> Hb. destruct s as [|c s']; [inversion Hb|].
    rewrite sub_loop_cons.
    destruct (run r i (c :: s') []) as [[j ms]|] eqn:Hrun.
    - destruct (Hshape _ _ _ _ Hrun) as (n & -> & Hn & Hcase).
      replace (i + n =? i) with false by (symmetry; apply Nat.eqb_neq; lia).
      replace (i + n - i) with n by lia.
      destruct Hcase as [Hnot|(m0 & repl0 & Hm0 & Hnot & ->)].
      + apply Segs_body_app. apply IH'; [rewrite length_drop; lia|].
        apply Segs_body_drop; [done|lia|done].
      + assert (length m0 = n - 1) as Hlen0.
        { apply (f_equal length) in Hm0. rewrite length_app, length_take in Hm0.
          simpl in Hm0, Hn. lia. }
        assert (take (n - 1) (c :: s') = m0) as Htake.
        { rewrite <- (take_app_length m0 [")"%char]), <- Hm0, take_take.
          f_equal. lia. }
        assert (drop (n - 1) (c :: s') = ")"%char :: drop n (c :: s')) as Hdrop.
        { replace n with (S (n - 1)) at 2 by lia. apply drop_S.
          apply (f_equal (fun l => l !! (n - 1))) in Hm0.
          rewrite lookup_take_lt in Hm0 by lia. rewrite Hm0.
          rewrite <- Hlen0. by rewrite list_lookup_middle. }
        pose proof (Segs_body_drop names' (n - 1) (c :: s') Hb ltac:(lia)
                      ltac:(by rewrite Htake)) as Hd.
        rewrite Hdrop in Hd. rewrite <- app_assoc. apply Segs_body_app.
        simpl. apply Segs_body_inv in Hd as [Hd|(_ & s'' & Hs'' & Hd)].
        * apply Segs_char. apply IH'; [rewrite length_drop; lia|done].
        * rewrite Hs''. apply Hclose; [done|].
          apply (f_equal length) in Hs''. rewrite length_drop in Hs''.
          simpl in *. lia.
    - inversion Hb; subst.
      + apply Segs_char. apply IH'; [simpl; lia|done].
      + apply Hclose; [done|simpl; lia]. }
  destruct Hs as [|names s Hs|name names s Hname Hs|c names s Hs
                  |c names s Hs|names s Hs|names s Hs].
  - simpl. rewrite Hend. constructor.
  - rewrite sub_loop_cons, Hfirst by auto.
    apply Segs_newline. apply IH'; [simpl; lia|done].
  - rewrite sub_loop_no_match by (intros k Hk; by apply Hheader).
    apply Segs_header; [done|]. apply IH'; [|done].
    rewrite length_app. destruct (table_header name) eqn:Hh; [done|].
    simpl. lia.
  - apply Segs_body_top. apply Hbody; [done|]. by apply Segs_char.
  - apply Hbody; [done|]. by apply Segs_char.
  - apply Hbody; [done|]. by apply Segs_close.
  - rewrite sub_loop_cons, Hfirst by auto.
    apply Segs_body_top. apply Hclose; [done|simpl; lia].
Qed.
End SubKeepsShape.

Lemma accepted_not_in (r : regex) (l : str) (x : ascii) :
  Forall (fun c => accepts r c = true) l -> accepts r x = false -> x ∉ l.
Proof.
  intros Hall Hx Hin. rewrite Forall_forall in Hall.
  specialize (Hall x Hin). congruence.
Qed.

(** The span of a match of a pattern that ends with one character, when
    no item before accepts a closing parenthesis. *)
Lemma shape_last_char (r0 : regex) (p : ascii -> bool) (repl : str) :
  accepts r0 ")" = false ->
  p ")"%char = false
  \/ ((forall c, p c = true -> c = ")"%char)
      /\ exists repl0, repl = repl0 ++ [")"%char]) ->
  forall i s j ms,
    run (r0 ++ [Ch p]) i s [] = Some (j, ms) ->
    exists n, j = i + n /\ 0 < n <= length s
      /\ ((")"%char ∉ take n s)
          \/ exists m0 repl0, take n s = m0 ++ [")"%char]
                              /\ (")"%char ∉ m0) /\ repl = repl0 ++ [")"%char]).
Proof.
  intros Hacc Hp i s j ms Hrun.
  apply run_last_char in Hrun as (n & c & -> & Hc & Hpc & Hall).
  pose proof (lookup_lt_Some _ _ _ Hc) as Hlt.
  exists (S n). split; [done|]. split; [lia|].
  rewrite (take_S_r _ _ _ Hc).
  pose proof (accepted_not_in _ _ _ Hall Hacc) as Hnot.
  destruct Hp as [Hp|[Hp [repl0 ->]]].
  - left. rewrite elem_of_app, list_elem_of_singleton.
    intros [?|<-]; [done|congruence].
  - right. apply Hp in Hpc as ->. eauto.
Qed.

Lemma no_match_in_app (r : regex) (a1 a2 : str) (P1 P2 : str -> Prop) :
  no_match_in r a1 P1 -> no_match_in r a2 P2 ->
  (forall s, P2 s -> P1 (a2 ++ s)) ->
  no_match_in r (a1 ++ a2) P2.
Proof.
  intros H1 H2 HP i k s Hs Hk. rewrite <- app_assoc.
  destruct (decide (k < length a1)) as [Hlt|Hge].
  - apply H1; [by apply HP|done].
  - rewrite drop_app_ge by lia.
    replace (i + k) with ((i + length a1) + (k - length a1)) by lia.
    apply H2; [done|]. rewrite length_app in Hk. lia.
Qed.

(** A pattern whose first character is nowhere in [a]. *)
Lemma no_match_in_first (p : ascii -> bool) (r : regex) (a : str)
    (P : str -> Prop) :
  Forall (fun c => p c = false) a -> no_match_in (Ch p :: r) a P.
Proof.
  intros Ha i k s _ Hk.
  destruct (lookup_lt_is_Some_2 a k Hk) as [c Hc].
  rewrite drop_app_le by lia. rewrite (drop_S _ _ _ Hc). simpl.
  rewrite Forall_lookup in Ha. by rewrite (Ha _ _ Hc).
Qed.

(** A literal with a character that matches no word character, in a run
    of word characters followed by a character of no use to it. *)
Lemma no_match_in_word (f : ascii -> ascii -> bool) (l : str) (r : regex)
    (w : str) (x : ascii) :
  Forall (fun c => is_word c = true) w ->
  Forall (fun c => f c x = false) l ->
  Exists (fun c => forall y, is_word y = true -> f c y = false) l ->
  no_match_in (map (fun c => Ch (f c)) l ++ r) w
    (fun s => exists t, s = x :: t).
Proof.
  intros Hw Hx Hex i k s [t ->] Hk.
  destruct (run _ (i + k) (drop k (w ++ x :: t)) []) as [y|] eqn:Hrun;
    [exfalso|done].
  apply run_chars in Hrun as [_ Hall].
  rewrite drop_app_le in Hall by lia.
  eapply literal_not_in_word; [| exact Hx | exact Hex | exact Hall].
  rewrite <- (take_drop k w) in Hw. by apply Forall_app in Hw as [_ Hw].
Qed.

Lemma table_header_parts (name : str) :
  table_header name = header_open ++ name ++ header_close.
Proof. reflexivity. Qed.

(** No match starts in a header when the first character of the pattern
    is neither in the fixed parts of the header nor a word character. *)
Lemma no_match_in_header_first (p : ascii -> bool) (r : regex) (name : str) :
  good_name name ->
  Forall (fun c => p c = false) header_open ->
  Forall (fun c => p c = false) header_close ->
  (forall c, is_word c = true -> p c = false) ->
  no_match_in (Ch p :: r) (table_header name) (fun _ => True).
Proof.
  intros [_ Hname] Ho Hc Hw. apply no_match_in_first.
  rewrite table_header_parts. rewrite !Forall_app. split; [done|].
  split; [|done]. eapply Forall_impl; [exact Hname|]. intros c. apply Hw.
Qed.

(** The same for a literal that starts with a character of a name, but
    holds a character that matches no word character. *)
Lemma no_match_in_header_literal (f : ascii -> ascii -> bool) (c0 : ascii)
    (l : str) (r : regex) (name : str) :
  good_name name ->
  Forall (fun c => f c0 c = false) header_open ->
  Forall (fun c => f c0 c = false) header_close ->
  Forall (fun c => f c "]"%char = false) (c0 :: l) ->
  Exists (fun c => forall y, is_word y = true -> f c y = false) (c0 :: l) ->
  no_match_in (map (fun c => Ch (f c)) (c0 :: l) ++ r) (table_header name)
    (fun _ => True).
Proof.
  intros [_ Hname] Ho Hc Hx Hex. rewrite table_header_parts.
  eapply (no_match_in_app _ _ _ (fun _ => True));
    [by apply (no_match_in_first (f c0))| |].
  - eapply no_match_in_app.
    + by apply (no_match_in_word f (c0 :: l) r name "]"%char).
    + by apply (no_match_in_first (f c0)).
    + intros s _. by eexists.
  - done.
Qed.

Lemma eqb_paren (c : ascii) : Text.eqb ")" c = true -> c = ")"%char.
Proof. intros H. symmetry. by apply Ascii.eqb_eq. Qed.

Lemma eqb_ci_paren (c : ascii) : Text.eqb_ci ")" c = true -> c = ")"%char.
Proof. destruct c as [[] [] [] [] [] [] [] []]; vm_compute; congruence. Qed.

Lemma word_not_comma (c : ascii) :
  is_word c = true -> Text.eqb "," c = false.
Proof. destruct c as [[] [] [] [] [] [] [] []]; vm_compute; congruence. Qed.

Lemma word_not_lparen (c : ascii) :
  is_word c = true -> Text.eqb_ci "(" c = false.
Proof. destruct c as [[] [] [] [] [] [] [] []]; vm_compute; congruence. Qed.

Ltac first_char_facts :=
  intros; repeat match goal with
    | H : _ \/ _ |- _ => destruct H
    end; subst; reflexivity.

Lemma comma_paren_keeps_shape (m : mode) (names : list str) (s : str) :
  Segs m names s -> Segs m names (sub comma_paren_re (txt ")") s).
Proof.
  apply (sub_loop_keeps_shape comma_paren_re (txt ")")) with (len := length s);
    [done|first_char_facts| | |done].
  - intros i name t k Hname Hk.
    apply (no_match_in_header_first (Text.eqb ",")); try done.
    + vm_compute. repeat constructor.
    + vm_compute. repeat constructor.
    + apply word_not_comma.
  - apply (shape_last_char [Ch (Text.eqb ","); Star is_space] (Text.eqb ")"));
      [reflexivity|]. right. split; [apply eqb_paren|]. by exists [].
Qed.

Lemma comma_semi_keeps_shape (m : mode) (names : list str) (s : str) :
  Segs m names s -> Segs m names (sub comma_semi_re (txt ";") s).
Proof.
  apply (sub_loop_keeps_shape comma_semi_re (txt ";")) with (len := length s);
    [done|first_char_facts| | |done].
  - intros i name t k Hname Hk.
    apply (no_match_in_header_first (Text.eqb ",")); try done.
    + vm_compute. repeat constructor.
    + vm_compute. repeat constructor.
    + apply word_not_comma.
  - apply (shape_last_char [Ch (Text.eqb ","); Star is_space] (Text.eqb ";"));
      [reflexivity|]. by left.
Qed.

Lemma varchar_keeps_shape (m : mode) (names : list str) (s : str) :
  Segs m names s -> Segs m names (sub varchar_empty_re (txt "VARCHAR(255)") s).
Proof.
  apply (sub_loop_keeps_shape varchar_empty_re (txt "VARCHAR(255)"))
    with (len := length s); [done|first_char_facts| | |done].
  - intros i name t k Hname Hk.
    apply (no_match_in_header_literal Text.eqb_ci "V" (txt "ARCHAR(")
             [Star is_space; Ch (Text.eqb_ci ")")]); try done.
    + vm_compute. repeat constructor.
    + vm_compute. repeat constructor.
    + vm_compute. repeat constructor.
    + do 7 apply Exists_cons_tl. apply Exists_cons_hd. apply word_not_lparen.
  - apply (shape_last_char (lit_ci "VARCHAR(" ++ [Star is_space])
             (Text.eqb_ci ")")); [reflexivity|].
    right. split; [apply eqb_ci_paren|]. by exists (txt "VARCHAR(255").
Qed.

Lemma nvarchar_keeps_shape (m : mode) (names : list str) (s : str) :
  Segs m names s ->
  Segs m names (sub nvarchar_empty_re (txt "NVARCHAR(255)") s).
Proof.
  apply (sub_loop_keeps_shape nvarchar_empty_re (txt "NVARCHAR(255)"))
    with (len := length s); [done|first_char_facts| | |done].
  - intros i name t k Hname Hk.
    apply (no_match_in_header_literal Text.eqb_ci "N" (txt "VARCHAR(")
             [Star is_space; Ch (Text.eqb_ci ")")]); try done.
    + vm_compute. repeat constructor.
    + vm_compute. repeat constructor.
    + vm_compute. repeat constructor.
    + do 8 apply Exists_cons_tl. apply Exists_cons_hd. apply word_not_lparen.
  - apply (shape_last_char (lit_ci "NVARCHAR(" ++ [Star is_space])
             (Text.eqb_ci ")")); [reflexivity|].
    right. split; [apply eqb_ci_paren|]. by exists (txt "NVARCHAR(255").
Qed.

(** The sweep of [fix_sql_schema] leaves the headers of the tables with
    good names and the closings of the tables in place. *)
Lemma fix_sql_schema_keeps_shape (m : mode) (names : list str) (s : str) :
  Segs m names s -> Segs m names (fix_sql_schema s).
Proof.
  intros Hs. unfold fix_sql_schema.
  by apply comma_semi_keeps_shape, comma_paren_keeps_shape,
    varchar_keeps_shape, nvarchar_keeps_shape.
Qed.

(* ------------------------------------------------------------------ *)
(** ** re.findall and the table blocks *)
(* ------------------------------------------------------------------ *)

Lemma findall_loop_skip (r : regex) :
  forall n i s,
    n <= length s ->
    findall_loop r i n s = findall_loop r (i + n) 0 (drop n s).
Proof.
  induction n as [|n IH]; intros i s Hn.
  - by rewrite Nat.add_0_r.
  - destruct s as [|c s]; simpl in Hn; [lia|].
    simpl. rewrite IH by lia. by rewrite Nat.add_succ_comm.
Qed.

(** One step of the scan of [re.findall] after a match that is not
    empty. *)
Lemma findall_loop_cons (r : regex) (i : nat) (c : ascii) (s : str) :
  findall_loop r i 0 (c :: s)
  = match run r i (c :: s) [] with
    | Some (j, ms) =>
        (i, j, ms) :: findall_loop r (Nat.max j (S i)) 0
                        (drop (Nat.max j (S i) - i) (c :: s))
    | None => findall_loop r (S i) 0 s
    end.
Proof.
  simpl. destruct (run r i (c :: s) []) as [[j ms]|] eqn:Hrun; [|done].
  f_equal. apply run_bounds in Hrun. simpl in Hrun.
  rewrite findall_loop_skip by lia.
  replace (S i + (j - i - 1)) with (Nat.max j (S i)) by lia.
  remember (j - i - 1) as m eqn:Hm.
  replace (Nat.max j (S i) - i) with (S m) by lia. done.
Qed.

(** A pattern in two parts: the first part takes a run of characters it
    accepts, the second part matches after it. *)
Lemma run_app_inv (r1 r2 : regex) :
  Forall (fun a => a ≠ Mark) r1 ->
  forall i s ms x,
    run (r1 ++ r2) i s ms = Some x ->
    exists n, n <= length s
              /\ Forall (fun c => accepts r1 c = true) (take n s)
              /\ run r2 (i + n) (drop n s) ms = Some x.
Proof.
  induction 1 as [|a r1 Ha Hr1 IH]; intros i s ms x Hrun.
  - exists 0. split; [lia|]. split; [constructor|].
    by rewrite Nat.add_0_r.
  - assert (forall n0,
               n0 <= length s ->
               Forall (fun c => atom_accepts a c = true) (take n0 s) ->
               run (r1 ++ r2) (i + n0) (drop n0 s) ms = Some x ->
               exists n, n <= length s
                 /\ Forall (fun c => accepts (a :: r1) c = true) (take n s)
                 /\ run r2 (i + n) (drop n s) ms = Some x) as Hstep.
    { clear Hrun. intros n0 Hn0 Hall Hrun.
      destruct (IH _ _ _ _ Hrun) as (n & Hn & Hacc & Hr2).
      rewrite length_drop in Hn. rewrite drop_drop in Hr2.
      exists (n0 + n). split; [lia|]. split.
      - rewrite <- take_take_drop. apply Forall_app. split.
        + eapply Forall_impl; [exact Hall|]. intros c Hc. unfold accepts.
          simpl. by rewrite Hc.
        + eapply Forall_impl; [exact Hacc|]. intros c Hc.
          unfold accepts in *. simpl. by rewrite Hc, orb_true_r.
      - by rewrite Nat.add_assoc. }
    assert (run (r1 ++ r2) i s ms = Some x ->
               exists n, n <= length s
                 /\ Forall (fun c => accepts (a :: r1) c = true) (take n s)
                 /\ run r2 (i + n) (drop n s) ms = Some x) as Hstep0.
    { intros Hr. apply (Hstep 0); [lia|constructor|].
      by rewrite Nat.add_0_r. }
    assert (forall c s', s = c :: s' -> atom_accepts a c = true ->
               run (r1 ++ r2) (S i) s' ms = Some x ->
               exists n, n <= length s
                 /\ Forall (fun c => accepts (a :: r1) c = true) (take n s)
                 /\ run r2 (i + n) (drop n s) ms = Some x) as Hstep1.
    { intros c s' -> Hc Hr. apply (Hstep 1); simpl; [lia| |].
      - by repeat constructor.
      - by rewrite Nat.add_1_r. }
    destruct a; simpl in Hrun; [| | | | | |done].
    + destruct s as [|c s]; [done|]. destruct (p c) eqn:Hc; [|done].
      by eapply Hstep1.
    + destruct (Nat.eqb i 0); [|done]. by apply Hstep0.
    + destruct (at_eol s); [|done]. by apply Hstep0.
    + apply star_greedy_inv in Hrun as (n0 & Hn0 & Hall & Hk).
      by eapply Hstep.
    + apply star_lazy_inv in Hrun as (n0 & Hn0 & Hall & Hk & _).
      by eapply Hstep.
    + destruct s as [|c s]; [by apply Hstep0|].
      destruct (p c) eqn:Hc; [|by apply Hstep0].
      destruct (run (r1 ++ r2) (S i) s ms) as [y|] eqn:Hrec;
        [|by apply Hstep0].
      simplify_eq. by eapply Hstep1.
Qed.

Lemma eqb_ci_paren_eqb (c : ascii) : Text.eqb_ci ")" c = Ascii.eqb ")" c.
Proof. destruct c as [[] [] [] [] [] [] [] []]; reflexivity. Qed.

Lemma eqb_ci_semi_eqb (c : ascii) : Text.eqb_ci ";" c = Ascii.eqb ";" c.
Proof. destruct c as [[] [] [] [] [] [] [] []]; reflexivity. Qed.

Lemma run_closing (i : nat) (s : str) (ms : list nat) :
  run (lit_ci ");" ++ [Mark]) i s ms
  = if starts_with closing s then Some (S (S i), S (S i) :: ms) else None.
Proof.
  change (lit_ci ");" ++ [Mark])
    with [Ch (Text.eqb_ci ")"); Ch (Text.eqb_ci ";"); Mark].
  change closing with [")"; ";"]%char.
  destruct s as [|c [|d s]]; cbn [run starts_with];
    rewrite ?eqb_ci_paren_eqb.
  - done.
  - by destruct (Ascii.eqb ")" c).
  - rewrite eqb_ci_semi_eqb.
    by destruct (Ascii.eqb ")" c), (Ascii.eqb ";" d).
Qed.

Lemma starts_with_closing (s : str) :
  starts_with closing s = true <-> exists t, s = ")"%char :: ";"%char :: t.
Proof.
  change closing with [")"; ";"]%char. split.
  - destruct s as [|c [|d t]]; cbn [starts_with]; intros H.
    + done.
    + by rewrite andb_false_r in H.
    + apply andb_true_iff in H as [Hc Hd].
      apply andb_true_iff in Hd as [Hd _].
      apply Ascii.eqb_eq in Hc, Hd. subst. by exists t.
  - intros [t ->]. reflexivity.
Qed.

Lemma table_block_re_parts :
  table_block_re
  = Mark :: table_head_re ++ StarLazy any :: lit_ci ");" ++ [Mark].
Proof. reflexivity. Qed.

(** A match of the table pattern: a head without closing parenthesis,
    then the text up to the first [);]. *)
Lemma run_table_block (i : nat) (s : str) (j : nat) (ms : list nat) :
  run table_block_re i s [] = Some (j, ms) ->
  exists n p t,
    j = i + n + p + 2 /\ ms = [j; i]
    /\ n <= length s
    /\ (")"%char ∉ take n s)
    /\ drop (n + p) s = ")"%char :: ";"%char :: t
    /\ forall q, q < p -> starts_with closing (drop (n + q) s) = false.
Proof.
  rewrite table_block_re_parts. intros Hrun.
  change (run (table_head_re ++ StarLazy any :: lit_ci ");" ++ [Mark])
            i s [i] = Some (j, ms)) in Hrun.
  apply run_app_inv in Hrun as (n & Hn & Hacc & Hrun);
    [|unfold table_head_re; simpl; repeat constructor; discriminate].
  change (star_lazy any (fun j t => run (lit_ci ");" ++ [Mark]) j t [i])
            (i + n) (drop n s) = Some (j, ms)) in Hrun.
  apply star_lazy_inv in Hrun as (p & Hp & _ & Hk & Hmin).
  rewrite run_closing in Hk.
  destruct (starts_with closing (drop p (drop n s))) eqn:Hstart; [|done].
  simplify_eq. rewrite drop_drop in Hstart.
  apply starts_with_closing in Hstart as [t Hdrop].
  exists n, p, t. split; [lia|]. split; [do 2 f_equal; lia|].
  split; [done|]. split.
  - apply (accepted_not_in table_head_re); [done|reflexivity].
  - split; [done|]. intros q Hq. specialize (Hmin q Hq).
    rewrite run_closing, drop_drop in Hmin.
    by destruct (starts_with closing (drop (n + q) s)).
Qed.

Lemma Segs_has_closing (names : list str) (s : str) :
  Segs in_body names s -> exists u t, s = u ++ ")"%char :: ";"%char :: t.
Proof.
  remember in_body as m eqn:Hm. induction 1 as
    [|names s Hs IH|name names s Hname Hs IH|c names s Hs IH
     |c names s Hs IH|names s Hs IH|names s Hs IH]; try discriminate.
  - destruct (IH eq_refl) as (u & t & ->). by exists (c :: u), t.
  - by exists [], s.
Qed.

(** After a match that starts in a body, the scan is at the top and the
    headers still to come are the same. *)
Lemma Segs_after_closing (names : list str) (p : nat) :
  forall s t,
    Segs in_body names s ->
    (forall q, q < p -> starts_with closing (drop q s) = false) ->
    drop p s = ")"%char :: ";"%char :: t ->
    Segs at_top names t.
Proof.
  induction p as [|p IH]; intros s t Hs Hmin Hdrop.
  - rewrite drop_0 in Hdrop. subst s.
    apply Segs_body_inv in Hs as [Hs|(_ & s' & Hs' & Hs)].
    + apply Segs_body_inv in Hs as [Hs|(Hc & _)]; [|done].
      by apply Segs_body_top.
    + by simplify_eq.
  - destruct s as [|c s]; [done|]. simpl in Hdrop.
    apply Segs_body_inv in Hs as [Hs|(-> & s' & -> & Hs)].
    + apply (IH s); [done| |done]. intros q Hq. apply (Hmin (S q)). lia.
    + specialize (Hmin 0 ltac:(lia)). by rewrite drop_0 in Hmin.
Qed.

Lemma Segs_after_match (names : list str) (n p : nat) (s t : str) :
  Segs in_body names s ->
  n <= length s ->
  ")"%char ∉ take n s ->
  (forall q, q < p -> starts_with closing (drop (n + q) s) = false) ->
  drop (n + p) s = ")"%char :: ";"%char :: t ->
  Segs at_top names t.
Proof.
  intros Hs Hn Hnot Hmin Hdrop.
  apply (Segs_after_closing names p (drop n s)).
  - by apply Segs_body_drop.
  - intros q Hq. rewrite drop_drop. by apply Hmin.
  - by rewrite drop_drop.
Qed.

Section MatcherSuccess.
Context {R : Type}.
Implicit Types (p : ascii -> bool) (k : nat -> str -> option R).

Lemma star_lazy_some p k i (u v : str) x :
  Forall (fun c => p c = true) u ->
  k (i + length u) v = Some x ->
  exists y, star_lazy p k i (u ++ v) = Some y.
Proof.
  revert i. induction u as [|c u IH]; intros i Hu Hk.
  - simpl in *. rewrite Nat.add_0_r in Hk.
    destruct v; simpl; rewrite Hk; eauto.
  - apply Forall_cons in Hu as [Hc Hu]. simpl.
    destruct (k i (c :: u ++ v)); [eauto|]. rewrite Hc.
    apply IH; [done|]. simpl in Hk. by rewrite Nat.add_succ_comm.
Qed.

Lemma star_greedy_some p k i (a s : str) x :
  Forall (fun c => p c = true) a ->
  k (i + length a) s = Some x ->
  exists y, star_greedy p k i (a ++ s) = Some y.
Proof.
  revert i. induction a as [|c a IH]; intros i Ha Hk.
  - simpl in *. rewrite Nat.add_0_r in Hk. destruct s as [|c s]; simpl.
    + eauto.
    + destruct (p c); [|eauto].
      destruct (star_greedy p k (S i) s); eauto.
  - apply Forall_cons in Ha as [Hc Ha]. simpl. rewrite Hc.
    destruct (IH (S i) Ha) as [y ->]; [|eauto].
    simpl in Hk. by rewrite Nat.add_succ_comm.
Qed.

(** A greedy repetition takes the whole run when the rest of the pattern
    matches after it. *)
Lemma star_greedy_max p k i (a s : str) x :
  Forall (fun c => p c = true) a ->
  match s with [] => True | c :: _ => p c = false end ->
  k (i + length a) s = Some x ->
  star_greedy p k i (a ++ s) = Some x.
Proof.
  revert i. induction a as [|c a IH]; intros i Ha Hs Hk.
  - simpl in *. rewrite Nat.add_0_r in Hk. destruct s as [|c s]; simpl.
    + done.
    + by rewrite Hs.
  - apply Forall_cons in Ha as [Hc Ha]. simpl. rewrite Hc.
    rewrite (IH (S i) Ha Hs); [done|].
    simpl in Hk. by rewrite Nat.add_succ_comm.
Qed.
End MatcherSuccess.

Lemma run_Ch (p : ascii -> bool) (r : regex) i c s ms :
  run (Ch p :: r) i (c :: s) ms = if p c then run r (S i) s ms else None.
Proof. reflexivity. Qed.

Lemma run_Mark (r : regex) i s ms : run (Mark :: r) i s ms = run r i s (i :: ms).
Proof. reflexivity. Qed.

Lemma run_Star (p : ascii -> bool) (r : regex) i s ms :
  run (Star p :: r) i s ms = star_greedy p (fun j t => run r j t ms) i s.
Proof. reflexivity. Qed.

Lemma run_StarLazy (p : ascii -> bool) (r : regex) i s ms :
  run (StarLazy p :: r) i s ms = star_lazy p (fun j t => run r j t ms) i s.
Proof. reflexivity. Qed.

Lemma run_Opt (p : ascii -> bool) (r : regex) i c s ms :
  run (Opt p :: r) i (c :: s) ms
  = if p c then
      match run r (S i) s ms with
      | Some x => Some x
      | None => run r i (c :: s) ms
      end
    else run r i (c :: s) ms.
Proof. reflexivity. Qed.

(** A literal at the start of the pattern and of the text. *)
Lemma run_literal (f : ascii -> ascii -> bool) (l l' : str) (r : regex) :
  Forall2 (fun c y => f c y = true) l l' ->
  forall i s ms,
    run (map (fun c => Ch (f c)) l ++ r) i (l' ++ s) ms
    = run r (i + length l) s ms.
Proof.
  induction 1 as [|c y l l' Hcy _ IH]; intros i s ms.
  - simpl. by rewrite Nat.add_0_r.
  - simpl map. simpl app. rewrite run_Ch, Hcy, IH. simpl length.
    by replace (i + S (length l)) with (S i + length l) by lia.
Qed.

Lemma table_header_unfold (name t : str) :
  table_header name ++ t
  = create_table ++ " "%char :: "["%char :: name ++ "]"%char :: " "%char
    :: "("%char :: newline :: t.
Proof.
  unfold table_header, create_table. rewrite <- !app_assoc. reflexivity.
Qed.

(** The head of both table patterns read over a header, up to the name. *)
Lemma run_header_start (r : regex) (i : nat) (name t : str) (ms : list nat)
    (x : nat * list nat) :
  run r (i + 14) (name ++ t) ms = Some x ->
  run (lit_ci "CREATE TABLE" ++ plus is_space ++ Opt (Text.eqb "[") :: r) i
    (create_table ++ " "%char :: "["%char :: name ++ t) ms = Some x.
Proof.
  intros Hr. unfold lit_ci.
  rewrite (run_literal Text.eqb_ci (txt "CREATE TABLE") create_table)
    by (vm_compute; repeat constructor).
  unfold plus. simpl app. rewrite run_Ch.
  change (is_space " ") with true. cbv iota. rewrite run_Star.
  change (star_greedy is_space
            (fun j t0 => run (Opt (Text.eqb "[") :: r) j t0 ms)
            (S (i + length (txt "CREATE TABLE")))
            ("["%char :: name ++ t))
    with (run (Opt (Text.eqb "[") :: r)
            (S (i + length (txt "CREATE TABLE")))
            ("["%char :: name ++ t) ms).
  rewrite run_Opt. change (Text.eqb "[" "[") with true. cbv iota.
  change (length (txt "CREATE TABLE")) with 12.
  replace (S (S (i + 12))) with (i + 14) by lia. by rewrite Hr.
Qed.

(** C1, the reading of one block: a block that starts with the header of
    a table with a good name gives that name. *)
Lemma extract_table_name_header (name t : str) :
  good_name name -> extract_table_name (table_header name ++ t) = name.
Proof.
  intros [Hne Hword]. unfold extract_table_name, match_start.
  destruct name as [|c name]; [done|].
  apply Forall_cons in Hword as [Hc Hword].
  assert (run table_name_re 0 (table_header (c :: name) ++ t) []
          = Some (15 + length (c :: name), [14 + length (c :: name); 14]))
    as ->.
  { rewrite table_header_unfold.
    change table_name_re
      with (lit_ci "CREATE TABLE" ++ plus is_space
            ++ Opt (Text.eqb "[")
               :: (Mark :: plus is_word ++ [Mark; Opt (Text.eqb "]")])).
    apply (run_header_start _ 0 (c :: name)).
    rewrite run_Mark. unfold plus. simpl app.
    rewrite run_Ch, Hc, run_Star.
    apply star_greedy_max; [done|reflexivity|].
    rewrite run_Mark, run_Opt. change (Text.eqb "]" "]") with true.
    cbv iota. cbn [run]. simpl length.
    replace (S (S (0 + 14) + length name)) with (15 + S (length name)) by lia.
    replace (S (0 + 14) + length name) with (14 + S (length name)) by lia.
    reflexivity. }
  unfold group1, slice. rewrite table_header_unfold.
  change (create_table ++ " "%char :: "["%char :: (c :: name) ++ ?u)
    with ((create_table ++ [" "; "["]%char) ++ (c :: name) ++ u).
  replace (14 + length (c :: name) - 14) with (length (c :: name)) by lia.
  rewrite (drop_app_length' _ _ 14) by reflexivity.
  by rewrite take_app_length.
Qed.

(** At the header of a table with a good name the table pattern finds a
    match, when a closing comes later. *)
Lemma run_table_block_header (i : nat) (name s : str) (names : list str) :
  good_name name -> Segs in_body names s ->
  exists y, run table_block_re i (table_header name ++ s) [] = Some y.
Proof.
  intros [Hne Hword] Hs. destruct name as [|c name]; [done|].
  apply Forall_cons in Hword as [Hc Hword].
  destruct (Segs_has_closing _ _ Hs) as (u & t & ->).
  rewrite table_header_unfold.
  change table_block_re
    with (Mark :: lit_ci "CREATE TABLE" ++ plus is_space
          ++ Opt (Text.eqb "[")
             :: (plus is_word
                 ++ Opt (Text.eqb "]") :: StarLazy any
                    :: lit_ci ");" ++ [Mark])).
  rewrite run_Mark.
  assert (exists y,
             run (plus is_word
                  ++ Opt (Text.eqb "]") :: StarLazy any
                     :: lit_ci ");" ++ [Mark]) (i + 14)
               ((c :: name) ++ "]"%char :: " "%char :: "("%char :: newline
                :: u ++ ")"%char :: ";"%char :: t) [i] = Some y)
    as [y Hy].
  { destruct (star_lazy_some any
                (fun j t0 => run (lit_ci ");" ++ [Mark]) j t0 [i])
                (S (S (i + 14) + length name))
                (" "%char :: "("%char :: newline :: u)
                (")"%char :: ";"%char :: t)
                (S (S (S (S (i + 14) + length name)
                         + length (" "%char :: "("%char :: newline :: u))),
                 [S (S (S (S (i + 14) + length name)
                          + length (" "%char :: "("%char :: newline :: u)));
                  i]))
      as [z Hz].
    { apply Forall_forall. done. }
    { rewrite run_closing. reflexivity. }
    unfold plus. simpl app. rewrite run_Ch, Hc, run_Star.
    apply (star_greedy_some _ _ _ _ _ z); [exact Hword|].
    rewrite run_Opt. change (Text.eqb "]" "]") with true. cbv iota.
    rewrite run_StarLazy. simpl app in Hz. by rewrite Hz. }
  exists y. by apply run_header_start.
Qed.

Lemma table_header_no_paren (name : str) :
  good_name name -> ")"%char ∉ table_header name.
Proof.
  intros [_ Hword]. rewrite table_header_parts, !elem_of_app.
  intros [Hin|[Hin|Hin]].
  - by apply in_chars_elem_of in Hin.
  - rewrite Forall_forall in Hword. by specialize (Hword _ Hin).
  - by apply in_chars_elem_of in Hin.
Qed.

Lemma run_table_block_first (i : nat) (c : ascii) (s : str) :
  c = newline \/ c = ")"%char \/ c = ";"%char ->
  run table_block_re i (c :: s) [] = None.
Proof. intros [->|[->| ->]]; reflexivity. Qed.

(** Every header of the shape starts a match of the table pattern, and
    the block of the match reads back as the name of the header. *)
Lemma findall_recovers (text : str) :
  forall len s, length s = len ->
    forall pre m names,
      text = pre ++ s -> Segs m names s ->
      forall name, name ∈ names ->
        name ∈ map (fun mt => extract_table_name (group1 text mt))
                 (findall_loop table_block_re (length pre) 0 s).
Proof.
  induction len as [len IH] using lt_wf_ind.
  intros s Hlen pre m names Htext Hs.
  assert (forall s' pre' m' names',
             length s' < length s -> text = pre' ++ s' ->
             Segs m' names' s' ->
             forall name, name ∈ names' ->
               name ∈ map (fun mt => extract_table_name (group1 text mt))
                        (findall_loop table_block_re (length pre') 0 s'))
    as IH'.
  { intros s' pre' m' names' Hlt Ht Hs'. eapply IH; [|reflexivity|done|done].
    lia. }
  clear IH.
  (* a match that starts here, in a body *)
  assert (forall names0 j ms,
             Segs in_body names0 s ->
             run table_block_re (length pre) s [] = Some (j, ms) ->
             exists n p t,
               j = length pre + (n + p + 2) /\ ms = [j; length pre]
               /\ n + p + 2 <= length s
               /\ drop (n + p) s = ")"%char :: ";"%char :: t
               /\ forall name, name ∈ names0 ->
                    name ∈ map (fun mt => extract_table_name (group1 text mt))
                             (findall_loop table_block_re j 0
                                (drop (j - length pre) s))) as Hmatch.
  { intros names0 j ms Hb Hrun.
    destruct (run_table_block _ _ _ _ Hrun)
      as (n & p & t & -> & -> & Hn & Hnot & Hdrop & Hmin).
    assert (n + p + 2 <= length s) as Hle.
    { apply (f_equal length) in Hdrop. rewrite length_drop in Hdrop.
      simpl in Hdrop. lia. }
    assert (drop (n + p + 2) s = t) as Ht.
    { replace (n + p + 2) with ((n + p) + 2) by lia.
      by rewrite <- drop_drop, Hdrop. }
    exists n, p, t. split; [lia|]. split; [done|]. split; [done|].
    split; [done|].
    replace (length pre + n + p + 2 - length pre) with (n + p + 2) by lia.
    rewrite Ht.
    pose proof (Segs_after_match _ _ _ _ _ Hb Hn Hnot Hmin Hdrop) as Htop.
    replace (length pre + n + p + 2)
      with (length (pre ++ take (n + p + 2) s))
      by (rewrite length_app, length_take; lia).
    apply (IH' t _ at_top names0); [| |done].
    - rewrite <- Ht, length_drop. lia.
    - rewrite <- app_assoc, <- Ht. by rewrite take_drop. }
  (* the scan of a body *)
  assert (forall names0, Segs in_body names0 s ->
             forall name, name ∈ names0 ->
               name ∈ map (fun mt => extract_table_name (group1 text mt))
                        (findall_loop table_block_re (length pre) 0 s))
    as Hbody.
  { intros names0 Hb name Hname. destruct s as [|c s']; [inversion Hb|].
    rewrite findall_loop_cons.
    destruct (run table_block_re (length pre) (c :: s') [])
      as [[j ms]|] eqn:Hrun.
    - destruct (Hmatch names0 j ms Hb eq_refl)
        as (n & p & t & Hj & _ & _ & _ & Hrest).
      replace (Nat.max j (S (length pre))) with j by lia.
      rewrite map_cons, elem_of_cons. right. by apply Hrest.
    - replace (S (length pre)) with (length (pre ++ [c]))
        by (rewrite length_app; simpl; lia).
      inversion Hb; subst.
      + apply (IH' s' _ in_body names0); [simpl; lia| |done|done].
        by rewrite <- app_assoc.
      + rewrite findall_loop_cons, run_table_block_first by auto.
        replace (S (length (pre ++ [")"%char])))
          with (length ((pre ++ [")"%char]) ++ [";"%char]))
          by (rewrite !length_app; simpl; lia).
        apply (IH' _ _ at_top names0); [simpl; lia| |done|done].
        by rewrite <- !app_assoc. }
  destruct Hs as [|names s Hs|hname names s Hgood Hs|c names s Hs
                  |c names s Hs|names s Hs|names s Hs];
    intros name Hname.
  - by apply elem_of_nil in Hname.
  - rewrite findall_loop_cons, run_table_block_first by auto.
    replace (S (length pre)) with (length (pre ++ [newline]))
      by (rewrite length_app; simpl; lia).
    apply (IH' s _ at_top names); [simpl; lia| |done|done].
    by rewrite <- app_assoc.
  - destruct (run_table_block_header (length pre) hname s names Hgood Hs)
      as [[j ms] Hrun].
    pose proof (Segs_body_app (table_header hname) s names Hs) as Hb.
    destruct (Hmatch names j ms Hb Hrun)
      as (n & p & t & Hj & Hms & Hle & Hdrop & Hrest).
    destruct (table_header hname ++ s) as [|c s'] eqn:Hhs.
    { by destruct (table_header hname). }
    rewrite findall_loop_cons, Hrun.
    replace (Nat.max j (S (length pre))) with j by lia.
    rewrite map_cons, elem_of_cons.
    apply elem_of_cons in Hname as [->|Hname]; [left|right; by apply Hrest].
    subst ms. unfold group1, slice. rewrite Htext, drop_app_length.
    replace (j - length pre) with (n + p + 2) by lia.
    rewrite <- Hhs in *.
    assert (length (table_header hname) <= n + p) as Hlen'.
    { destruct (decide (length (table_header hname) <= n + p)) as [?|Hlt];
        [done|]. exfalso.
      apply (table_header_no_paren hname Hgood).
      apply (f_equal (fun l => l !! 0)) in Hdrop.
      rewrite lookup_drop, Nat.add_0_r in Hdrop.
      rewrite lookup_app_l in Hdrop by lia. simpl in Hdrop.
      by apply list_elem_of_lookup_2 in Hdrop. }
    rewrite take_app_ge by lia.
    by rewrite extract_table_name_header.
  - apply (Hbody names); [by apply Segs_char|done].
  - apply (Hbody names); [by apply Segs_char|done].
  - apply (Hbody names); [by apply Segs_close|done].
  - rewrite findall_loop_cons, run_table_block_first by auto.
    rewrite findall_loop_cons, run_table_block_first by auto.
    replace (S (S (length pre)))
      with (length ((pre ++ [")"%char]) ++ [";"%char]))
      by (rewrite !length_app; simpl; lia).
    apply (IH' _ _ at_top names); [simpl; lia| |done|done].
    by rewrite <- !app_assoc.
Qed.

(** C1, as the code has it: the DDL text built from the rows, re-parsed
    by split_schema_to_tables and extract_table_name, gives back every
    table name of the rows that is made of one or more word characters
    (letters, digits, underscore). *)
Theorem build_schema_text_recovers_names (schema_data : list row) (r : row)
    (name : str) :
  r ∈ schema_data ->
  table_name r = Some name ->
  good_name name ->
  name ∈ recovered_names (build_schema_text schema_data).
Proof.
  intros Hr Hname Hgood.
  destruct (close_last_table_segs schema_data) as (names & Hsegs & Hnames).
  apply fix_sql_schema_keeps_shape in Hsegs.
  rewrite <- build_schema_text_unfold in Hsegs.
  unfold recovered_names, split_schema_to_tables, findall.
  rewrite map_map.
  apply (findall_recovers (build_schema_text schema_data)
           (length (build_schema_text schema_data))
           (build_schema_text schema_data) eq_refl [] at_top names);
    [done|done|]. by eapply Hnames.
Qed.

Lemma build_schema_text_recovers_names_witness :
  txt "T" ∈ recovered_names (build_schema_text [notes_row]).
Proof.
  apply (build_schema_text_recovers_names [notes_row] notes_row (txt "T")).
  - apply list_elem_of_here.
  - reflexivity.
  - split; [discriminate|]. repeat constructor.
Defined.

(** C1, as stated, fails for a table name with a space: the text built
    for the table [Order Details] reads back as the one name [Order]. *)
Lemma order_details_not_recovered :
  table_name order_details_row = Some (txt "Order Details")
  /\ recovered_names (build_schema_text [order_details_row]) = [txt "Order"]
  /\ txt "Order Details"
     ∉ recovered_names (build_schema_text [order_details_row]).
Proof.
  split; [reflexivity|].
  assert (recovered_names (build_schema_text [order_details_row])
          = [txt "Order"]) as Heq by (vm_compute; reflexivity).
  split; [exact Heq|]. rewrite Heq.
  intros Hin. apply list_elem_of_singleton in Hin. discriminate.
Qed.

Section DictMore.
Context {K V : Type} `{EqDecision K}.
Implicit Types (d : list (K * V)) (k : K) (v : V).

Lemma dict_set_same d k v : dict_get k d = Some v -> dict_set k v d = d.
Proof.
  induction d as [|[k' v'] d IH]; simpl; [done|].
  destruct (decide (k' = k)) as [->|Hne]; intros Hg.
  - by simplify_eq.
  - by rewrite IH.
Qed.

Lemma dict_set_NoDup d k v : NoDup d.*1 -> NoDup (dict_set k v d).*1.
Proof.
  intros Hd. destruct (dict_has k d) eqn:Hk.
  - by rewrite dict_set_keys_present.
  - rewrite dict_set_keys_absent by done.
    apply NoDup_app. split; [done|]. split; [|apply NoDup_singleton].
    intros x Hx ->%list_elem_of_singleton.
    apply dict_has_elem_of in Hx. congruence.
Qed.

Lemma dict_has_del d k : NoDup d.*1 -> dict_has k (dict_del k d) = false.
Proof.
  intros Hd. apply not_true_is_false. rewrite dict_has_elem_of.
  induction d as [|[k' v'] d IH]; simpl; [by intros ?%elem_of_nil|].
  csimpl in Hd. apply NoDup_cons in Hd as [Hk' Hd].
  destruct (decide (k' = k)) as [->|Hne]; [done|].
  csimpl. rewrite elem_of_cons. intros [->|Hin]; [done|]. by apply IH.
Qed.

Lemma dict_has_del_ne d k k' :
  k ≠ k' -> dict_has k' (dict_del k d) = dict_has k' d.
Proof. intros Hne. unfold dict_has. by rewrite dict_get_del_ne. Qed.

Lemma dict_has_false_get d k : dict_has k d = false -> dict_get k d = None.
Proof. unfold dict_has. by destruct (dict_get k d). Qed.

Lemma dict_get_has d k v : dict_get k d = Some v -> dict_has k d = true.
Proof. unfold dict_has. by intros ->. Qed.
End DictMore.

Lemma map_result_Forall2 {A B : Type} (f : A -> result B) (l : list A)
    (l' : list B) :
  map_result f l = Ok l' <-> Forall2 (fun x y => f x = Ok y) l l'.
Proof.
  revert l'. induction l as [|x l IH]; intros l'; simpl.
  - split.
    + intros ?. simplify_eq. constructor.
    + by intros ->%Forall2_nil_inv_l.
  - split.
    + intros Hl. bind_inv Hl. bind_inv Hl. simplify_eq.
      constructor; [done|]. by apply IH.
    + intros (y & l'' & Hy & Hl & ->)%Forall2_cons_inv_l.
      rewrite Hy. simpl. apply IH in Hl. by rewrite Hl.
Qed.

Lemma normalize_erd_col_normal (col col' : json) :
  normalize_erd_col col = Ok col' -> normal_col col'.
Proof.
  intros Hc. unfold normalize_erd_col in Hc.
  destruct col; simpl in Hc; try discriminate. simplify_eq.
  unfold normal_col. eauto 10.
Qed.

Lemma normalize_erd_col_fixed (col : json) :
  normal_col col -> normalize_erd_col col = Ok col.
Proof.
  intros (name & type & pk & fk & nullable & ->).
  unfold normalize_erd_col. simpl.
  unfold py_or. simpl. by destruct pk, fk.
Qed.

Lemma map_result_fixed {A : Type} (f : A -> result A) (l : list A) :
  Forall (fun x => f x = Ok x) l -> map_result f l = Ok l.
Proof.
  induction 1 as [|x l Hx _ IH]; [done|]. simpl. rewrite Hx. simpl.
  by rewrite IH.
Qed.

(** What [normalize_erd_node] gives when it returns. *)
Lemma normalize_erd_node_Ok (node node' : json) :
  normalize_erd_node node = Ok node' ->
  exists d cols ncols,
    node = JObj d
    /\ py_iter (source_columns node) = Ok cols
    /\ map_result normalize_erd_col cols = Ok ncols
    /\ node' = JObj (let d1 := dict_set (txt "columns") (JArr ncols)
                                 (dict_set (txt "type") (JStr (txt "table")) d)
                     in if dict_has (txt "data") d1
                        then dict_del (txt "data") d1 else d1).
Proof.
  intros Hn. destruct node as [| | | | | |d]; simpl in Hn; try discriminate.
  bind_inv Hn. rename a into cols. bind_inv Hn. rename a into ncols.
  assert (Hne1 : txt "type" ≠ txt "columns") by discriminate.
  assert (Hne2 : txt "type" ≠ txt "data") by discriminate.
  do 2 (rewrite dict_get_set_ne in Ha by done).
  exists d, cols, ncols. simplify_eq. done.
Qed.

Lemma normalize_erd_node_normal (node node' : json) :
  normalize_erd_node node = Ok node' ->
  exists d cols,
    node' = JObj d
    /\ dict_get (txt "type") d = Some (JStr (txt "table"))
    /\ dict_get (txt "columns") d = Some (JArr cols)
    /\ Forall normal_col cols
    /\ (distinct_keys node -> dict_has (txt "data") d = false).
Proof.
  intros (d & cols & ncols & -> & Hcols & Hn & ->)%normalize_erd_node_Ok.
  set (d0 := dict_set (txt "type") (JStr (txt "table")) d).
  set (d1 := dict_set (txt "columns") (JArr ncols) d0).
  assert (dict_get (txt "type") d1 = Some (JStr (txt "table"))) as Ht.
  { unfold d1. rewrite dict_get_set_ne by discriminate.
    apply dict_get_set_eq. }
  assert (dict_get (txt "columns") d1 = Some (JArr ncols)) as Hc
    by apply dict_get_set_eq.
  assert (Forall normal_col ncols) as Hnormal.
  { apply map_result_Forall2 in Hn. clear -Hn.
    induction Hn as [|x y l l' Hxy _ IH]; constructor; [|done].
    by eapply normalize_erd_col_normal. }
  simpl. eexists _, ncols. split; [reflexivity|].
  fold d0. fold d1.
  destruct (dict_has (txt "data") d1) eqn:Hdata.
  - rewrite !dict_get_del_ne by discriminate.
    repeat split; try done. simpl. intros Hd.
    apply dict_has_del. by do 2 apply dict_set_NoDup.
  - done.
Qed.

(** X1: the node that [normalize_erd_node] returns is of type "table" and
    holds under "columns" a list of columns that have the five keys name,
    type, isPrimaryKey, isForeignKey and nullable in this order, the two
    flags as booleans; it has no key "data" any more. *)
Theorem normalize_erd_node_shape (node node' : json) :
  normalize_erd_node node = Ok node' ->
  exists d cols,
    node' = JObj d
    /\ dict_get (txt "type") d = Some (JStr (txt "table"))
    /\ dict_get (txt "columns") d = Some (JArr cols)
    /\ Forall normal_col cols
    /\ (distinct_keys node -> dict_has (txt "data") d = false).
Proof. apply normalize_erd_node_normal. Qed.

(** X2: [normalize_erd_node] is idempotent: applied to a node it has
    returned, it returns the same node. *)
Theorem normalize_erd_node_idempotent (node node' : json) :
  distinct_keys node ->
  normalize_erd_node node = Ok node' ->
  normalize_erd_node node' = Ok node'.
Proof.
  intros Hd Hn.
  destruct (normalize_erd_node_normal _ _ Hn)
    as (d & cols & -> & Ht & Hc & Hnormal & Hdata).
  specialize (Hdata Hd). simpl.
  rewrite (dict_set_same d _ _ Ht), Hc.
  rewrite (dict_has_false_get _ _ Hdata). simpl.
  assert (py_iter (py_or (py_or (JArr cols) JNull) (JArr [])) = Ok cols) as ->.
  { unfold py_or. simpl. by destruct cols. }
  simpl. rewrite map_result_fixed.
  - simpl. by rewrite (dict_set_same d _ _ Hc), Hdata.
  - eapply Forall_impl; [exact Hnormal|]. apply normalize_erd_col_fixed.
Qed.

Lemma py_or_truthy (a b : json) : truthy (py_or a b) = truthy a || truthy b.
Proof. unfold py_or. by destruct (truthy a) eqn:Ha. Qed.

Lemma source_columns_truthy (node : json) :
  truthy (source_columns node) = true \/ source_columns node = JArr [].
Proof.
  destruct node; simpl; auto. unfold py_or.
  repeat case_match; auto.
Qed.

Lemma normalize_erd_col_object (col : json) :
  is_ok (normalize_erd_col col) <-> is_object col.
Proof. destruct col; simpl; tauto. Qed.

Lemma map_result_is_ok {A B : Type} (f : A -> result B) (l : list A) :
  is_ok (map_result f l) <-> Forall (fun x => is_ok (f x)) l.
Proof.
  induction l as [|x l IH]; simpl.
  - split; [constructor|done].
  - rewrite Forall_cons, <- IH.
    destruct (f x); simpl; [|tauto].
    destruct (map_result f l); simpl; tauto.
Qed.

(** X3: [normalize_erd_node] returns exactly when the node is a dict and
    what it reads as the columns ("columns", else "data", else nothing) is
    a list of dicts; otherwise it raises. *)
Theorem normalize_erd_node_succeeds (node : json) :
  is_ok (normalize_erd_node node)
  <-> is_object node
      /\ exists cols, source_columns node = JArr cols
                      /\ Forall is_object cols.
Proof.
  split.
  - destruct (normalize_erd_node node) as [node'|] eqn:Hn; [|done].
    intros _.
    apply normalize_erd_node_Ok in Hn
      as (d & cols & ncols & -> & Hcols & Hn & _).
    split; [done|].
    assert (Forall is_object cols) as Hobj.
    { assert (is_ok (map_result normalize_erd_col cols)) as Hok
        by (by rewrite Hn).
      apply map_result_is_ok in Hok.
      eapply Forall_impl; [exact Hok|].
      intros x. apply normalize_erd_col_object. }
    destruct (source_columns_truthy (JObj d)) as [Ht|He].
    + destruct (source_columns (JObj d)) as [| | | |s|l|f];
        simpl in Hcols; simplify_eq.
      * destruct s as [|c s]; [done|].
        by apply Forall_cons in Hobj as [? _].
      * eauto.
      * destruct f as [|[k v] f]; [done|].
        by apply Forall_cons in Hobj as [? _].
    + rewrite He in Hcols. simplify_eq. eauto.
  - intros (Hnode & cols & Hsrc & Hobj).
    destruct node as [| | | | | |d]; try done. simpl.
    assert (Hne1 : txt "type" ≠ txt "columns") by discriminate.
    assert (Hne2 : txt "type" ≠ txt "data") by discriminate.
    do 2 (rewrite dict_get_set_ne by done).
    simpl in Hsrc. rewrite Hsrc. simpl.
    assert (is_ok (map_result normalize_erd_col cols)) as Hok.
    { apply map_result_is_ok. eapply Forall_impl; [exact Hobj|].
      intros x. apply normalize_erd_col_object. }
    by destruct (map_result normalize_erd_col cols).
Qed.

(* ---- merge ---- *)
Lemma fold_result_is_ok {A B : Type} (f : A -> B -> result A)
    (P : B -> Prop) (l : list B) :
  (forall a x, is_ok (f a x) -> P x) ->
  forall a, is_ok (fold_result f a l) -> Forall P l.
Proof.
  intros Hf. induction l as [|x l IH]; intros a Hok; [constructor|].
  simpl in Hok. destruct (f a x) as [a'|] eqn:Hfx; [|done].
  constructor.
  - apply (Hf a). by rewrite Hfx.
  - by apply (IH a').
Qed.

(** X6: the final merge succeeds exactly when every node is a dict with
    an "id" that is not a list or a dict, and every edge is a dict whose
    "source", "target" and "label", where it has them, are not lists or
    dicts; one node without an id makes the whole merge raise. *)
Theorem merge_erd_succeeds (all_nodes all_edges : list json) :
  is_ok (merge_erd all_nodes all_edges)
  <-> Forall has_id all_nodes /\ Forall keyed_edge all_edges.
Proof.
  assert (Forall has_id all_nodes
          <-> Forall (fun n => is_ok (node_key n)) all_nodes) as ->.
  { split; intros H; (eapply Forall_impl; [exact H|]); intros n;
      apply node_key_has_id. }
  assert (Forall keyed_edge all_edges
          <-> Forall (fun e => is_ok (edge_key e)) all_edges) as ->.
  { split; intros H; (eapply Forall_impl; [exact H|]); intros e;
      apply edge_key_keyed. }
  unfold merge_erd. split.
  - intros Hok.
    destruct (fold_result unique_nodes_step [] all_nodes) as [d|] eqn:Hn;
      [|done].
    simpl in Hok.
    destruct (fold_result unique_edges_step ([], []) all_edges)
      as [st|] eqn:He; [|done].
    split.
    + eapply (fold_result_is_ok unique_nodes_step); [|by rewrite Hn].
      intros a x. unfold unique_nodes_step, node_key.
      destruct (py_item x "id"); simpl; [|done]. by destruct (py_key _).
    + eapply (fold_result_is_ok unique_edges_step); [|by rewrite He].
      intros [a1 a2] x. unfold unique_edges_step.
      by destruct (edge_key x).
  - intros [Hn He].
    destruct (unique_nodes_fold _ Hn) as (d & -> & _).
    destruct (unique_edges_fold _ He) as (seen & -> & _). done.
Qed.

Section SetDefault.
Context {K V : Type} `{EqDecision K}.
Implicit Types (d : list (K * V)) (k : K) (v : V).

Lemma dict_get_app_l d d' k v :
  dict_get k d = Some v -> dict_get k (d ++ d') = Some v.
Proof.
  induction d as [|[k' v'] d IH]; simpl; [done|].
  by destruct (decide (k' = k)).
Qed.

Lemma dict_get_app_r d d' k :
  dict_get k d = None -> dict_get k (d ++ d') = dict_get k d'.
Proof.
  induction d as [|[k' v'] d IH]; simpl; [done|].
  by destruct (decide (k' = k)).
Qed.

Lemma dict_has_setdefault d k v : dict_has k (dict_setdefault k v d) = true.
Proof.
  unfold dict_setdefault. destruct (dict_has k d) eqn:Hk; [done|].
  unfold dict_has. rewrite dict_get_app_r by (by apply dict_has_false_get).
  simpl. by rewrite decide_True.
Qed.

Lemma dict_has_setdefault_mono d k k' v :
  dict_has k' d = true -> dict_has k' (dict_setdefault k v d) = true.
Proof.
  unfold dict_setdefault. destruct (dict_has k d); [done|].
  unfold dict_has. destruct (dict_get k' d) as [x|] eqn:Hx; [|done].
  by rewrite (dict_get_app_l _ _ _ _ Hx).
Qed.

Lemma dict_get_setdefault_ne d k k' v :
  k ≠ k' -> dict_get k' (dict_setdefault k v d) = dict_get k' d.
Proof.
  intros Hne. unfold dict_setdefault. destruct (dict_has k d); [done|].
  destruct (dict_get k' d) as [x|] eqn:Hx.
  - by apply dict_get_app_l.
  - rewrite dict_get_app_r by done. simpl. by rewrite decide_False.
Qed.
End SetDefault.

Lemma column_defaults (col col' : json) :
  (col1 ← py_setdefault col "nullable" (JBool false);
   col2 ← py_setdefault col1 "isPrimaryKey" (JBool false);
   py_setdefault col2 "isForeignKey" (JBool false)) = Ok col' ->
  has_defaults col'.
Proof.
  destruct col as [| | | | | |c]; simpl; try discriminate.
  intros ?. simplify_eq. eexists. split; [done|].
  split; [|split].
  - do 2 apply dict_has_setdefault_mono. apply dict_has_setdefault.
  - apply dict_has_setdefault_mono. apply dict_has_setdefault.
  - apply dict_has_setdefault.
Qed.

Lemma default_node_typed (node node' : json) :
  default_node node = Ok node' -> typed_node node'.
Proof.
  unfold default_node. intros Hn.
  bind_inv Hn. rename a into node1.
  destruct node as [| | | | | |d]; simpl in Ha; try discriminate.
  simplify_eq. simpl in Hn.
  bind_inv Hn. rename a into cols. bind_inv Hn. rename a into cols'.
  set (d1 := dict_setdefault (txt "type") (JStr (txt "table")) d) in *.
  assert (dict_has (txt "type") d1 = true) as Htype
    by apply dict_has_setdefault.
  assert (Forall has_defaults cols') as Hcols.
  { apply map_result_Forall2 in Ha0. clear -Ha0.
    induction Ha0 as [|x y l l' Hxy _ IH]; constructor; [|done].
    by eapply column_defaults. }
  destruct (dict_get (txt "columns") d1) as [columns|] eqn:Hget; simpl in *.
  - destruct columns; simplify_eq;
      try (eexists; split; [done|]; split; [done|];
           intros ? ?; congruence).
    rewrite (dict_get_has _ _ _ Hget).
    eexists. split; [done|]. split.
    + rewrite dict_has_set. by rewrite Htype, orb_true_r.
    + intros cols0. rewrite dict_get_set_eq. intros ?. by simplify_eq.
  - simplify_eq. unfold dict_has. rewrite Hget.
    eexists. split; [done|]. split; [done|]. intros ?. by rewrite Hget.
Qed.

(** X4: in what [parse_erd_json] returns, every node of the list "nodes"
    is a dict with a key "type", and every column of a list "columns" is a
    dict with the keys "nullable", "isPrimaryKey" and "isForeignKey". *)
Theorem parse_erd_json_nodes (json_loads : str -> result json)
    (response : str) (parsed : json) (nodes : list json) :
  parse_erd_json json_loads response = Ok (Some parsed) ->
  py_item parsed "nodes" = Ok (JArr nodes) ->
  Forall typed_node nodes.
Proof.
  unfold parse_erd_json, try_except.
  destruct (parse_erd_json_body json_loads response) as [parsed'|e] eqn:Hbody;
    simpl; [|discriminate].
  intros ? Hnodes. simplify_eq.
  unfold parse_erd_json_body in Hbody.
  destruct (search json_object_re response) as [[[a b] ms]|]; [|discriminate].
  bind_inv Hbody. rename a0 into parsed0.
  bind_inv Hbody. rename a0 into nodes0.
  bind_inv Hbody. rename a0 into parsed1.
  bind_inv Hbody. rename a0 into has_nodes.
  bind_inv Hbody. rename a0 into has_edges.
  destruct has_nodes, has_edges; simpl in Hbody; try discriminate.
  bind_inv Hbody. rename a0 into nodes1.
  bind_inv Hbody. rename a0 into items.
  bind_inv Hbody. rename a0 into items'.
  assert (Forall typed_node items') as Htyped.
  { apply map_result_Forall2 in Ha6. clear -Ha6.
    induction Ha6 as [|x y l l' Hxy _ IH]; constructor; [|done].
    by eapply default_node_typed. }
  destruct parsed1 as [| | | | | |d1]; simpl in Ha4; try discriminate.
  destruct nodes1; simplify_eq; simpl in Hnodes;
    try (destruct (dict_get (txt "nodes") d1); simplify_eq; fail).
  rewrite dict_get_set_eq in Hnodes. by simplify_eq.
Qed.

Lemma hoist_edges_inner (node node' : json) (extracted : list json) :
  hoist_edges node = Ok (extracted, node') -> extracted = inner_edges node.
Proof.
  unfold hoist_edges. intros Hh. bind_inv Hh. rename a into has.
  destruct has.
  - bind_inv Hh. rename a into inner. bind_inv Hh.
    destruct node as [| | | | | |nd]; simplify_eq. simpl in *.
    destruct (dict_get (txt "edges") nd); simplify_eq.
    by rewrite Ha1.
  - injection Hh as <- _. destruct node as [| | | | | |nd]; try done.
    simpl in Ha. injection Ha as Hhas. simpl.
    by rewrite (dict_has_false_get _ _ Hhas).
Qed.

Lemma hoisted_edges (nodes : list json) (hoisted : list (list json * json)) :
  map_result hoist_edges nodes = Ok hoisted ->
  concat (map fst hoisted) = concat (map inner_edges nodes).
Proof.
  intros Hh%map_result_Forall2.
  induction Hh as [|x [ex y] l l' Hxy _ IH]; [done|].
  simpl. by rewrite IH, (hoist_edges_inner _ _ _ Hxy).
Qed.

(** X5: what [parse_erd_json] returns comes from the object decoded from
    the text of the response; when this object lists its nodes, the edges
    returned are the edges it lists at the top followed by the edges found
    inside its nodes, in the order of the nodes. *)
Theorem parse_erd_json_edges (json_loads : str -> result json)
    (response : str) (parsed : json) :
  parse_erd_json json_loads response = Ok (Some parsed) ->
  exists json_str decoded,
    json_text response = Some json_str
    /\ json_loads json_str = Ok decoded
    /\ forall nodes,
         py_item decoded "nodes" = Ok (JArr nodes) ->
         py_item parsed "edges"
         = Ok (JArr (top_edges decoded ++ concat (map inner_edges nodes))).
Proof.
  unfold parse_erd_json, try_except, json_text.
  destruct (parse_erd_json_body json_loads response) as [parsed'|e] eqn:Hbody;
    simpl; [|discriminate].
  intros ?. simplify_eq.
  unfold parse_erd_json_body in Hbody.
  destruct (search json_object_re response) as [[[a b] ms]|]; [|discriminate].
  bind_inv Hbody. rename a0 into decoded.
  eexists _, decoded. split; [reflexivity|]. split; [exact Ha|].
  intros nodes Hnodes.
  bind_inv Hbody. rename a0 into nodes0.
  bind_inv Hbody. rename a0 into parsed1.
  bind_inv Hbody. rename a0 into has_nodes.
  bind_inv Hbody. rename a0 into has_edges.
  destruct has_nodes, has_edges; simpl in Hbody; try discriminate.
  bind_inv Hbody. rename a0 into nodes1.
  bind_inv Hbody. rename a0 into items.
  bind_inv Hbody. rename a0 into items'.
  destruct decoded as [| | | | | |d]; simpl in Hnodes; try discriminate.
  simpl in Ha0.
  destruct (dict_get (txt "nodes") d) as [v|]; [|discriminate].
  simplify_eq. simpl in Ha1.
  bind_inv Ha1. rename a0 into hoisted.
  rewrite dict_get_set_ne in Ha1 by discriminate.
  assert (py_item parsed1 "edges"
          = Ok (JArr (top_edges (JObj d)
                      ++ concat (map inner_edges nodes)))) as Hedges.
  { rewrite <- (hoisted_edges _ _ Ha0). simpl.
    destruct (dict_get (txt "edges") d) as [edges|] eqn:Hget.
    - destruct edges; simplify_eq. simpl. by rewrite dict_get_set_eq.
    - simplify_eq. simpl. by rewrite dict_get_set_eq. }
  destruct parsed1 as [| | | | | |d1]; simpl in Hedges; try discriminate.
  destruct nodes1; simplify_eq; try done.
  simpl. by rewrite dict_get_set_ne by discriminate.
Qed.

Lemma occurs_in_refl (s : str) : occurs_in s s.
Proof. exists [], []. by rewrite app_nil_r. Qed.

Lemma occurs_in_trans (r s t : str) :
  occurs_in r s -> occurs_in s t -> occurs_in r t.
Proof.
  intros (a & b & ->) (a' & b' & ->). exists (a' ++ a), (b ++ b').
  by rewrite <- !app_assoc.
Qed.

Lemma occurs_in_take (n : nat) (s : str) : occurs_in (take n s) s.
Proof. exists [], (drop n s). simpl. by rewrite take_drop. Qed.

Lemma occurs_in_drop (n : nat) (s : str) : occurs_in (drop n s) s.
Proof. exists (take n s), []. by rewrite app_nil_r, take_drop. Qed.

Lemma rstrip_by_ends (p : ascii -> bool) (s : str) :
  ends_outside p (rstrip_by p s).
Proof.
  unfold rstrip_by.
  assert (forall t, drop_while p t = []
                    \/ exists c u, drop_while p t = c :: u /\ p c = false)
    as Hdw.
  { induction t as [|x t IH]; simpl; [by left|].
    destruct (p x) eqn:Hx; [done|]. right. eauto. }
  destruct (Hdw (rev s)) as [->|(c & u & -> & Hc)]; [by left|].
  right. exists (rev u), c. by simpl.
Qed.

Lemma ends_outside_drop (p : ascii -> bool) (n : nat) (s : str) :
  ends_outside p s -> ends_outside p (drop n s).
Proof.
  intros [->|(a & c & -> & Hc)]; [left; by destruct n|].
  destruct (decide (n <= length a)) as [Hle|Hgt].
  - right. exists (drop n a), c. split; [|done].
    by rewrite drop_app_le.
  - left. apply drop_ge. rewrite length_app. simpl. lia.
Qed.

Lemma ends_outside_tail (p : ascii -> bool) (c : ascii) (s : str) :
  ends_outside p (c :: s) -> ends_outside p s.
Proof. apply (ends_outside_drop p 1). Qed.

(** In a text that does not end with white space, the closing fence is
    found at the end only: removing it leaves a prefix. *)
Lemma sub_fence_close_take (s : str) :
  forall i, ends_outside is_space s ->
            exists m, sub_loop fence_close_re [] i 0 s = take m s.
Proof.
  induction s as [|c s IH]; intros i Hend.
  - exists 0. simpl. by destruct (run fence_close_re i [] []).
  - rewrite sub_loop_cons.
    destruct (run fence_close_re i (c :: s) []) as [[j ms]|] eqn:Hrun.
    + exists 0.
      pose proof (run_bounds _ _ _ _ _ _ Hrun) as Hb.
      change fence_close_re with ((Star is_space :: lit "```") ++ [Eol])
        in Hrun.
      apply run_eol in Hrun.
      apply (ends_outside_drop _ (j - i)) in Hend.
      assert (drop (j - i) (c :: s) = []) as Hnil.
      { destruct Hend as [?|(a & x & Heq & Hx)]; [done|].
        rewrite Heq in Hrun. destruct a as [|y [|z a]]; simpl in Hrun;
          try done.
        apply Ascii.eqb_eq in Hrun. subst x. done. }
      destruct (Nat.eqb j i) eqn:Hj.
      * apply Nat.eqb_eq in Hj. subst j. by rewrite Nat.sub_diag in Hnil.
      * by rewrite Hnil.
    + destruct (IH (S i) (ends_outside_tail _ _ _ Hend)) as (m & ->).
      by exists (S m).
Qed.

Lemma cleaned_text_occurs (raw_str : str) :
  occurs_in (cleaned_text raw_str) raw_str.
Proof.
  unfold cleaned_text.
  pose proof (rstrip_by_ends is_space (lstrip_by is_space raw_str)) as Hend.
  fold (strip raw_str) in Hend.
  assert (occurs_in (strip raw_str) raw_str) as Hstrip.
  { unfold strip, lstrip_by.
    destruct (rstrip_by_take is_space (drop_while is_space raw_str))
      as (m & -> & _).
    destruct (drop_while_drop is_space raw_str) as (n & -> & _).
    eapply occurs_in_trans; [apply occurs_in_take|apply occurs_in_drop]. }
  destruct (sub_bol_empty (lit_ci "```json" ++ [Star is_space])
              (strip raw_str)) as (n & _ & Hopen & _).
  change (Bol :: lit_ci "```json" ++ [Star is_space]) with fence_open_re
    in Hopen.
  rewrite Hopen.
  destruct (sub_fence_close_take (drop n (strip raw_str)) 0) as (m & Hm).
  { by apply ends_outside_drop. }
  unfold sub. rewrite Hm.
  eapply occurs_in_trans; [apply occurs_in_take|].
  eapply occurs_in_trans; [apply occurs_in_drop|done].
Qed.

(** X7: what [clean_json_string] returns is a piece of its input that
    starts with an opening brace and ends with the brace that closes
    it. *)
Theorem clean_json_string_result (raw_str result : str) :
  clean_json_string raw_str = Ok result ->
  balanced_object result /\ occurs_in result raw_str.
Proof.
  intros Hraw.
  unfold clean_json_string in Hraw. fold (cleaned_text raw_str) in Hraw.
  destruct (find_char lbrace (cleaned_text raw_str)) as [k|] eqn:Hfind;
    [|done].
  destruct (scan_braces 0 k (drop k (cleaned_text raw_str)))
    as [i|] eqn:Hscan; [|done].
  simplify_eq. split.
  - apply find_char_Some in Hfind as (_ & t & Ht).
    rewrite Ht in Hscan. unfold slice. rewrite Ht.
    rewrite scan_braces_step in Hscan. simpl in Hscan.
    change (0 + brace_value lbrace)%Z with 1%Z in Hscan.
    pose proof (scan_braces_spec t 1 (S k) ltac:(lia)) as Hspec.
    rewrite Hscan in Hspec. destruct Hspec as (m & -> & Hm & Hz & Hmin).
    replace (S k + m + 1 - k) with (S (S m)) by lia.
    cbn [take]. split; [eauto|]. split.
    + simpl. change (brace_value lbrace) with 1%Z. lia.
    + intros n Hn. simpl in Hn. rewrite length_take in Hn.
      destruct n as [|n]; [lia|]. cbn [take]. rewrite take_take.
      simpl. change (brace_value lbrace) with 1%Z.
      destruct n as [|n]; [simpl; lia|].
      replace (S n `min` S m) with (S n) by lia.
      apply Hmin. lia.
  - eapply occurs_in_trans; [|apply cleaned_text_occurs].
    unfold slice.
    eapply occurs_in_trans; [apply occurs_in_take|apply occurs_in_drop].
Qed.

(* ------------------------------------------------------------------ *)
(** ** The matcher finds a match exactly when there is one *)
(* ------------------------------------------------------------------ *)

Lemma matches_bounds (r : regex) i s n : matches r i s n -> n <= length s.
Proof. induction 1; simpl; lia. Qed.

Lemma matches_Star_run (p : ascii -> bool) (r : regex) :
  forall n0 i s n,
    n0 <= length s ->
    Forall (fun c => p c = true) (take n0 s) ->
    matches r (i + n0) (drop n0 s) n ->
    matches (Star p :: r) i s (n0 + n).
Proof.
  induction n0 as [|n0 IH]; intros i s n Hn0 Hall Hm.
  - rewrite Nat.add_0_r in Hm. by constructor.
  - destruct s as [|c s]; simpl in Hn0; [lia|].
    simpl in Hall. apply Forall_cons in Hall as [Hc Hall].
    simpl. apply matches_Star_more; [done|].
    apply IH; [lia|done|]. by rewrite Nat.add_succ_comm.
Qed.

Lemma matches_StarLazy_run (p : ascii -> bool) (r : regex) :
  forall n0 i s n,
    n0 <= length s ->
    Forall (fun c => p c = true) (take n0 s) ->
    matches r (i + n0) (drop n0 s) n ->
    matches (StarLazy p :: r) i s (n0 + n).
Proof.
  induction n0 as [|n0 IH]; intros i s n Hn0 Hall Hm.
  - rewrite Nat.add_0_r in Hm. by constructor.
  - destruct s as [|c s]; simpl in Hn0; [lia|].
    simpl in Hall. apply Forall_cons in Hall as [Hc Hall].
    simpl. apply matches_StarLazy_more; [done|].
    apply IH; [lia|done|]. by rewrite Nat.add_succ_comm.
Qed.

(** What the matcher returns is a match. *)
Lemma run_matches (r : regex) :
  forall i s ms j ms',
    run r i s ms = Some (j, ms') -> exists n, j = i + n /\ matches r i s n.
Proof.
  induction r as [|a r IH]; intros i s ms j ms' Hrun.
  - simpl in Hrun. simplify_eq. exists 0. split; [lia|constructor].
  - destruct a; simpl in Hrun.
    + destruct s as [|c s]; [done|]. destruct (p c) eqn:Hc; [|done].
      destruct (IH _ _ _ _ _ Hrun) as (n & -> & Hn).
      exists (S n). split; [lia|]. by constructor.
    + destruct (Nat.eqb i 0) eqn:Hi; [|done]. apply Nat.eqb_eq in Hi as ->.
      destruct (IH _ _ _ _ _ Hrun) as (n & -> & Hn).
      exists n. split; [done|]. by constructor.
    + destruct (at_eol s) eqn:He; [|done].
      destruct (IH _ _ _ _ _ Hrun) as (n & -> & Hn).
      exists n. split; [done|]. by constructor.
    + apply star_greedy_inv in Hrun as (n0 & Hn0 & Hall & Hk).
      destruct (IH _ _ _ _ _ Hk) as (n & -> & Hn).
      exists (n0 + n). split; [lia|]. by apply matches_Star_run.
    + apply star_lazy_inv in Hrun as (n0 & Hn0 & Hall & Hk & _).
      destruct (IH _ _ _ _ _ Hk) as (n & -> & Hn).
      exists (n0 + n). split; [lia|]. by apply matches_StarLazy_run.
    + assert (run r i s ms = Some (j, ms') ->
              exists n, j = i + n /\ matches (Opt p :: r) i s n) as Hskip.
      { intros Hr. destruct (IH _ _ _ _ _ Hr) as (n & -> & Hn).
        exists n. split; [done|]. by constructor. }
      destruct s as [|c s]; [by apply Hskip|].
      destruct (p c) eqn:Hc; [|by apply Hskip].
      destruct (run r (S i) s ms) as [y|] eqn:Hrec; [|by apply Hskip].
      simplify_eq. destruct (IH _ _ _ _ _ Hrec) as (n & -> & Hn).
      exists (S n). split; [lia|]. by apply matches_Opt_take.
    + destruct (IH _ _ _ _ _ Hrun) as (n & -> & Hn).
      exists n. split; [done|]. by constructor.
Qed.

(** Where there is a match, the matcher returns one. *)
Lemma matches_run (r : regex) i s n :
  matches r i s n -> forall ms, is_Some (run r i s ms).
Proof.
  induction 1 as [i s|p r i c s n Hc _ IH|r s n _ IH|r i s n He _ IH
                  |r i s n _ IH|p r i s n _ IH|p r i c s n Hc _ IH
                  |p r i s n _ IH|p r i c s n Hc _ IH
                  |p r i s n _ IH|p r i c s n Hc _ IH]; intros ms.
  - by eexists.
  - simpl. rewrite Hc. apply IH.
  - simpl. apply IH.
  - simpl. rewrite He. apply IH.
  - simpl. apply IH.
  - simpl. destruct s as [|c s]; [apply IH|].
    destruct (p c); [|apply IH].
    destruct (run r (S i) s ms); [by eexists|apply IH].
  - simpl. rewrite Hc. destruct (IH ms) as [x ->]. by eexists.
  - simpl. destruct (IH ms) as [x Hx].
    destruct s as [|c s]; simpl; [by rewrite Hx; eexists|].
    destruct (p c); [|by rewrite Hx; eexists].
    destruct (star_greedy _ _ _ _); [by eexists|by rewrite Hx; eexists].
  - simpl. rewrite Hc. simpl in IH. destruct (IH ms) as [x ->].
    by eexists.
  - simpl. destruct (IH ms) as [x Hx].
    destruct s as [|c s]; simpl; by rewrite Hx; eexists.
  - simpl. simpl in IH. destruct (run r i (c :: s) ms); [by eexists|].
    rewrite Hc. apply IH.
Qed.

Lemma matches_app (r1 r2 : regex) i s n1 n2 :
  matches r1 i s n1 -> matches r2 (i + n1) (drop n1 s) n2 ->
  matches (r1 ++ r2) i s (n1 + n2).
Proof.
  induction 1 as [i s|p r i c s n Hc _ IH|r s n _ IH|r i s n He _ IH
                  |r i s n _ IH|p r i s n _ IH|p r i c s n Hc _ IH
                  |p r i s n _ IH|p r i c s n Hc _ IH
                  |p r i s n _ IH|p r i c s n Hc _ IH]; intros H2; simpl in *.
  - by rewrite Nat.add_0_r in H2.
  - constructor; [done|]. apply IH.
    by rewrite <- Nat.add_succ_comm in H2.
  - constructor. by apply IH.
  - constructor; [done|]. by apply IH.
  - constructor. by apply IH.
  - constructor. by apply IH.
  - apply matches_Opt_take; [done|]. apply IH.
    by rewrite <- Nat.add_succ_comm in H2.
  - constructor. by apply IH.
  - apply matches_Star_more; [done|]. apply IH.
    by rewrite <- Nat.add_succ_comm in H2.
  - constructor. by apply IH.
  - apply matches_StarLazy_more; [done|]. apply IH.
    by rewrite <- Nat.add_succ_comm in H2.
Qed.

Lemma matches_app_inv (r1 r2 : regex) :
  forall i s n,
    matches (r1 ++ r2) i s n ->
    exists n1 n2, n = n1 + n2 /\ matches r1 i s n1
                  /\ matches r2 (i + n1) (drop n1 s) n2.
Proof.
  induction r1 as [|a r1 IH]; intros i s n Hm.
  - exists 0, n. rewrite Nat.add_0_r. split; [done|]. split; [constructor|done].
  - simpl in Hm. remember (a :: r1 ++ r2) as r eqn:Hr.
    induction Hm as [i s|p r i c s n Hc Hm _|r s n Hm _|r i s n He Hm _
                  |r i s n Hm _|p r i s n Hm _|p r i c s n Hc Hm _
                  |p r i s n Hm _|p r i c s n Hc Hm IHm
                  |p r i s n Hm _|p r i c s n Hc Hm IHm];
      simplify_eq.
    + destruct (IH _ _ _ Hm) as (n1 & n2 & -> & H1 & H2).
      exists (S n1), n2. split; [done|]. split; [by constructor|].
      by rewrite <- Nat.add_succ_comm.
    + destruct (IH _ _ _ Hm) as (n1 & n2 & -> & H1 & H2).
      exists n1, n2. split; [done|]. split; [by constructor|done].
    + destruct (IH _ _ _ Hm) as (n1 & n2 & -> & H1 & H2).
      exists n1, n2. split; [done|]. split; [by constructor|done].
    + destruct (IH _ _ _ Hm) as (n1 & n2 & -> & H1 & H2).
      exists n1, n2. split; [done|]. split; [by constructor|done].
    + destruct (IH _ _ _ Hm) as (n1 & n2 & -> & H1 & H2).
      exists n1, n2. split; [done|]. split; [by constructor|done].
    + destruct (IH _ _ _ Hm) as (n1 & n2 & -> & H1 & H2).
      exists (S n1), n2. split; [done|].
      split; [by apply matches_Opt_take|].
      by rewrite <- Nat.add_succ_comm.
    + destruct (IH _ _ _ Hm) as (n1 & n2 & -> & H1 & H2).
      exists n1, n2. split; [done|]. split; [by constructor|done].
    + destruct (IHm eq_refl) as (n1 & n2 & -> & H1 & H2).
      exists (S n1), n2. split; [done|].
      split; [by apply matches_Star_more|].
      by rewrite <- Nat.add_succ_comm.
    + destruct (IH _ _ _ Hm) as (n1 & n2 & -> & H1 & H2).
      exists n1, n2. split; [done|]. split; [by constructor|done].
    + destruct (IHm eq_refl) as (n1 & n2 & -> & H1 & H2).
      exists (S n1), n2. split; [done|].
      split; [by apply matches_StarLazy_more|].
      by rewrite <- Nat.add_succ_comm.
Qed.

(** A match of a pattern without anchors depends only on the characters
    it covers. *)
Lemma matches_local (r : regex) i s n :
  unanchored r -> matches r i s n ->
  forall i' s', take n s' = take n s -> n <= length s' -> matches r i' s' n.
Proof.
  intros Hr Hm.
  induction Hm as [i s|p r i c s n Hc Hm IH|r s n Hm IH|r i s n He Hm IH
                  |r i s n Hm IH|p r i s n Hm IH|p r i c s n Hc Hm IH
                  |p r i s n Hm IH|p r i c s n Hc Hm IH
                  |p r i s n Hm IH|p r i c s n Hc Hm IH];
    intros i' s' Htake Hlen.
  - constructor.
  - apply Forall_cons in Hr as [_ Hr].
    destruct s' as [|c' s']; simpl in *; [lia|]. simplify_eq.
    constructor; [done|]. apply IH; [done|done|lia].
  - apply Forall_cons in Hr as [[? _] _]. done.
  - apply Forall_cons in Hr as [[_ ?] _]. done.
  - apply Forall_cons in Hr as [_ Hr]. constructor. by apply IH.
  - apply Forall_cons in Hr as [_ Hr]. constructor. by apply IH.
  - apply Forall_cons in Hr as [_ Hr].
    destruct s' as [|c' s']; simpl in *; [lia|]. simplify_eq.
    apply matches_Opt_take; [done|]. apply IH; [done|done|lia].
  - apply Forall_cons in Hr as [_ Hr]. constructor. by apply IH.
  - destruct s' as [|c' s']; simpl in *; [lia|]. simplify_eq.
    apply matches_Star_more; [done|]. apply IH; [done|done|lia].
  - apply Forall_cons in Hr as [_ Hr]. constructor. by apply IH.
  - destruct s' as [|c' s']; simpl in *; [lia|]. simplify_eq.
    apply matches_StarLazy_more; [done|]. apply IH; [done|done|lia].
Qed.

(** The marks of a pattern do not change what it matches. *)
Lemma matches_Mark_iff (r : regex) i s n :
  matches (Mark :: r) i s n <-> matches r i s n.
Proof. split; [by inversion 1|by constructor]. Qed.

Lemma matches_accepts (r : regex) i s n :
  matches r i s n -> Forall (fun c => accepts r c = true) (take n s).
Proof.
  assert (forall a r l,
             Forall (fun c => accepts r c = true) l ->
             Forall (fun c => accepts (a :: r) c = true) l) as Hweak.
  { intros a r0 l Hl. eapply Forall_impl; [exact Hl|]. intros c Hc.
    unfold accepts in *. simpl. by rewrite Hc, orb_true_r. }
  assert (forall a r c, atom_accepts a c = true ->
                        accepts (a :: r) c = true) as Hhead.
  { intros a r0 c Hc. unfold accepts. simpl. by rewrite Hc. }
  induction 1 as [i s|p r i c s n Hc _ IH|r s n _ IH|r i s n He _ IH
                  |r i s n _ IH|p r i s n _ IH|p r i c s n Hc _ IH
                  |p r i s n _ IH|p r i c s n Hc _ IH
                  |p r i s n _ IH|p r i c s n Hc _ IH]; cbn [take];
    try (by apply Hweak); try (by constructor).
  - constructor; [by apply Hhead|by apply Hweak].
  - constructor; [by apply Hhead|by apply Hweak].
  - constructor; [by apply Hhead|done].
  - constructor; [by apply Hhead|done].
Qed.

(* ------------------------------------------------------------------ *)
(** ** Names read by the patterns *)
(* ------------------------------------------------------------------ *)

(** The group [(\w+)] followed by [\]?]: the marks are the ends of a run of
    word characters that is not empty. *)
Lemma run_name_group (i : nat) (s : str) (ms : list nat) (j : nat)
    (ms' : list nat) :
  run ([Mark] ++ plus is_word ++ [Mark; Opt (Text.eqb "]")]) i s ms
  = Some (j, ms') ->
  exists m, ms' = (i + S m) :: i :: ms
            /\ S m <= length s
            /\ Forall (fun c => is_word c = true) (take (S m) s).
Proof.
  cbn [app plus]. rewrite run_Mark. intros Hrun.
  destruct s as [|c s]; [done|]. rewrite run_Ch in Hrun.
  destruct (is_word c) eqn:Hc; [|done]. rewrite run_Star in Hrun.
  apply star_greedy_inv in Hrun as (m & Hm & Hall & Hk).
  rewrite run_Mark in Hk.
  assert (ms' = (S i + m) :: i :: ms) as ->.
  { destruct (drop m s) as [|d t]; cbn [run] in Hk; [by simplify_eq|].
    destruct (Text.eqb "]" d); by simplify_eq. }
  exists m. split; [f_equal; lia|]. split; [simpl; lia|].
  cbn [take]. by constructor.
Qed.

Lemma table_name_re_parts :
  table_name_re
  = (lit_ci "CREATE TABLE" ++ plus is_space ++ [Opt (Text.eqb "[")])
    ++ [Mark] ++ plus is_word ++ [Mark; Opt (Text.eqb "]")].
Proof. reflexivity. Qed.

(** What a regular expression reads as a name is a good name. *)
Lemma group1_name (r0 : regex) (text : str) (i : nat) (j : nat)
    (ms : list nat) :
  Forall (fun a => a ≠ Mark) r0 ->
  run (r0 ++ [Mark] ++ plus is_word ++ [Mark; Opt (Text.eqb "]")])
      i (drop i text) [] = Some (j, ms) ->
  good_name (group1 text (i, j, ms))
  /\ occurs_in (group1 text (i, j, ms)) text.
Proof.
  intros Hr0 Hrun.
  apply run_app_inv in Hrun as (n & Hn & _ & Hrun); [|done].
  apply run_name_group in Hrun as (m & -> & Hm & Hword).
  cbn [group1]. unfold slice. rewrite drop_drop in Hword, Hm.
  replace (i + n + S m - (i + n)) with (S m) by lia.
  split; [split|].
  - intros Hnil. apply (f_equal length) in Hnil.
    rewrite length_take in Hnil. simpl length in Hnil. lia.
  - done.
  - eapply occurs_in_trans; [apply occurs_in_take|apply occurs_in_drop].
Qed.

Lemma match_start_name (table_sql : str) (j : nat) (ms : list nat) :
  match_start table_name_re table_sql = Some (j, ms) ->
  good_name (group1 table_sql (0, j, ms)).
Proof.
  unfold match_start. rewrite table_name_re_parts. intros Hrun.
  apply (group1_name _ table_sql 0) in Hrun as [Hgood _]; [done|].
  unfold lit_ci, plus. simpl. repeat constructor; discriminate.
Qed.

Lemma extract_table_name_nonempty (table_sql : str) :
  nonempty (extract_table_name table_sql) = true.
Proof.
  unfold extract_table_name.
  destruct (match_start table_name_re table_sql) as [[j ms]|] eqn:Hrun;
    [|done].
  apply match_start_name in Hrun as [Hne _].
  by destruct (group1 table_sql (0, j, ms)).
Qed.

(** X12: the name [extract_table_name] returns is never empty: it is a run
    of word characters, read from the header or the fallback "Unknown". *)
Theorem extract_table_name_good (table_sql : str) :
  good_name (extract_table_name table_sql).
Proof.
  unfold extract_table_name.
  destruct (match_start table_name_re table_sql) as [[j ms]|] eqn:Hrun.
  - by apply match_start_name.
  - split; [discriminate|]. vm_compute. repeat constructor.
Qed.

(* ------------------------------------------------------------------ *)
(** ** re.findall *)
(* ------------------------------------------------------------------ *)

(** Every item of [re.findall] is a match of the pattern at its place. *)
Lemma findall_loop_elem (r : regex) :
  forall len s, length s = len ->
    forall i x, x ∈ findall_loop r i 0 s ->
      exists k j ms, x = (i + k, j, ms) /\ k <= length s
                     /\ run r (i + k) (drop k s) [] = Some (j, ms).
Proof.
  induction len as [len IH] using lt_wf_ind. intros s Hlen i x Hx.
  destruct s as [|c s].
  - simpl in Hx. destruct (run r i [] []) as [[j ms]|] eqn:Hrun;
      [|by apply elem_of_nil in Hx].
    apply list_elem_of_singleton in Hx as ->.
    exists 0, j, ms. rewrite Nat.add_0_r. by split; [|split; [simpl; lia|]].
  - rewrite findall_loop_cons in Hx.
    destruct (run r i (c :: s) []) as [[j ms]|] eqn:Hrun.
    + apply elem_of_cons in Hx as [->|Hx].
      * exists 0, j, ms. rewrite Nat.add_0_r.
        by split; [|split; [simpl; lia|]].
      * pose proof (run_bounds _ _ _ _ _ _ Hrun) as Hb. simpl in Hb.
        set (d := Nat.max j (S i) - i) in *.
        assert (0 < d <= length (c :: s)) as Hd by (unfold d; simpl; lia).
        eapply (IH (length (drop d (c :: s)))) in Hx; [| |done].
        2:{ rewrite length_drop. simpl in *. lia. }
        destruct Hx as (k & j' & ms' & -> & Hk & Hrun').
        rewrite length_drop in Hk. rewrite drop_drop in Hrun'.
        exists (d + k), j', ms'.
        replace (Nat.max j (S i)) with (i + d) in * by (unfold d; lia).
        rewrite <- Nat.add_assoc in *.
        split; [done|]. split; [simpl in *; lia|done].
    + eapply (IH (length s)) in Hx; [|simpl in Hlen; lia|done].
      destruct Hx as (k & j' & ms' & -> & Hk & Hrun').
      exists (S k), j', ms'. rewrite <- Nat.add_succ_comm.
      split; [done|]. split; [simpl; lia|done].
Qed.

Lemma findall_elem (r : regex) (s : str) (x : nat * nat * list nat) :
  x ∈ findall r s ->
  exists k j ms, x = (k, j, ms) /\ k <= length s
                 /\ run r k (drop k s) [] = Some (j, ms).
Proof.
  intros Hx. eapply findall_loop_elem in Hx; [|done].
  destruct Hx as (k & j & ms & -> & Hk & Hrun). by exists k, j, ms.
Qed.

Lemma matches_unmark (r : regex) i s n :
  matches r i s n <-> matches (unmark r) i s n.
Proof.
  split.
  - induction 1 as [i s|p r i c s n Hc _ IH|r s n _ IH|r i s n He _ IH
                  |r i s n _ IH|p r i s n _ IH|p r i c s n Hc _ IH
                  |p r i s n _ IH|p r i c s n Hc _ IH
                  |p r i s n _ IH|p r i c s n Hc _ IH]; simpl in *;
      try (by constructor); try done.
  - revert i s n. induction r as [|a r IH]; intros i s n Hm; [done|].
    destruct a; simpl in Hm; try (by constructor; apply IH).
    + inversion Hm; subst. constructor; [done|]. by apply IH.
    + inversion Hm; subst. constructor. by apply IH.
    + inversion Hm; subst. constructor; [done|]. by apply IH.
    + remember (Star p :: unmark r) as r' eqn:Hr'.
      induction Hm; simplify_eq.
      * constructor. by apply IH.
      * apply matches_Star_more; [done|]. by apply IHHm.
    + remember (StarLazy p :: unmark r) as r' eqn:Hr'.
      induction Hm; simplify_eq.
      * constructor. by apply IH.
      * apply matches_StarLazy_more; [done|]. by apply IHHm.
    + inversion Hm; subst.
      * constructor. by apply IH.
      * apply matches_Opt_take; [done|]. by apply IH.
Qed.

Lemma unmark_table_name_re : unmark table_name_re = table_head_re.
Proof. reflexivity. Qed.

Lemma table_head_re_unanchored : unanchored table_head_re.
Proof.
  unfold unanchored, table_head_re, lit_ci, plus. simpl.
  repeat constructor; discriminate.
Qed.

(** X13: every block [split_schema_to_tables] returns is a piece of the
    text that ends with [);] and starts with a header from which
    [extract_table_name] reads a name. *)
Theorem split_schema_to_tables_blocks (schema_text block : str) :
  block ∈ split_schema_to_tables schema_text ->
  occurs_in block schema_text
  /\ (exists body, block = body ++ txt ");")
  /\ is_Some (match_start table_name_re block).
Proof.
  unfold split_schema_to_tables. intros Hb.
  apply list_elem_of_fmap in Hb as (x & -> & Hx).
  apply findall_elem in Hx as (k & j & ms & -> & Hk & Hrun).
  destruct (run_matches _ _ _ _ _ _ Hrun) as (len & Hj & Hm).
  apply run_table_block in Hrun as (n & p & t & -> & -> & Hn & _ & Hdrop & _).
  cbn [group1]. unfold slice.
  replace (k + n + p + 2 - k) with (n + p + 2) by lia.
  assert (len = n + p + 2) as -> by lia.
  set (s := drop k schema_text) in *.
  assert (n + p + 2 <= length s) as Hlen.
  { apply (f_equal length) in Hdrop. rewrite length_drop in Hdrop.
    simpl in Hdrop. lia. }
  split; [|split].
  - eapply occurs_in_trans; [apply occurs_in_take|apply occurs_in_drop].
  - exists (take (n + p) s).
    rewrite <- (take_drop (n + p) s) at 1.
    rewrite take_app_ge by (rewrite length_take; lia).
    rewrite length_take. replace (n + p + 2 - (n + p) `min` length s)
      with 2 by lia.
    by rewrite Hdrop.
  - rewrite table_block_re_parts in Hm.
    apply (proj1 (matches_Mark_iff _ _ _ _)) in Hm.
    apply matches_app_inv in Hm as (n1 & n2 & Hsum & Hhead & _).
    unfold match_start. apply (matches_run _ _ _ n1).
    apply matches_unmark. rewrite unmark_table_name_re.
    eapply matches_local; [apply table_head_re_unanchored|exact Hhead| |].
    + rewrite take_take. f_equal. lia.
    + rewrite length_take. lia.
Qed.

Lemma foreign_key_re_parts :
  foreign_key_re
  = (lit_ci "FOREIGN" ++ plus is_space ++ lit_ci "KEY" ++ [Star is_space]
     ++ lit_ci "(" ++ plus not_rparen ++ lit_ci ")" ++ plus is_space
     ++ lit_ci "REFERENCES" ++ plus is_space ++ [Opt (Text.eqb "[")])
    ++ [Mark] ++ plus is_word ++ [Mark; Opt (Text.eqb "]")].
Proof. reflexivity. Qed.

(** X14: every target [extract_foreign_key_targets] returns is a run of
    word characters, not empty, that occurs in the block. *)
Theorem extract_foreign_key_targets_names (table_sql target : str) :
  target ∈ extract_foreign_key_targets table_sql ->
  good_name target /\ occurs_in target table_sql.
Proof.
  unfold extract_foreign_key_targets. rewrite elem_of_list_to_set.
  intros Ht. apply list_elem_of_fmap in Ht as (x & -> & Hx).
  apply findall_elem in Hx as (k & j & ms & -> & Hk & Hrun).
  rewrite foreign_key_re_parts in Hrun.
  apply group1_name in Hrun; [done|].
  unfold lit_ci, plus. simpl. repeat constructor; discriminate.
Qed.

(* ------------------------------------------------------------------ *)
(** ** The dependency graph and the chunks *)
(* ------------------------------------------------------------------ *)

Lemma dict_set_absent {K V : Type} `{EqDecision K} (d : list (K * V))
    (k : K) (v : V) :
  dict_has k d = false -> dict_set k v d = d ++ [(k, v)].
Proof.
  unfold dict_has. induction d as [|[k0 v0] d IH]; simpl; [done|].
  destruct (decide (k0 = k)) as [->|Hne]; [done|].
  intros Hd. by rewrite IH.
Qed.

Lemma nonempty_good_name (name : str) : good_name name -> nonempty name = true.
Proof. intros [Hne _]. by destruct name. Qed.

Lemma dependency_step_unfold (graph : gmap str (gset str))
    (table_map : list (str * str)) (ddl : str) :
  dependency_step (graph, table_map) ddl
  = (<[extract_table_name ddl := extract_foreign_key_targets ddl]> graph,
     dict_set (extract_table_name ddl) ddl table_map).
Proof.
  unfold dependency_step.
  by rewrite extract_table_name_nonempty.
Qed.

(** The two dicts of [build_dependency_graph]: the keys of [table_map] are
    the names in the order of their first block, each name holds its last
    block, and the graph holds the targets of that block. *)
Lemma build_dependency_graph_fold (tables : list str) :
  exists graph table_map,
    build_dependency_graph tables = (graph, table_map)
    /\ table_map.*1
       = map extract_table_name (first_wins extract_table_name tables)
    /\ (forall k, dict_get k table_map
                  = last_with_key extract_table_name k tables)
    /\ Forall (fun kv => extract_table_name kv.2 = kv.1) table_map
    /\ (forall k, graph !! k
                  = extract_foreign_key_targets <$> dict_get k table_map)
    /\ (NoDup (map extract_table_name tables) ->
        table_map = map (fun ddl => (extract_table_name ddl, ddl)) tables).
Proof.
  unfold build_dependency_graph.
  induction tables as [|x l IH] using rev_ind.
  - exists ∅, []. simpl. repeat split; auto.
  - destruct IH as (graph & d & Hfold & Hkeys & Hget & Hall & Hgraph & Hid).
    rewrite fold_left_app, Hfold. cbn [fold_left].
    rewrite dependency_step_unfold.
    eexists _, _. split; [done|].
    split; [|split; [|split; [|split]]].
    + rewrite first_wins_snoc.
      destruct (decide (extract_table_name x ∈ map extract_table_name l))
        as [Hin|Hnin].
      * rewrite dict_set_keys_present; [done|].
        apply dict_has_elem_of. rewrite Hkeys. by apply first_wins_keys.
      * rewrite dict_set_keys_absent.
        { by rewrite Hkeys, map_app. }
        apply not_true_is_false. rewrite dict_has_elem_of, Hkeys.
        by rewrite first_wins_keys.
    + intros k. rewrite last_with_key_snoc.
      destruct (decide (extract_table_name x = k)) as [<-|Hne].
      * apply dict_get_set_eq.
      * by rewrite dict_get_set_ne.
    + by apply dict_set_Forall.
    + intros k. destruct (decide (extract_table_name x = k)) as [<-|Hne].
      * by rewrite lookup_insert_eq, dict_get_set_eq.
      * rewrite lookup_insert_ne by done.
        by rewrite dict_get_set_ne.
    + rewrite map_app. intros [Hl [Hx _]]%NoDup_app.
      rewrite Hid by done. rewrite map_app. simpl.
      apply dict_set_absent. apply not_true_is_false.
      rewrite dict_has_elem_of. rewrite <- list_fmap_compose.
      intros Hin. apply (Hx _ Hin). left.
Qed.

Lemma chunk_tables_values (graph : gmap str (gset str))
    (table_map : list (str * str)) (max_columns_per_chunk : Z) :
  NoDup table_map.*1 ->
  chunk_tables graph table_map max_columns_per_chunk = Ok table_map.*2.
Proof.
  intros Hnd. unfold chunk_tables.
  assert (forall l, l ⊆ table_map ->
            map_result
              (fun table_name =>
                 match dict_get table_name table_map with
                 | Some ddl => Ok ddl
                 | None => Raise KeyError
                 end) (map fst l) = Ok l.*2) as Hsub.
  { induction l as [|[k v] l IH]; intros Hl; [done|].
    simpl. rewrite (dict_get_NoDup table_map k v Hnd) by set_solver.
    simpl. rewrite IH by set_solver. done. }
  by apply Hsub.
Qed.

Lemma dict_get_elem_of {K V : Type} `{EqDecision K} (d : list (K * V))
    (k : K) (v : V) :
  dict_get k d = Some v -> (k, v) ∈ d.
Proof.
  induction d as [|[k0 v0] d IH]; simpl; [done|].
  destruct (decide (k0 = k)) as [->|Hne]; intros Hg.
  - simplify_eq. left.
  - right. by apply IH.
Qed.


(** X15: [build_dependency_graph] files every block: the keys of
    [table_map] are the names of the blocks, each once; the graph has the
    same keys, and each name holds the foreign-key targets of the block
    that [table_map] holds for it. *)
Theorem build_dependency_graph_keys (tables : list str) :
  let graph := (build_dependency_graph tables).1 in
  let table_map := (build_dependency_graph tables).2 in
  NoDup table_map.*1
  /\ (forall name, name ∈ table_map.*1
                   <-> exists ddl, ddl ∈ tables
                                   /\ extract_table_name ddl = name)
  /\ dom graph = list_to_set table_map.*1
  /\ forall name ddl,
       dict_get name table_map = Some ddl ->
       extract_table_name ddl = name
       /\ graph !! name = Some (extract_foreign_key_targets ddl).
Proof.
  destruct (build_dependency_graph_fold tables)
    as (graph & d & -> & Hkeys & Hget & Hall & Hgraph & _).
  simpl. split; [|split; [|split]].
  - rewrite Hkeys. apply first_wins_NoDup.
  - intros name. rewrite Hkeys, first_wins_keys, list_elem_of_fmap.
    naive_solver.
  - apply set_eq. intros k. rewrite elem_of_dom, elem_of_list_to_set.
    rewrite Hgraph, <- dict_has_elem_of. unfold dict_has.
    destruct (dict_get k d); simpl.
    + split; [done|]. by eexists.
    + split; [by intros [? ?]|done].
  - intros name ddl Hd. split.
    + apply dict_get_elem_of in Hd. rewrite Forall_forall in Hall.
      by apply (Hall _ Hd).
    + by rewrite Hgraph, Hd.
Qed.

(** X16: the chunks of the blocks: one chunk for each name, in the order
    in which the names first occur; the chunk of a name is the last block
    with this name, so an earlier block with the same name is dropped;
    when the names are pairwise distinct the chunks are the blocks. *)
Theorem chunk_tables_of_blocks (tables : list str)
    (max_columns_per_chunk : Z) :
  exists chunks,
    chunk_tables (build_dependency_graph tables).1
      (build_dependency_graph tables).2 max_columns_per_chunk = Ok chunks
    /\ map extract_table_name chunks
       = map extract_table_name (first_wins extract_table_name tables)
    /\ (forall chunk,
          chunk ∈ chunks
          <-> last_with_key extract_table_name (extract_table_name chunk)
                tables = Some chunk)
    /\ (NoDup (map extract_table_name tables) -> chunks = tables).
Proof.
  destruct (build_dependency_graph_fold tables)
    as (graph & d & -> & Hkeys & Hget & Hall & Hgraph & Hid).
  simpl.
  assert (NoDup d.*1) as Hnd by (rewrite Hkeys; apply first_wins_NoDup).
  exists d.*2. split; [by apply chunk_tables_values|].
  split; [|split].
  - rewrite <- Hkeys. rewrite <- !list_fmap_compose.
    apply list_fmap_ext. intros i [k v] Hi. simpl.
    rewrite Forall_forall in Hall.
    apply (Hall (k, v)). by eapply list_elem_of_lookup_2.
  - intros chunk. rewrite <- Hget. split.
    + intros ([k v] & -> & Hin)%list_elem_of_fmap. simpl.
      rewrite Forall_forall in Hall. specialize (Hall _ Hin).
      simpl in Hall. rewrite Hall. by apply dict_get_NoDup.
    + intros Hd%dict_get_elem_of. apply list_elem_of_fmap.
      by eexists (_, _).
  - intros Hno. rewrite (Hid Hno). rewrite <- list_fmap_compose.
    simpl. by rewrite list_fmap_id.
Qed.

(* ------------------------------------------------------------------ *)
(** ** call_llm and its wrapper *)
(* ------------------------------------------------------------------ *)

(** X8: whatever the service answers, a configured [call_llm] raises only
    RuntimeError, TypeError or AttributeError. *)
Theorem call_llm_exceptions (r : reply) (e : exn) :
  call_llm true r = Raise e ->
  e = RuntimeError \/ e = TypeError \/ e = AttributeError.
Proof.
  unfold call_llm, try_except. simpl.
  match goal with |- context [match ?b with Ok a => _ | Raise e => _ end] =>
    destruct b as [a|e0] eqn:Hb end; [discriminate|].
  intros He.
  assert (e0 = ConnectionError \/ (exists st, e0 = HTTPError st)
          \/ e0 = JSONDecodeError \/ e0 = TypeError \/ e0 = KeyError
          \/ e0 = IndexError \/ e0 = AttributeError) as Hcases.
  { destruct r as [|status body]; [simplify_eq; auto|].
    unfold raise_for_status in Hb.
    destruct ((400 <=? status) && (status <? 600)); simpl in Hb;
      [simplify_eq; eauto|].
    destruct body as [data|]; simpl in Hb; [|simplify_eq; auto 10].
    unfold py_index, py_item, py_first, py_strip in Hb.
    repeat (case_match; simpl in Hb; simplify_eq; auto 10). }
  destruct Hcases as [->|[[st ->]|[->|[->|[->|[->| ->]]]]]];
    simpl in He; simplify_eq; auto.
Qed.


(** X10: the loop of [call_llm_single] around a callee that raises the
    HTTPError of a 429 answer [n] times, with [n] below [max_retries], and
    then returns: the wrapper sleeps [base_delay * 2^k] before the retry
    [k] and returns the stripped text. *)
Theorem call_llm_single_around_retries (call_llm_at : nat -> result str)
    (max_retries base_delay n : nat) (text : str) (w : world) :
  n < max_retries ->
  (forall k, k < n ->
     call_llm_at (requests w + k) = Raise (HTTPError (Some 429))) ->
  call_llm_at (requests w + n) = Ok text ->
  call_llm_single_around call_llm_at max_retries base_delay w
  = (Ok (strip text),
     {| requests := requests w + S n;
        sleeps := rev (map (fun k => base_delay * 2 ^ k) (seq 0 n))
                  ++ sleeps w |}).
Proof.
  intros Hn Hrate Hok. unfold call_llm_single_around.
  by rewrite (call_llm_loop_retries call_llm_at base_delay text n).
Qed.

(** X11: when the callee raises the HTTPError of a 429 answer every time,
    the wrapper gives up with the empty text after [max_retries] calls
    and as many sleeps, the last one after the last call. *)
Theorem call_llm_single_around_gives_up (call_llm_at : nat -> result str)
    (max_retries base_delay : nat) (w : world) :
  (forall k, k < max_retries ->
     call_llm_at (requests w + k) = Raise (HTTPError (Some 429))) ->
  call_llm_single_around call_llm_at max_retries base_delay w
  = (Ok [],
     {| requests := requests w + max_retries;
        sleeps := rev (map (fun k => base_delay * 2 ^ k)
                         (seq 0 max_retries))
                  ++ sleeps w |})
  /\ list_sum (map (fun k => base_delay * 2 ^ k) (seq 0 max_retries))
     = base_delay * (2 ^ max_retries - 1).
Proof.
  intros Hrate. split.
  - unfold call_llm_single_around.
    by rewrite (call_llm_loop_exhausted call_llm_at base_delay).
  - clear. induction max_retries as [|n IH]; [simpl; nia|].
    rewrite seq_S, map_app, list_sum_app, IH. simpl.
    pose proof (Nat.pow_nonzero 2 n ltac:(lia)). nia.
Qed.

(* ------------------------------------------------------------------ *)
(** ** suggest_schema_improvements *)
(* ------------------------------------------------------------------ *)

Section SuggestFacts.
Variable json_loads : str -> result json.
Variable configured : bool.
Variable service : nat -> reply.
Hypothesis Houtage : forall n, ~ is_ok (call_llm configured (service n)).



End SuggestFacts.


(* ------------------------------------------------------------------ *)
(** ** Rows without a table name *)
(* ------------------------------------------------------------------ *)

(** X21: the rows that have no table name add nothing to the schema text. *)
Theorem build_schema_text_skips_nameless (schema_data : list row) :
  build_schema_text
    (filter (fun r => is_Some (table_name r)) schema_data)
  = build_schema_text schema_data.
Proof.
  unfold build_schema_text.
  assert (forall st,
             fold_left schema_step
               (filter (fun r => is_Some (table_name r)) schema_data) st
             = fold_left schema_step schema_data st) as ->; [|done].
  induction schema_data as [|r l IH]; intros st; [done|].
  rewrite filter_cons. destruct (table_name r) as [name|] eqn:Hr.
  - rewrite decide_True by (by eexists). simpl. apply IH.
  - rewrite decide_False by (by intros [? ?]). simpl. rewrite IH.
    f_equal. destruct st. unfold schema_step. by rewrite Hr.
Qed.

(* ------------------------------------------------------------------ *)
(** ** resolve_chunk_tables with a set of visited tables *)
(* ------------------------------------------------------------------ *)

Lemma resolve_chunk_tables_None (depth : nat) (graph : gmap str (gset str))
    (table : str) :
  resolve_chunk_tables depth graph table None
  = resolve_chunk_tables depth graph table (Some ∅).
Proof. by destruct depth. Qed.

(** With a depth above the number of tables every call returns, whatever
    has been visited. *)
Lemma resolve_chunk_tables_enough (graph : gmap str (gset str))
    (depth : nat) (table : str) (visited : gset str) :
  size (tables graph) + 1 < depth ->
  exists result,
    resolve_chunk_tables depth graph table (Some visited) = Some result.
Proof.
  intros Hdepth.
  apply (resolve_chunk_tables_returns graph ({[table]} ∪ tables graph)).
  - intros u v Huv. apply elem_of_union_r. by eapply fk_edge_tables.
  - set_solver.
  - assert (size (({[table]} ∪ tables graph) ∖ visited)
            <= size ({[table]} : gset str) + size (tables graph)).
    { etrans; [apply subseteq_size with (Y := {[table]} ∪ tables graph);
               set_solver|].
      rewrite size_union_alt.
      assert (size (tables graph ∖ {[table]}) <= size (tables graph))
        by (apply subseteq_size; set_solver).
      lia. }
    rewrite size_singleton in *. lia.
Qed.

(** X17: with a recursion depth above the number of tables, a call returns
    a set, and a second call that is given this set as [visited] returns
    too and adds the closure of its own start table: its result holds
    exactly the tables reachable from one of the two start tables. *)
Theorem resolve_chunk_tables_accumulates (graph : gmap str (gset str))
    (depth1 depth2 : nat) (table1 table2 : str) :
  size (tables graph) + 1 < depth1 ->
  size (tables graph) + 1 < depth2 ->
  exists visited result,
    resolve_chunk_tables depth1 graph table1 None = Some visited
    /\ resolve_chunk_tables depth2 graph table2 (Some visited) = Some result
    /\ forall x, x ∈ result
                 <-> reachable graph table1 x \/ reachable graph table2 x.
Proof.
  intros Hdepth1 Hdepth2. rewrite resolve_chunk_tables_None.
  destruct (resolve_chunk_tables_enough graph depth1 table1 ∅ Hdepth1)
    as [visited Hfirst].
  destruct (resolve_chunk_tables_enough graph depth2 table2 visited Hdepth2)
    as [result Hsecond].
  exists visited, result. split; [done|]. split; [done|].
  apply resolve_chunk_tables_grows in Hfirst
    as (_ & Hin1 & Hsound1 & Hclosed1).
  apply resolve_chunk_tables_grows in Hsecond
    as (Hsub & Hin2 & Hsound2 & Hclosed2).
  assert (forall u v, u ∈ visited -> fk_edge graph u v -> v ∈ visited)
    as Hclosed.
  { intros u v Hu Huv. eapply Hclosed1; [exact Hu|set_solver|done]. }
  intros x. split.
  - intros Hx. destruct (Hsound2 x Hx) as [Hv|Hr]; [|by right].
    left. destruct (Hsound1 x Hv) as [?|?]; [set_solver|done].
  - intros [Hr|Hr].
    + apply Hsub.
      eapply (rtc_ind_r (fun y => y ∈ visited)); [exact Hin1| |exact Hr].
      intros u v _ Huv IH. by eapply Hclosed.
    + eapply (rtc_ind_r (fun y => y ∈ result)); [exact Hin2| |exact Hr].
      intros u v _ Huv IH.
      destruct (decide (u ∈ visited)) as [Hu|Hu].
      * apply Hsub. by eapply Hclosed.
      * by eapply Hclosed2.
Qed.

(* ------------------------------------------------------------------ *)
(** ** The statements of a script *)
(* ------------------------------------------------------------------ *)

Lemma eqb_ci_G_word (c : ascii) : Text.eqb_ci "G" c = true -> is_word c = true.
Proof. destruct c as [[] [] [] [] [] [] [] []]; vm_compute; congruence. Qed.

Lemma eqb_ci_O_word (c : ascii) : Text.eqb_ci "O" c = true -> is_word c = true.
Proof. destruct c as [[] [] [] [] [] [] [] []]; vm_compute; congruence. Qed.

Lemma space_not_word (c : ascii) : is_space c = true -> is_word c = false.
Proof. destruct c as [[] [] [] [] [] [] [] []]; vm_compute; congruence. Qed.

(** A match of [\bGO\b] at a position. *)
Lemma go_re_Some (prev : option ascii) (s : str) (n : nat) :
  go_re prev s = Some n
  <-> n = 2
      /\ exists g o s',
           s = g :: o :: s' /\ is_word_at prev = false
           /\ Text.eqb_ci "G" g = true /\ Text.eqb_ci "O" o = true
           /\ is_word_at (head s') = false.
Proof.
  unfold go_re. split.
  - destruct s as [|g [|o s']]; try done.
    destruct (word_boundary prev (g :: o :: s') && Text.eqb_ci "G" g
              && Text.eqb_ci "O" o && word_boundary (Some o) s') eqn:Hm;
      [|done].
    intros ?. simplify_eq. split; [done|].
    repeat (apply andb_true_iff in Hm as [Hm ?]).
    exists g, o, s'. unfold word_boundary in *. simpl in *.
    rewrite (eqb_ci_G_word g) in Hm by done.
    rewrite (eqb_ci_O_word o) in * by done.
    repeat split; try done.
    + by destruct (is_word_at prev).
    + by destruct (is_word_at (head s')).
  - intros (-> & g & o & s' & -> & Hp & Hg & Ho & Hn).
    unfold word_boundary. simpl. rewrite Hp, Hg, Ho, Hn.
    by rewrite (eqb_ci_G_word g), (eqb_ci_O_word o).
Qed.

(** The match depends on the character before only through its class. *)
Lemma go_re_prev (prev prev' : option ascii) (s : str) :
  is_word_at prev = is_word_at prev' -> go_re prev s = go_re prev' s.
Proof.
  intros Hp. unfold go_re, word_boundary. destruct s as [|g [|o s']]; try done.
  by rewrite Hp.
Qed.

Lemma split_loop_nonempty (s : str) :
  forall prev skip, split_loop prev skip s ≠ [].
Proof.
  induction s as [|c s IH]; intros prev skip; cbn [split_loop]; [done|].
  destruct skip; [|apply IH].
  destruct (go_re prev (c :: s)); [done|].
  unfold push. specialize (IH (Some c) 0).
  by destruct (split_loop (Some c) 0 s).
Qed.

Lemma split_loop_match (prev : option ascii) (g o : ascii) (s : str) (n : nat) :
  go_re prev (g :: o :: s) = Some n ->
  split_loop prev 0 (g :: o :: s) = [] :: split_loop (Some o) 0 s.
Proof.
  intros Hm. pose proof Hm as [-> _]%go_re_Some.
  cbn [split_loop]. by rewrite Hm.
Qed.

Lemma prev_at_cons (prev : option ascii) (c : ascii) (q : str) (k : nat) :
  prev_at prev (c :: q) (S k) = prev_at (Some c) q k.
Proof. by destruct k. Qed.

Lemma quiet_cons (prev : option ascii) (c : ascii) (q rest : str) :
  quiet prev (c :: q) rest
  <-> go_re prev (c :: q ++ rest) = None /\ quiet (Some c) q rest.
Proof.
  unfold quiet. split.
  - intros Hq. split; [apply (Hq 0); simpl; lia|].
    intros k Hk. rewrite <- (prev_at_cons prev). apply (Hq (S k)).
    simpl. lia.
  - intros [H0 Hq] [|k] Hk; [done|].
    rewrite prev_at_cons. apply Hq. simpl in Hk. lia.
Qed.

Lemma pushes_cons (c : ascii) (q : str) (pieces : list str) :
  pieces ≠ [] -> push c (pushes q pieces) = pushes (c :: q) pieces.
Proof. by destruct pieces. Qed.

(** Where no match starts, the text goes to the piece being read. *)
Lemma split_loop_quiet (q rest : str) :
  forall prev,
    quiet prev q rest ->
    split_loop prev 0 (q ++ rest)
    = pushes q (split_loop (prev_at prev q (length q)) 0 rest).
Proof.
  induction q as [|c q IH]; intros prev Hq.
  - simpl. pose proof (split_loop_nonempty rest prev 0).
    by destruct (split_loop prev 0 rest).
  - apply quiet_cons in Hq as [H0 Hq]. simpl app. cbn [split_loop].
    rewrite H0, (IH _ Hq). rewrite pushes_cons by apply split_loop_nonempty.
    by rewrite <- (prev_at_cons prev).
Qed.

(** The pieces of [re.split]: the text up to the first match, and the
    pieces of the text after that match. *)
Lemma split_loop_spec (s : str) :
  forall prev,
    (split_loop prev 0 s = [s] /\ quiet prev s [])
    \/ exists p0 g o s',
         s = p0 ++ g :: o :: s'
         /\ quiet prev p0 (g :: o :: s')
         /\ go_re (prev_at prev p0 (length p0)) (g :: o :: s') = Some 2
         /\ split_loop prev 0 s = p0 :: split_loop (Some o) 0 s'.
Proof.
  induction s as [|c s IH]; intros prev.
  - left. split; [done|]. intros k Hk. simpl in Hk. lia.
  - destruct (go_re prev (c :: s)) as [n|] eqn:Hm.
    + right. pose proof Hm as (-> & g & o & s' & Hs & _)%go_re_Some.
      simplify_eq. exists [], g, o, s'.
      split; [done|]. split; [intros k Hk; simpl in Hk; lia|].
      split; [done|]. by eapply split_loop_match.
    + cbn [split_loop]. rewrite Hm.
      destruct (IH (Some c)) as [[Heq Hq]|(p0 & g & o & s' & -> & Hq & Hgo & Heq)].
      * left. rewrite Heq. split; [done|].
        apply quiet_cons. by rewrite app_nil_r.
      * right. exists (c :: p0), g, o, s'.
        split; [done|]. split; [by apply quiet_cons|].
        split; [by cbn [length]; rewrite prev_at_cons|]. by rewrite Heq.
Qed.

Lemma strip_decompose (q : str) :
  exists ws1 ws2,
    q = ws1 ++ strip q ++ ws2
    /\ Forall (fun c => is_space c = true) ws1
    /\ Forall (fun c => is_space c = true) ws2.
Proof.
  unfold strip, lstrip_by.
  destruct (drop_while_drop is_space q) as (n & Hn & Hall1).
  destruct (rstrip_by_take is_space (drop_while is_space q))
    as (m & Hm & Hall2).
  exists (take n q), (drop m (drop_while is_space q)).
  rewrite Hm. split; [|done].
  rewrite take_drop. by rewrite Hn, take_drop.
Qed.

Lemma lookup_app_3 {A : Type} (a b c : list A) (k : nat) :
  k < length b -> (a ++ b ++ c) !! (length a + k) = b !! k.
Proof.
  intros Hk. rewrite lookup_app_r by lia.
  replace (length a + k - length a) with k by lia.
  by rewrite lookup_app_l.
Qed.

(** A piece of the split, between what precedes it and the match or the
    end that follows it, has no GO of its own once it is stripped. *)
Lemma quiet_calm (prev : option ascii) (p0 rest : str) :
  quiet prev p0 rest ->
  (is_word_at prev = true -> is_word_at (head (p0 ++ rest)) = false) ->
  (rest = []
   \/ (is_word_at (prev_at prev p0 (length p0)) = false
       /\ is_word_at (head rest) = true)) ->
  calm (strip p0).
Proof.
  intros Hq Hentry Hexit.
  destruct (strip_decompose p0) as (ws1 & ws2 & Hp0 & Hws1 & Hws2).
  set (p := strip p0) in *.
  intros k Hk. rewrite app_nil_r.
  destruct (go_re (prev_at None p k) (drop k p)) as [n|] eqn:Hgo; [|done].
  exfalso.
  apply go_re_Some in Hgo as (-> & g & o & s' & Hdrop & Hprev & Hg & Ho & Hnext).
  assert (p !! k = Some g) as Hpg.
  { rewrite <- (Nat.add_0_r k), <- lookup_drop, Hdrop. done. }
  assert (p !! (S k) = Some o) as Hpo.
  { rewrite <- (Nat.add_1_r k), <- lookup_drop, Hdrop. done. }
  assert (drop (S (S k)) p = s') as Hs'.
  { replace (S (S k)) with (k + 2) by lia.
    rewrite <- drop_drop, Hdrop. done. }
  pose proof (lookup_lt_Some _ _ _ Hpo) as Hk1.
  set (K := length ws1 + k).
  assert (K < length p0) as HK.
  { rewrite Hp0, !length_app. unfold K. lia. }
  assert (drop K (p0 ++ rest) = g :: o :: drop (S (S K)) (p0 ++ rest))
    as HdropK.
  { assert ((p0 ++ rest) !! K = Some g) as H0.
    { rewrite lookup_app_l by done. rewrite Hp0. unfold K.
      by rewrite lookup_app_3. }
    assert ((p0 ++ rest) !! (S K) = Some o) as H1.
    { rewrite lookup_app_l.
      - rewrite Hp0. unfold K. rewrite <- Nat.add_succ_r.
        by rewrite lookup_app_3.
      - rewrite Hp0, !length_app. unfold K. lia. }
    rewrite (drop_S _ _ _ H0). by rewrite (drop_S _ _ _ H1). }
  specialize (Hq K HK). rewrite HdropK in Hq.
  assert (go_re (prev_at prev p0 K)
            (g :: o :: drop (S (S K)) (p0 ++ rest)) = Some 2) as Hbad;
    [|congruence].
  apply go_re_Some. split; [done|].
  exists g, o, (drop (S (S K)) (p0 ++ rest)).
  split; [done|]. split; [|split; [done|split; [done|]]].
  - (* the character before *)
    destruct k as [|k'].
    + unfold K. rewrite Nat.add_0_r.
      destruct ws1 as [|w ws1' _] using rev_ind.
      * simpl. destruct (is_word_at prev) eqn:Hp; [|done].
        specialize (Hentry eq_refl). rewrite Hp0 in Hentry. simpl in Hentry.
        destruct p as [|x p']; [done|]. simpl in *. simplify_eq.
        by rewrite (eqb_ci_G_word _ Hg) in Hentry.
      * rewrite length_app. simpl. rewrite Nat.add_1_r. simpl.
        rewrite Hp0. rewrite <- !app_assoc. rewrite lookup_app_r by lia.
        rewrite Nat.sub_diag. simpl.
        apply Forall_app in Hws1 as [_ Hw]. rewrite Forall_singleton in Hw.
        by apply space_not_word.
    + unfold K. rewrite Nat.add_succ_r. simpl in *.
      rewrite Hp0. rewrite lookup_app_3 by lia. done.
  - (* the character after *)
    assert (S (S k) <= length p) as Hle by lia.
    destruct (decide (S (S k) < length p)) as [Hlt|Hge].
    + assert (head (drop (S (S K)) (p0 ++ rest)) = p !! (S (S k))) as ->.
      { rewrite head_lookup, lookup_drop, Nat.add_0_r.
        rewrite lookup_app_l.
        - rewrite Hp0. unfold K. rewrite <- !Nat.add_succ_r.
          by rewrite lookup_app_3.
        - rewrite Hp0, !length_app. unfold K. lia. }
      rewrite <- Hs' in Hnext. by rewrite head_lookup, lookup_drop,
        Nat.add_0_r in Hnext.
    + assert (drop (S (S K)) (p0 ++ rest) = ws2 ++ rest) as ->.
      { rewrite Hp0. rewrite <- !app_assoc.
        rewrite drop_app_ge by (unfold K; lia).
        rewrite drop_app_ge by (unfold K; lia).
        replace (S (S K) - length ws1 - length p) with 0
          by (unfold K; lia). done. }
      destruct ws2 as [|w ws2'].
      * simpl. destruct Hexit as [->|[Hlast Hrest]]; [done|].
        exfalso. rewrite app_nil_r in Hp0.
        assert (prev_at prev p0 (length p0) = Some o) as Hlo.
        { rewrite Hp0, length_app.
          replace (length ws1 + length p) with (S (length ws1 + S k)) by lia.
          simpl. rewrite lookup_app_r by lia.
          by replace (length ws1 + S k - length ws1) with (S k) by lia. }
        rewrite Hlo in Hlast. simpl in Hlast.
        by rewrite (eqb_ci_O_word _ Ho) in Hlast.
      * simpl. apply Forall_cons in Hws2 as [Hw _].
        by apply space_not_word.
Qed.

Lemma split_loop_calm :
  forall len s, length s = len ->
    forall prev,
      (is_word_at prev = true -> is_word_at (head s) = false) ->
      Forall (fun q => calm (strip q)) (split_loop prev 0 s).
Proof.
  induction len as [len IH] using lt_wf_ind. intros s Hlen prev Hentry.
  destruct (split_loop_spec s prev)
    as [[Heq Hq]|(p0 & g & o & s' & Hs & Hq & Hgo & Heq)].
  - rewrite Heq. apply Forall_singleton.
    apply (quiet_calm prev s []); [done| |by left].
    by rewrite app_nil_r.
  - rewrite Heq.
    apply go_re_Some in Hgo as (_ & g' & o' & s'' & ? & Hbefore & Hg & Ho & Hafter).
    simplify_eq. constructor.
    + apply (quiet_calm prev p0 (g' :: o' :: s'')); [done|done|].
      right. split; [done|]. simpl. by apply eqb_ci_G_word.
    + eapply IH; [|reflexivity|by intros _].
      rewrite length_app. simpl. lia.
Qed.

Lemma drop_while_id (p : ascii -> bool) (s : str) :
  match s with [] => True | c :: _ => p c = false end -> drop_while p s = s.
Proof. destruct s as [|c s]; simpl; [done|]. by intros ->. Qed.

Lemma drop_while_head (p : ascii -> bool) (s : str) :
  match drop_while p s with [] => True | c :: _ => p c = false end.
Proof.
  induction s as [|c s IH]; simpl; [done|].
  destruct (p c) eqn:Hc; [done|]. done.
Qed.

Lemma rstrip_by_id (p : ascii -> bool) (s : str) :
  ends_outside p s -> rstrip_by p s = s.
Proof.
  intros [->|(a & c & -> & Hc)]; [done|].
  by rewrite rstrip_by_app.
Qed.

Lemma strip_fixed (s : str) :
  match s with [] => True | c :: _ => is_space c = false end ->
  ends_outside is_space s -> strip s = s.
Proof.
  intros Hhead Hend. unfold strip, lstrip_by.
  rewrite drop_while_id by done. by apply rstrip_by_id.
Qed.

Lemma strip_head (s : str) :
  match strip s with [] => True | c :: _ => is_space c = false end.
Proof.
  unfold strip, lstrip_by.
  pose proof (drop_while_head is_space s) as Hh.
  destruct (rstrip_by_take is_space (drop_while is_space s)) as (m & -> & _).
  destruct (drop_while is_space s) as [|c t]; [by destruct m|].
  by destruct m.
Qed.

Lemma strip_idem (s : str) : strip (strip s) = strip s.
Proof.
  apply strip_fixed; [apply strip_head|]. apply rstrip_by_ends.
Qed.

Lemma drop_while_spaces (p : ascii -> bool) (w s : str) :
  Forall (fun c => p c = true) w -> drop_while p (w ++ s) = drop_while p s.
Proof. induction 1 as [|c w Hc _ IH]; simpl; [done|]. by rewrite Hc. Qed.

(** White space around a text does not change what is left of it. *)
Lemma strip_around (w1 w2 s : str) :
  Forall (fun c => is_space c = true) w1 ->
  Forall (fun c => is_space c = true) w2 ->
  strip (w1 ++ s ++ w2) = strip s.
Proof.
  intros H1 H2. unfold strip, lstrip_by.
  rewrite drop_while_spaces by done.
  pose proof (drop_while_head is_space s) as Hh.
  destruct (drop_while is_space s) as [|c t] eqn:Hs.
  - assert (Forall (fun c => is_space c = true) s) as Hall.
    { destruct (drop_while_drop is_space s) as (n & Hn & Hall).
      rewrite Hs in Hn. symmetry in Hn.
      assert (length s <= n) as Hlen.
      { apply (f_equal length) in Hn. rewrite length_drop in Hn.
        simpl in Hn. lia. }
      by rewrite take_ge in Hall. }
    rewrite drop_while_spaces by done.
    rewrite drop_while_all by done. done.
  - assert (exists a, s = a ++ c :: t /\ Forall (fun c => is_space c = true) a)
      as (a & -> & Ha).
    { destruct (drop_while_drop is_space s) as (n & Hn & Hall).
      exists (take n s). split; [|done].
      rewrite <- (take_drop n s) at 1. by rewrite <- Hn, Hs. }
    rewrite <- app_assoc. rewrite drop_while_spaces by done.
    simpl. rewrite Hh. unfold rstrip_by.
    change (c :: t ++ w2) with ((c :: t) ++ w2).
    rewrite rev_app_distr. rewrite drop_while_spaces; [done|].
    by apply Forall_rev.
Qed.

Lemma statements_ok (sql : str) : Forall stmt_ok (statements sql).
Proof.
  unfold statements, split_go.
  pose proof (split_loop_calm _ sql eq_refl None ltac:(done)) as Hcalm.
  induction Hcalm as [|q l Hq _ IH]; [constructor|].
  rewrite filter_cons. case_decide as Hne; [|done].
  simpl. constructor; [|done].
  split; [|split; [apply strip_idem|done]].
  by destruct (strip q).
Qed.

Lemma quiet_spaces (prev : option ascii) (w rest : str) :
  Forall (fun c => is_space c = true) w -> quiet prev w rest.
Proof.
  intros Hw k Hk.
  destruct (go_re (prev_at prev w k) (drop k (w ++ rest))) as [n|] eqn:Hgo;
    [exfalso|done].
  apply go_re_Some in Hgo as (_ & g & o & s' & Hdrop & _ & Hg & _).
  apply eqb_ci_G_word in Hg.
  assert ((w ++ rest) !! k = Some g) as Hl.
  { rewrite <- (Nat.add_0_r k), <- lookup_drop, Hdrop. done. }
  rewrite lookup_app_l in Hl by done.
  rewrite Forall_lookup in Hw. apply Hw in Hl.
  apply space_not_word in Hl. congruence.
Qed.

Lemma prev_at_app (prev : option ascii) (a b : str) (k : nat) :
  prev_at prev (a ++ b) (length a + k) = prev_at (prev_at prev a (length a)) b k.
Proof.
  destruct k as [|k].
  - rewrite Nat.add_0_r. destruct a as [|x a] using rev_ind; [done|].
    rewrite length_app. simpl. rewrite Nat.add_1_r. simpl.
    rewrite <- app_assoc. rewrite lookup_app_r by lia.
    rewrite Nat.sub_diag. simpl.
    rewrite lookup_app_r by lia. by rewrite Nat.sub_diag.
  - rewrite Nat.add_succ_r. simpl. rewrite lookup_app_r by lia.
    by replace (length a + k - length a) with k by lia.
Qed.

Lemma prev_at_app_l (prev : option ascii) (a b : str) (k : nat) :
  k <= length a -> prev_at prev (a ++ b) k = prev_at prev a k.
Proof.
  intros Hk. destruct k as [|k]; [done|]. simpl.
  by rewrite lookup_app_l by lia.
Qed.

Lemma quiet_app (prev : option ascii) (a b rest : str) :
  quiet prev a (b ++ rest) ->
  quiet (prev_at prev a (length a)) b rest ->
  quiet prev (a ++ b) rest.
Proof.
  intros Ha Hb k Hk. rewrite length_app in Hk. rewrite <- app_assoc.
  destruct (decide (k < length a)) as [Hlt|Hge].
  - rewrite prev_at_app_l by lia. by apply Ha.
  - replace k with (length a + (k - length a)) by lia.
    rewrite prev_at_app. rewrite drop_app_ge by lia.
    replace (length a + (k - length a) - length a) with (k - length a) by lia.
    apply Hb. lia.
Qed.

(** A text without a GO of its own has none between characters that are
    not word characters. *)
Lemma quiet_context (p : str) (prev : option ascii) (rest : str) :
  calm p ->
  is_word_at prev = false -> is_word_at (head rest) = false ->
  quiet prev p rest.
Proof.
  intros Hcalm Hprev Hrest k Hk.
  destruct (go_re (prev_at prev p k) (drop k (p ++ rest))) as [n|] eqn:Hgo;
    [exfalso|done].
  apply go_re_Some in Hgo as (_ & g & o & s' & Hdrop & Hbefore & Hg & Ho & Hafter).
  assert ((p ++ rest) !! (S k) = Some o) as Hlo.
  { rewrite <- (Nat.add_1_r k), <- lookup_drop, Hdrop. done. }
  assert (p !! k = Some g) as Hlg.
  { rewrite <- (lookup_app_l p rest) by done.
    rewrite <- (Nat.add_0_r k), <- lookup_drop, Hdrop. done. }
  destruct (decide (S k < length p)) as [Hlt|Hge].
  - rewrite lookup_app_l in Hlo by done.
    specialize (Hcalm k Hk). rewrite app_nil_r in Hcalm.
    rewrite (drop_S _ _ _ Hlg), (drop_S _ _ _ Hlo) in Hcalm.
    assert (go_re (prev_at None p k) (g :: o :: drop (S (S k)) p) = Some 2)
      as Hbad; [|congruence].
    apply go_re_Some. split; [done|].
    exists g, o, (drop (S (S k)) p). split; [done|].
    split; [|split; [done|split; [done|]]].
    + destruct k as [|k']; [done|]. done.
    + destruct (decide (S (S k) < length p)) as [Hlt2|Hge2].
      * assert (s' = drop (S (S k)) (p ++ rest)) as ->.
        { replace (S (S k)) with (k + 2) by lia.
          rewrite <- drop_drop, Hdrop. done. }
        rewrite head_lookup, lookup_drop, Nat.add_0_r in Hafter.
        rewrite lookup_app_l in Hafter by done.
        by rewrite head_lookup, lookup_drop, Nat.add_0_r.
      * rewrite drop_ge by lia. done.
  - rewrite lookup_app_r in Hlo by lia.
    replace (S k - length p) with 0 in Hlo by lia.
    rewrite <- head_lookup in Hlo. rewrite Hlo in Hrest. simpl in Hrest.
    by rewrite (eqb_ci_O_word _ Ho) in Hrest.
Qed.

Lemma stmt_ok_quiet (p w rest : str) (prev : option ascii) :
  stmt_ok p ->
  Forall (fun c => is_space c = true) w ->
  (w = [] -> is_word_at prev = false) ->
  is_word_at (head rest) = false ->
  quiet prev (w ++ p) rest.
Proof.
  intros (_ & _ & Hcalm) Hw Hprev Hrest.
  apply quiet_app; [by apply quiet_spaces|].
  apply quiet_context; [done| |done].
  destruct w as [|x w _] using rev_ind; [by apply Hprev|].
  rewrite length_app. simpl. rewrite Nat.add_1_r. simpl.
  rewrite lookup_app_r by lia. rewrite Nat.sub_diag. simpl.
  apply Forall_app in Hw as [_ Hx]. rewrite Forall_singleton in Hx.
  by apply space_not_word.
Qed.

Lemma stmt_ok_strip (p w1 w2 : str) :
  stmt_ok p ->
  Forall (fun c => is_space c = true) w1 ->
  Forall (fun c => is_space c = true) w2 ->
  strip (w1 ++ p ++ w2) = p.
Proof.
  intros (_ & Hp & _) H1 H2. by rewrite strip_around.
Qed.

Lemma prev_at_snoc (prev : option ascii) (a : str) (c : ascii) :
  prev_at prev (a ++ [c]) (length (a ++ [c])) = Some c.
Proof.
  rewrite length_app. simpl. rewrite Nat.add_1_r. simpl.
  rewrite lookup_app_r by lia. by rewrite Nat.sub_diag.
Qed.

(** The pieces of a text made of statements joined by GO lines. *)
Lemma split_join (l : list str) :
  forall prev w,
    l ≠ [] ->
    Forall stmt_ok l ->
    Forall (fun c => is_space c = true) w ->
    (w = [] -> is_word_at prev = false) ->
    map strip (split_loop prev 0 (w ++ join go_line l)) = l.
Proof.
  induction l as [|p l IH]; intros prev w Hne Hall Hw Hprev; [done|].
  apply Forall_cons in Hall as [Hp Hall].
  destruct l as [|p' l'].
  - simpl join.
    rewrite <- (app_nil_r (w ++ p)).
    rewrite split_loop_quiet by (by apply stmt_ok_quiet).
    simpl. rewrite app_nil_r.
    f_equal. rewrite <- (app_nil_r p) at 1.
    by apply stmt_ok_strip.
  - change (join go_line (p :: p' :: l'))
      with (p ++ go_line ++ join go_line (p' :: l')).
    unfold go_line at 1.
    set (J := join go_line (p' :: l')) in *.
    replace (w ++ p ++ ("010"%char :: txt "GO" ++ ["010"%char]) ++ J)
      with (((w ++ p) ++ ["010"%char])
            ++ "G"%char :: "O"%char :: ["010"%char] ++ J)
      by (by rewrite <- !app_assoc).
    rewrite split_loop_quiet.
    + rewrite prev_at_snoc.
      erewrite split_loop_match by reflexivity.
      unfold pushes. rewrite app_nil_r, map_cons. f_equal.
      * rewrite <- app_assoc. apply stmt_ok_strip; [done|done|].
        by repeat constructor.
      * apply IH; [done|done|by repeat constructor|done].
    + apply quiet_app.
      * by apply stmt_ok_quiet.
      * apply quiet_spaces. by repeat constructor.
Qed.

Lemma statements_join (l : list str) :
  Forall stmt_ok l -> statements (join go_line l) = l.
Proof.
  intros Hall. destruct l as [|p l]; [reflexivity|].
  unfold statements, split_go.
  pose proof (split_join (p :: l) None [] ltac:(done) Hall ltac:(constructor)
                ltac:(done)) as Hmap.
  rewrite app_nil_l in Hmap.
  set (pieces := split_loop None 0 (join go_line (p :: l))) in *.
  assert (filter (fun stmt => nonempty (strip stmt) = true) pieces = pieces)
    as ->; [|done].
  assert (Forall (fun x => x ≠ []) (map strip pieces)) as Hne.
  { rewrite Hmap. eapply Forall_impl; [exact Hall|]. by intros x [? _]. }
  clear -Hne. induction pieces as [|q pieces IH]; [done|].
  simpl in Hne. apply Forall_cons in Hne as [Hq Hne].
  rewrite filter_cons. rewrite decide_True.
  - by rewrite IH.
  - by destruct (strip q).
Qed.

(** X18: every statement is not empty, is stripped, and is one statement:
    read as a script it gives itself. *)
Theorem statements_fixed (sql stmt : str) :
  stmt ∈ statements sql ->
  stmt ≠ [] /\ strip stmt = stmt /\ statements stmt = [stmt].
Proof.
  intros Hin. pose proof (statements_ok sql) as Hall.
  rewrite Forall_forall in Hall. specialize (Hall _ Hin).
  destruct Hall as (Hne & Hstrip & Hcalm).
  split; [done|]. split; [done|].
  apply (statements_join [stmt]). by repeat constructor.
Qed.

Lemma range_from_done (fuel i stop step : nat) :
  stop <= i -> range_from fuel i stop step = [].
Proof.
  intros Hi. destruct fuel as [|fuel]; [done|]. simpl.
  by rewrite (proj2 (Nat.ltb_ge i stop)).
Qed.

(** The slices taken at the values of the range are the list cut into
    groups of [n] items, the last one of [n] or fewer. *)
Lemma range_groups {A : Type} (l : list A) (n : nat) :
  0 < n ->
  forall fuel i,
    length l - i <= fuel -> i <= length l ->
    concat (map (fun j => take n (drop j l))
                (range_from fuel i (length l) n)) = drop i l
    /\ Forall (fun j => j < length l) (range_from fuel i (length l) n).
Proof.
  intros Hn. induction fuel as [|fuel IH]; intros i Hfuel Hi.
  - simpl. rewrite drop_ge by lia. done.
  - simpl. destruct (i <? length l) eqn:Hlt.
    + apply Nat.ltb_lt in Hlt. simpl.
      destruct (decide (i + n <= length l)) as [Hle|Hgt].
      * destruct (IH (i + n)) as [Hc Hall]; [lia|done|].
        rewrite Hc. split; [|by constructor].
        rewrite <- drop_drop. apply take_drop.
      * rewrite range_from_done by lia. simpl. rewrite app_nil_r.
        split; [|by repeat constructor].
        apply take_ge. rewrite length_drop. lia.
    + apply Nat.ltb_ge in Hlt. rewrite drop_ge by lia. done.
Qed.

Lemma py_slice_chunk {A : Type} (l : list A) (i : nat) (n : Z) :
  (0 < n)%Z ->
  py_slice l i (Z.of_nat i + n) = take (Z.to_nat n) (drop i l).
Proof.
  intros Hn. unfold py_slice.
  rewrite (proj2 (Z.ltb_ge _ _)) by lia. f_equal. lia.
Qed.

(** X19: [chunk_sql_fixes] raises ValueError for a chunk size of 0 and
    returns no chunk for a negative one; for a positive size the chunks,
    read again as scripts, give the statements of the script in their
    order, each chunk between one and [max_statements_per_chunk] of
    them. *)
Theorem chunk_sql_fixes_round_trip (sql_fixes : str)
    (max_statements_per_chunk : Z) :
  match chunk_sql_fixes sql_fixes max_statements_per_chunk with
  | Raise e => max_statements_per_chunk = 0%Z /\ e = ValueError
  | Ok chunks =>
      if (max_statements_per_chunk <? 0)%Z then chunks = []
      else
        (0 < max_statements_per_chunk)%Z
        /\ concat (map statements chunks) = statements sql_fixes
        /\ Forall (fun chunk =>
                     0 < length (statements chunk)
                         <= Z.to_nat max_statements_per_chunk) chunks
  end.
Proof.
  unfold chunk_sql_fixes, py_range.
  destruct (Z.eqb_spec max_statements_per_chunk 0) as [->|Hnz]; [done|].
  destruct (Z.ltb_spec max_statements_per_chunk 0) as [Hneg|Hpos]; [done|].
  simpl. split; [lia|].
  set (st := statements sql_fixes). set (n := Z.to_nat max_statements_per_chunk).
  destruct (range_groups st n ltac:(lia) (length st) 0 ltac:(lia) ltac:(lia))
    as [Hconcat Hstarts].
  pose proof (statements_ok sql_fixes) as Hok. fold st in Hok.
  assert (forall i, statements (join go_line
                      (py_slice st i (Z.of_nat i + max_statements_per_chunk)))
                    = take n (drop i st)) as Hgroup.
  { intros i. rewrite py_slice_chunk by lia. apply statements_join.
    apply Forall_take, Forall_drop, Hok. }
  rewrite <- list_fmap_compose. split.
  - transitivity (drop 0 st); [|done]. rewrite <- Hconcat. f_equal.
    apply list_fmap_ext. intros k i _. apply Hgroup.
  - apply Forall_fmap. eapply Forall_impl; [exact Hstarts|].
    intros i Hi. simpl. rewrite Hgroup, length_take, length_drop.
    simpl in Hi. assert (0 < n) by (unfold n; lia). lia.
Qed.

(** ** The schema text in closed form *)

Lemma column_text_body (r : row) :
  column_text r = column_body r ++ comma_newline.
Proof.
  unfold column_text, column_body. cbv zeta. by rewrite <- !app_assoc.
Qed.

Lemma col_ok_app (a col : str) : col_ok col -> col_ok (a ++ col).
Proof.
  intros (b & c & -> & Hc). exists (a ++ b), c. by rewrite app_assoc.
Qed.

Lemma col_ok_opt (a b : str) :
  col_ok a -> b = [] \/ col_ok b -> col_ok (a ++ b).
Proof.
  intros Ha [->|Hb]; [by rewrite app_nil_r|by apply col_ok_app].
Qed.

Lemma col_ok_opt_app (b c : str) :
  b = [] \/ col_ok b -> c = [] \/ col_ok c ->
  b ++ c = [] \/ col_ok (b ++ c).
Proof.
  intros [->|Hb] Hc; [done|]. right. by apply col_ok_opt.
Qed.

Lemma column_body_ok (r : row) : col_ok (column_body r).
Proof.
  unfold column_body. cbv zeta. do 5 apply col_ok_app.
  unfold constraints_text. cbv zeta.
  apply col_ok_opt; [|apply col_ok_opt_app].
  - destruct (negb (default true (is_nullable r))).
    + exists (txt " NOT NUL"), "L"%char. split; reflexivity.
    + exists (txt " NUL"), "L"%char. split; reflexivity.
  - destruct (default false (is_primary_key r)); [right|by left].
    exists (txt " PRIMARY KE"), "Y"%char. split; reflexivity.
  - destruct (default false (is_foreign_key r)); [|by left].
    destruct (nonempty _ && nonempty _); [right|by left].
    do 4 apply col_ok_app. exists [], ")"%char. split; reflexivity.
Qed.

Lemma rstrip_chars_col (a col : str) :
  col_ok col -> rstrip_chars comma_newline (a ++ col ++ comma_newline) = a ++ col.
Proof.
  intros (b & c & -> & Hc). unfold rstrip_chars.
  rewrite <- !app_assoc. simpl. rewrite (app_assoc a b).
  rewrite rstrip_by_app by done. by rewrite <- app_assoc.
Qed.

Lemma concat_sep_join (sep : str) (l : list str) :
  l ≠ [] -> concat (map (fun y => y ++ sep) l) = join sep l ++ sep.
Proof.
  induction l as [|x l IH]; [done|]. intros _.
  destruct l as [|y l]; [by simpl; rewrite app_nil_r|].
  cbn [map concat]. cbn [map concat] in IH. rewrite IH by done.
  cbn [join]. by rewrite <- !app_assoc.
Qed.

Lemma join_snoc (sep : str) (l : list str) (x : str) :
  join sep (l ++ [x]) = concat (map (fun y => y ++ sep) l) ++ x.
Proof.
  induction l as [|y l IH]; [done|].
  cbn [app map concat]. rewrite <- app_assoc, <- IH.
  destruct l; simpl; by rewrite <- ?app_assoc.
Qed.

Lemma concat_sep_last (sep : str) (l : list str) :
  l ≠ [] -> Forall col_ok l ->
  exists col, col_ok col
              /\ forall a, a ++ join sep l = (a ++ concat (map (fun y => y ++ sep) (removelast l))) ++ col.
Proof.
  intros Hne Hall. destruct (exists_last Hne) as (l' & x & ->).
  exists x. apply Forall_app in Hall as [_ Hx]. split; [by inversion Hx|].
  intros a. rewrite removelast_last, join_snoc. by rewrite app_assoc.
Qed.

Lemma rstrip_chars_open (a : str) (cols : list str) :
  cols ≠ [] -> Forall col_ok cols ->
  rstrip_chars comma_newline
    (a ++ concat (map (fun col => col ++ comma_newline) cols))
  = a ++ join comma_newline cols.
Proof.
  intros Hne Hall. rewrite concat_sep_join by done.
  destruct (concat_sep_last comma_newline cols Hne Hall) as (col & Hcol & Heq).
  rewrite app_assoc, Heq, <- app_assoc. by apply rstrip_chars_col.
Qed.

Lemma segment_step_ok (segs : list (str * list str)) (r : row) :
  segs_ok segs -> segs_ok (segment_step segs r).
Proof.
  intros Hok. unfold segment_step.
  destruct (table_name r) as [name|]; [|done].
  pose proof (column_body_ok r) as Hcol.
  destruct segs as [|[current cols] older].
  - constructor; [|done]. simpl. split; [done|by constructor].
  - destruct (decide (name = current)) as [->|Hne].
    + inversion Hok as [|? ? [Hne Hcols] Holder]; subst.
      constructor; [|done]. simpl in *. split.
      * by destruct cols.
      * apply Forall_app. split; [done|by constructor].
    + constructor; [|done]. simpl. split; [done|by constructor].
Qed.

Lemma schema_step_open (segs : list (str * list str)) (r : row) :
  segs_ok segs ->
  schema_step (open_text segs) r = open_text (segment_step segs r).
Proof.
  intros Hok. unfold schema_step, segment_step.
  destruct segs as [|[current cols] older]; cbn [open_text].
  - destruct (table_name r) as [name|]; [|done].
    rewrite bool_decide_eq_true_2 by done.
    cbn [open_text rev map concat app]. rewrite column_text_body.
    by rewrite app_nil_r.
  - destruct (table_name r) as [name|]; [|done].
    inversion Hok as [|? ? [Hne Hcols] Holder]; subst. simpl in Hne, Hcols.
    destruct (decide (name = current)) as [->|Hdiff].
    + rewrite bool_decide_eq_false_2 by (by intros []).
      cbn [open_text]. rewrite map_app, concat_app. cbn [map concat].
      rewrite column_text_body, app_nil_r. by rewrite <- !app_assoc.
    + rewrite bool_decide_eq_true_2 by congruence.
      cbn [open_text rev]. rewrite map_app, concat_app. cbn [map concat].
      rewrite column_text_body, !app_nil_r.
      rewrite (app_assoc _ (table_header current)).
      rewrite rstrip_chars_open by done.
      unfold segment_text. cbn [fst snd]. unfold blank_line.
      by rewrite <- !app_assoc.
Qed.

Lemma fold_schema_step_open (schema_data : list row) :
  forall segs,
    segs_ok segs ->
    fold_left schema_step schema_data (open_text segs)
    = open_text (fold_left segment_step schema_data segs)
    /\ segs_ok (fold_left segment_step schema_data segs).
Proof.
  induction schema_data as [|r rows IH]; intros segs Hok; [done|].
  cbn [fold_left]. rewrite schema_step_open by done.
  apply IH. by apply segment_step_ok.
Qed.

Lemma close_open_text (segs : list (str * list str)) :
  segs_ok segs -> close_last_table (open_text segs) = ddl_text (rev segs).
Proof.
  intros Hok. unfold close_last_table, ddl_text.
  destruct segs as [|[current cols] older]; [done|].
  inversion Hok as [|? ? [Hne Hcols] Holder]; subst. simpl in Hne, Hcols.
  cbn [open_text fst snd rev]. rewrite map_app. cbn [map].
  rewrite join_snoc, map_map.
  rewrite (app_assoc _ (table_header current)).
  rewrite rstrip_chars_open by done.
  unfold segment_text. cbn [fst snd]. by rewrite <- !app_assoc.
Qed.

(** X22. The DDL text of the rows is the text of their runs put through
    [fix_sql_schema]: for each run of consecutive rows of one table, in
    order, the header of the table, the columns of the rows joined by a
    comma and a newline, and the closing; a blank line between two runs.
    Rows without a table name add nothing. *)
Theorem build_schema_text_runs (schema_data : list row) :
  build_schema_text schema_data
  = fix_sql_schema (ddl_text (segments schema_data)).
Proof.
  rewrite build_schema_text_unfold. f_equal.
  destruct (fold_schema_step_open schema_data [] ltac:(constructor))
    as [Hfold Hok].
  change (open_text []) with (@nil ascii, @None str) in Hfold.
  rewrite Hfold. unfold segments. by apply close_open_text.
Qed.

(** ** Reading a text for a character after another and white space *)

Lemma scan_seq (a : ascii) (bad : ascii -> bool) (u v : str) :
  forall st st1 st2,
    scan a bad st u = Some st1 -> scan a bad st1 v = Some st2 ->
    scan a bad st (u ++ v) = Some st2.
Proof.
  induction u as [|c u IH]; intros st st1 st2 Hu Hv; simpl in *.
  - by simplify_eq.
  - destruct (st && bad c); [done|]. by apply (IH _ st1).
Qed.

Lemma scan_app_inv (a : ascii) (bad : ascii -> bool) (u v : str) :
  forall st st2,
    scan a bad st (u ++ v) = Some st2 ->
    exists st1, scan a bad st u = Some st1 /\ scan a bad st1 v = Some st2.
Proof.
  induction u as [|c u IH]; intros st st2 Huv; simpl in *.
  - by exists st.
  - destruct (st && bad c); [done|]. by apply IH.
Qed.

Lemma word_not_space (c : ascii) : is_word c = true -> is_space c = false.
Proof. destruct c as [[] [] [] [] [] [] [] []]; vm_compute; congruence. Qed.

Lemma scan_plain_idle (a : ascii) (bad : ascii -> bool) (u : str) :
  is_word a = false -> plain u -> scan a bad false u = Some false.
Proof.
  intros Ha. induction 1 as [|c u Hc Hu IH]; [done|]. simpl.
  destruct (Ascii.eqb_spec c a) as [->|_]; [congruence|done].
Qed.

Lemma scan_plain_armed (a : ascii) (bad : ascii -> bool) (u : str) :
  is_word a = false -> (forall c, is_word c = true -> bad c = false) ->
  plain u -> u ≠ [] -> scan a bad true u = Some false.
Proof.
  intros Ha Hbad Hu Hne. destruct Hu as [|c u Hc Hu]; [done|]. simpl.
  rewrite (Hbad c Hc), (word_not_space c Hc).
  destruct (Ascii.eqb_spec c a) as [->|_]; [congruence|].
  by apply scan_plain_idle.
Qed.

(** What a text that passes never has. *)
Lemma scan_never_armed (a : ascii) (bad : ascii -> bool) (s : str) :
  forall st st',
    scan a bad st s = Some st' ->
    (st = true ->
     forall k c, Forall (fun c => is_space c = true) (take k s) ->
                 s !! k = Some c -> bad c = false)
    /\ never_after a bad s.
Proof.
  induction s as [|x s IH]; intros st st' Hscan.
  - split; [by intros _ k c _ ?|]. by intros q k c ?.
  - simpl in Hscan. destruct (st && bad x) eqn:Hx; [done|].
    destruct (IH _ _ Hscan) as [Harmed Hnever]. split.
    + intros -> [|k] c Hsp Hc; simpl in *.
      * by simplify_eq.
      * apply Forall_cons in Hsp as [Hxs Hsp]. rewrite Hxs, orb_true_r in *.
        by apply (Harmed eq_refl k).
    + intros [|q] k c Hq Hsp Hc; simpl in *.
      * simplify_eq. rewrite Ascii.eqb_refl in *. by apply (Harmed eq_refl k).
      * by apply (Hnever q k).
Qed.

Lemma scan_never (a : ascii) (bad : ascii -> bool) (s : str) (st st' : bool) :
  scan a bad st s = Some st' -> never_after a bad s.
Proof. intros Hscan. by destruct (scan_never_armed _ _ _ _ _ Hscan). Qed.

(** A part of such a text is such a text. *)
Lemma never_after_part (a : ascii) (bad : ascii -> bool) (x b y : str) :
  never_after a bad (x ++ b ++ y) -> never_after a bad b.
Proof.
  intros Hnever q k c Hq Hsp Hc.
  assert (S q + k < length b) as Hlen by (by apply lookup_lt_Some in Hc).
  apply (Hnever (length x + q) k).
  - rewrite lookup_app_r by lia.
    replace (length x + q - length x) with q by lia.
    by apply lookup_app_l_Some.
  - replace (S (length x + q)) with (length x + S q) by lia.
    rewrite drop_app_add', drop_app_le by (done || lia).
    rewrite take_app_le by (rewrite length_drop; lia). done.
  - rewrite lookup_app_r by lia.
    replace (S (length x + q) + k - length x) with (S q + k) by lia.
    by apply lookup_app_l_Some.
Qed.

Lemma never_after_drop (a : ascii) (bad : ascii -> bool) (s : str) (q : nat) :
  never_after a bad s -> never_after a bad (drop q s).
Proof.
  intros Hnever. apply (never_after_part a bad (take q s) _ []).
  by rewrite app_nil_r, take_drop.
Qed.

(** ** Patterns with a gap of white space *)

Lemma matches_Star_inv (p : ascii -> bool) (r : regex) i s n :
  matches (Star p :: r) i s n ->
  exists k m, n = k + m /\ k <= length s
              /\ Forall (fun c => p c = true) (take k s)
              /\ matches r (i + k) (drop k s) m.
Proof.
  remember (Star p :: r) as re eqn:Hre. intros Hm. revert Hre.
  induction Hm as [i s|p' r' i c s n Hc Hm IH|r' s n Hm IH|r' i s n He Hm IH
                  |r' i s n Hm IH|p' r' i s n Hm IH|p' r' i c s n Hc Hm IH
                  |p' r' i s n Hm IH|p' r' i c s n Hc Hm IH
                  |p' r' i s n Hm IH|p' r' i c s n Hc Hm IH];
    intros Hre; try discriminate.
  - injection Hre as -> ->. exists 0, n. rewrite Nat.add_0_r.
    split; [done|]. split; [lia|]. by split; [constructor|].
  - injection Hre as -> ->.
    destruct (IH eq_refl) as (k & m & -> & Hk & Hall & Hrest).
    exists (S k), m. split; [done|]. split; [simpl; lia|].
    split; [by constructor|]. by rewrite <- Nat.add_succ_comm.
Qed.

Lemma matches_Ch_inv (p : ascii -> bool) (r : regex) i s n :
  matches (Ch p :: r) i s n ->
  exists c s' n', s = c :: s' /\ n = S n' /\ p c = true
                  /\ matches r (S i) s' n'.
Proof. inversion 1; subst. eauto 10. Qed.

Lemma matches_gap (r1 r2 : regex) (pa pb : ascii -> bool) i s n :
  matches (r1 ++ Ch pa :: Star is_space :: Ch pb :: r2) i s n ->
  exists q k ca cb,
    s !! q = Some ca /\ pa ca = true
    /\ Forall (fun c => is_space c = true) (take k (drop (S q) s))
    /\ s !! (S q + k) = Some cb /\ pb cb = true.
Proof.
  intros (n1 & n2 & -> & _ & Hm)%matches_app_inv.
  apply matches_Ch_inv in Hm as (ca & s1 & m1 & Heq & -> & Hca & Hm1).
  apply matches_Star_inv in Hm1 as (k & m & -> & Hk & Hall & Hm2).
  apply matches_Ch_inv in Hm2 as (cb & s2 & m2 & Heq2 & -> & Hcb & Hm3).
  assert (s !! n1 = Some ca) as Hq.
  { rewrite <- (Nat.add_0_r n1), <- lookup_drop. by rewrite Heq. }
  assert (drop (S n1) s = s1) as Hs1.
  { rewrite (drop_S _ _ _ Hq) in Heq. by simplify_eq. }
  exists n1, k, ca, cb. rewrite Hs1. split; [done|]. split; [done|].
  split; [done|]. split; [|done].
  rewrite <- Hs1 in Heq2. rewrite <- lookup_drop, <- (Nat.add_0_r k).
  rewrite <- lookup_drop. by rewrite Heq2.
Qed.

Lemma matches_gap_plus (r1 r2 : regex) (pa pb : ascii -> bool) i s n :
  matches (r1 ++ Ch pa :: plus is_space ++ Ch pb :: r2) i s n ->
  matches (r1 ++ Ch pa :: Star is_space :: Ch pb :: r2) i s n.
Proof.
  intros (n1 & n2 & -> & Hr1 & Hm)%matches_app_inv.
  apply matches_app; [done|].
  apply matches_Ch_inv in Hm as (ca & s1 & m1 & -> & -> & Hca & Hm1).
  constructor; [done|].
  cbn [plus app] in Hm1.
  apply matches_Ch_inv in Hm1 as (cb & s2 & m2 & -> & -> & Hcb & Hm2).
  by apply matches_Star_more.
Qed.

(** A pattern with such a gap matches nowhere in a text that never has the
    second character after the first and white space. *)
Lemma no_gap_match (a : ascii) (bad : ascii -> bool) (r1 r2 : regex)
    (pa pb : ascii -> bool) (s : str) :
  never_after a bad s ->
  (forall c, pa c = true -> c = a) ->
  (forall c, pb c = true -> bad c = true) ->
  forall i q ms,
    run (r1 ++ Ch pa :: Star is_space :: Ch pb :: r2) i (drop q s) ms = None.
Proof.
  intros Hnever Hpa Hpb i q ms.
  destruct (run _ i (drop q s) ms) as [[j ms']|] eqn:Hrun; [|done].
  apply run_matches in Hrun as (n & _ & Hm).
  apply matches_gap in Hm as (q' & k & ca & cb & Hq & Hca & Hsp & Hk & Hcb).
  apply Hpa in Hca as ->.
  pose proof (never_after_drop a bad s q Hnever _ _ _ Hq Hsp Hk) as Hno.
  rewrite (Hpb _ Hcb) in Hno. done.
Qed.

(** Where a pattern matches nowhere, [re.sub] changes nothing and
    [re.findall] finds nothing. *)
Lemma sub_nowhere (r : regex) (repl : str) (s : str) :
  (forall i q ms, run r i (drop q s) ms = None) -> sub r repl s = s.
Proof.
  intros Hno. unfold sub.
  pose proof (sub_loop_no_match r repl s [] 0) as Hsub.
  rewrite app_nil_r in Hsub. rewrite Hsub.
  - simpl. specialize (Hno (length s) (length s) []).
    rewrite drop_all in Hno. by rewrite Hno, app_nil_r.
  - intros k _. apply Hno.
Qed.

Lemma findall_loop_nowhere (r : regex) (s : str) :
  forall i, (forall j q ms, run r j (drop q s) ms = None) ->
            findall_loop r i 0 s = [].
Proof.
  induction s as [|c s IH]; intros i Hno.
  - pose proof (Hno i 0 []) as H0. simpl in H0. simpl. by rewrite H0.
  - simpl. pose proof (Hno i 0 []) as H0. simpl in H0. rewrite H0.
    apply IH. intros j q ms. apply (Hno j (S q) ms).
Qed.

(** ** The parts of the text of plain rows *)

Lemma uint_plain (d : Decimal.uint) : plain (txt (NilEmpty.string_of_uint d)).
Proof. induction d; unfold txt; simpl; constructor; done. Qed.

Lemma decimal_plain (n : N) : plain (decimal n).
Proof.
  unfold decimal, NilZero.string_of_uint.
  destruct (N.to_uint n); try apply uint_plain. by repeat constructor.
Qed.

Lemma decimal_nonempty (n : N) : decimal n ≠ [].
Proof.
  unfold decimal, NilZero.string_of_uint. by destruct (N.to_uint n).
Qed.

Lemma plain_default (s : string) (field : option str) :
  plain (txt s) -> plain_field field -> plain (default (txt s) field).
Proof. by destruct field. Qed.

Lemma plain_str_or (a b : option str) :
  plain_field a -> plain_field b ->
  plain (str_or (default [] a) (default [] b)).
Proof.
  intros Ha Hb. destruct a as [[|c a]|]; simpl; try done;
    destruct b; simpl; try done; constructor.
Qed.

Lemma nonempty_ne (s : str) : nonempty s = true -> s ≠ [].
Proof. by destruct s. Qed.

Lemma word_not_rparen (c : ascii) :
  is_word c = true -> Text.eqb ")" c = false.
Proof. destruct c as [[] [] [] [] [] [] [] []]; vm_compute; congruence. Qed.

Lemma word_not_paren_or_semi (c : ascii) :
  is_word c = true -> paren_or_semi c = false.
Proof. destruct c as [[] [] [] [] [] [] [] []]; vm_compute; congruence. Qed.

(** The scan of a literal is computed; the scan of a text of word
    characters ends idle. *)
Ltac scan_piece :=
  lazymatch goal with
  | |- scan ?a ?bad ?st [] = _ => reflexivity
  | |- scan ?a ?bad ?st (txt ?s) = _ =>
      let v := eval vm_compute in (scan a bad st (txt s)) in
      change (scan a bad st (txt s)) with v; reflexivity
  | |- scan ?a ?bad ?st [?c] = _ =>
      let v := eval vm_compute in (scan a bad st [c]) in
      change (scan a bad st [c]) with v; reflexivity
  | |- scan ?a ?bad false _ = _ =>
      apply scan_plain_idle; [reflexivity|assumption]
  | |- scan ?a ?bad true _ = _ =>
      apply scan_plain_armed;
      [reflexivity
      |first [exact word_not_rparen|exact word_not_paren_or_semi]
      |first [assumption|apply decimal_plain]
      |first [assumption|apply decimal_nonempty]]
  end.

Ltac scan_chain :=
  repeat (eapply scan_seq; [scan_piece|]); scan_piece.

(** The text of a column in its cases. *)
Lemma column_body_cases (r : row) (P : str -> Prop) :
  plain_fields r ->
  (forall column_name data_type digits (null key : string) ref_table ref_col,
     plain column_name -> plain data_type -> plain digits -> digits ≠ [] ->
     plain ref_table -> ref_table ≠ [] -> plain ref_col -> ref_col ≠ [] ->
     null = " NOT NULL"%string \/ null = " NULL"%string ->
     key = " PRIMARY KEY"%string \/ key = EmptyString ->
     P (txt "  [" ++ column_name ++ txt "] " ++ data_type ++ txt null
        ++ txt key)
     /\ P (txt "  [" ++ column_name ++ txt "] " ++ data_type ++ txt "("
           ++ digits ++ txt ")" ++ txt null ++ txt key)
     /\ P (txt "  [" ++ column_name ++ txt "] " ++ data_type ++ txt null
           ++ txt key ++ txt " FOREIGN KEY REFERENCES " ++ ref_table
           ++ txt "(" ++ ref_col ++ txt ")")
     /\ P (txt "  [" ++ column_name ++ txt "] " ++ data_type ++ txt "("
           ++ digits ++ txt ")" ++ txt null ++ txt key
           ++ txt " FOREIGN KEY REFERENCES " ++ ref_table
           ++ txt "(" ++ ref_col ++ txt ")")) ->
  P (column_body r).
Proof.
  intros (Hcn & Hdt & Hrt1 & Hrt2 & Hrc1 & Hrc2) Hcases.
  unfold column_body, length_text, constraints_text. cbv zeta.
  pose proof (plain_default "UnknownColumn" _ ltac:(by repeat constructor) Hcn)
    as Hcn'.
  pose proof (plain_default "VARCHAR" _ ltac:(by repeat constructor) Hdt)
    as Hdt'.
  pose proof (plain_str_or _ _ Hrt1 Hrt2) as Hrt.
  pose proof (plain_str_or _ _ Hrc1 Hrc2) as Hrc.
  set (cn := default (txt "UnknownColumn") (column_name r)) in *.
  set (dt := default (txt "VARCHAR") (data_type r)) in *.
  set (rt := str_or (default [] (ReferenceTable r)) _) in *.
  set (rc := str_or (default [] (ReferenceColumn r)) _) in *.
  set (n := Z.to_N _).
  assert (exists null, (if negb (default true (is_nullable r))
                        then txt " NOT NULL" else txt " NULL") = txt null
                       /\ (null = " NOT NULL"%string \/ null = " NULL"%string))
    as (null & -> & Hnull).
  { destruct (negb _);
      [exists " NOT NULL"%string|exists " NULL"%string]; auto. }
  assert (exists key, (if default false (is_primary_key r)
                       then txt " PRIMARY KEY" else []) = txt key
                      /\ (key = " PRIMARY KEY"%string \/ key = EmptyString))
    as (key & -> & Hkey).
  { destruct (default false (is_primary_key r));
      [exists " PRIMARY KEY"%string|exists EmptyString]; auto. }
  destruct (nonempty rt && nonempty rc) eqn:Hne.
  - apply andb_true_iff in Hne as [Hnt%nonempty_ne Hnc%nonempty_ne].
    destruct (Hcases cn dt (decimal n) null key rt rc) as (H1 & H2 & H3 & H4);
      try done; [apply decimal_plain|apply decimal_nonempty|].
    destruct (is_varchar dt), (default false (is_foreign_key r));
      rewrite <- ?app_assoc, ?app_nil_r; cbn [app]; done.
  - destruct (Hcases cn dt (decimal n) null key (txt "x") (txt "x"))
      as (H1 & H2 & _ & _);
      try done; try (by repeat constructor);
      [apply decimal_plain|apply decimal_nonempty|].
    destruct (is_varchar dt), (default false (is_foreign_key r));
      rewrite <- ?app_assoc, ?app_nil_r; cbn [app]; done.
Qed.

(** ** Reading the text of plain runs *)

Section ScanText.
Variables (a : ascii) (bad : ascii -> bool) (good : bool -> Prop).
Hypothesis Hbody :
  forall col st, plain_col col ->
                 exists st', scan a bad st col = Some st' /\ good st'.
Hypothesis Hsep :
  forall st, good st -> exists st', scan a bad st comma_newline = Some st'.
Hypothesis Hhead :
  forall name, good_name name ->
               exists st', scan a bad false (table_header name) = Some st'.

Lemma scan_cols (cols : list str) :
  cols ≠ [] -> Forall plain_col cols ->
  forall st, exists st',
      scan a bad st (join comma_newline cols) = Some st' /\ good st'.
Proof using Hbody Hsep.
  induction cols as [|col cols IH]; [done|]. intros _ Hall st.
  apply Forall_cons in Hall as [Hcol Hall].
  destruct (Hbody col st Hcol) as (st1 & Hst1 & Hgood).
  destruct cols as [|col' cols]; [by exists st1|].
  destruct (Hsep st1 Hgood) as (st2 & Hst2).
  destruct (IH ltac:(done) Hall st2) as (st3 & Hst3 & Hgood3).
  exists st3. split; [|done]. cbn [join].
  apply (scan_seq _ _ _ _ _ st1); [done|].
  by apply (scan_seq _ _ _ _ _ st2).
Qed.

Lemma scan_open_segment (seg : str * list str) :
  plain_seg seg ->
  exists st', scan a bad false (table_header seg.1 ++ join comma_newline seg.2)
              = Some st' /\ good st'.
Proof using Hbody Hsep Hhead.
  intros (Hname & Hne & Hcols).
  destruct (Hhead _ Hname) as (st1 & Hst1).
  destruct (scan_cols _ Hne Hcols st1) as (st2 & Hst2 & Hgood).
  exists st2. split; [|done]. by apply (scan_seq _ _ _ _ _ st1).
Qed.

Hypothesis Hclose :
  forall st, good st -> scan a bad st table_close = Some false.
Hypothesis Hblank : scan a bad false blank_line = Some false.

Lemma scan_segment (seg : str * list str) :
  plain_seg seg -> scan a bad false (segment_text seg) = Some false.
Proof using Hbody Hsep Hhead Hclose.
  intros Hseg. destruct (scan_open_segment seg Hseg) as (st & Hst & Hgood).
  unfold segment_text. rewrite app_assoc.
  apply (scan_seq _ _ _ _ _ st); [done|]. by apply Hclose.
Qed.

Lemma scan_ddl (segs : list (str * list str)) :
  Forall plain_seg segs -> scan a bad false (ddl_text segs) = Some false.
Proof using Hbody Hsep Hhead Hclose Hblank.
  unfold ddl_text. induction 1 as [|seg segs Hseg Hsegs IH]; [done|].
  cbn [map]. destruct segs as [|seg' segs]; [by apply scan_segment|].
  cbn [join]. cbn [map] in IH.
  apply (scan_seq _ _ _ _ _ false); [by apply scan_segment|].
  by apply (scan_seq _ _ _ _ _ false).
Qed.

End ScanText.

Ltac scan_cases :=
  intros column_name data_type digits null key ref_table ref_col
    ? ? ? ? ? ? ? ? [-> | ->] [-> | ->].

Lemma scan_lparen_body (col : str) (st : bool) :
  plain_col col ->
  exists st', scan "(" (Text.eqb ")") st col = Some st' /\ st' = false.
Proof.
  intros (r & Hr & ->). exists false. split; [|done].
  apply (column_body_cases r); [done|]. scan_cases;
    destruct st; repeat split; scan_chain.
Qed.

Lemma scan_comma_body (col : str) (st : bool) :
  plain_col col ->
  exists st', scan "," paren_or_semi st col = Some st' /\ st' = false.
Proof.
  intros (r & Hr & ->). exists false. split; [|done].
  apply (column_body_cases r); [done|]. scan_cases;
    destruct st; repeat split; scan_chain.
Qed.

Lemma scan_rparen_body (bad : ascii -> bool) (col : str) (st : bool) :
  bad = Text.eqb_ci "R" \/ bad = Text.eqb ";" ->
  plain_col col ->
  exists st', scan ")" bad st col = Some st' /\ True.
Proof.
  intros Hbad (r & Hr & ->).
  apply (column_body_cases r (fun col => exists st', scan ")" bad st col = Some st' /\ True));
    [done|].
  scan_cases; destruct st, Hbad as [-> | ->];
    repeat split; eexists; (split; [scan_chain|done]).
Qed.

Lemma scan_header (a : ascii) (bad : ascii -> bool) (name : str) :
  a = "("%char \/ a = ","%char \/ a = ")"%char ->
  bad "010"%char = false ->
  good_name name ->
  exists st', scan a bad false (table_header name) = Some st'.
Proof.
  intros Ha Hnl [_ Hname]. unfold table_header. rewrite app_assoc.
  assert (scan a bad false (txt "CREATE TABLE [" ++ name) = Some false) as H1.
  { apply (scan_seq _ _ _ _ _ false).
    - destruct Ha as [->|[->| ->]]; reflexivity.
    - apply scan_plain_idle; [|done].
      destruct Ha as [->|[->| ->]]; reflexivity. }
  assert (exists st, scan a bad false (txt "] (" ++ ["010"%char]) = Some st)
    as [st H2].
  { destruct Ha as [->|[->| ->]]; unfold txt; simpl; rewrite ?Hnl; eauto. }
  exists st. by apply (scan_seq _ _ _ _ _ false).
Qed.

(** The text of plain runs has no closing parenthesis after an opening one
    and white space, ... *)
Lemma never_lparen (segs : list (str * list str)) :
  Forall plain_seg segs -> never_after "(" (Text.eqb ")") (ddl_text segs).
Proof.
  intros Hsegs. apply (scan_never _ _ _ false false).
  apply (scan_ddl _ _ (fun st => st = false)); try done.
  - intros col st Hcol. by apply scan_lparen_body.
  - intros st ->. by eexists.
  - intros name Hname. apply scan_header; auto.
  - by intros st ->.
Qed.

(** ... no closing parenthesis and no semicolon after a comma and white
    space, ... *)
Lemma never_comma (segs : list (str * list str)) :
  Forall plain_seg segs -> never_after "," paren_or_semi (ddl_text segs).
Proof.
  intros Hsegs. apply (scan_never _ _ _ false false).
  apply (scan_ddl _ _ (fun st => st = false)); try done.
  - intros col st Hcol. by apply scan_comma_body.
  - intros st ->. by eexists.
  - intros name Hname. apply scan_header; auto.
  - by intros st ->.
Qed.

(** ... and no R after a closing parenthesis and white space. *)
Lemma never_rparen (segs : list (str * list str)) :
  Forall plain_seg segs -> never_after ")" (Text.eqb_ci "R") (ddl_text segs).
Proof.
  intros Hsegs. apply (scan_never _ _ _ false false).
  apply (scan_ddl _ _ (fun _ => True)); try done.
  - intros col st Hcol. apply scan_rparen_body; auto.
  - intros [|] _; by eexists.
  - intros name Hname. apply scan_header; auto.
  - by intros [|] _.
Qed.

(** A plain run has no closing of a statement before its own. *)
Lemma never_closing (seg : str * list str) :
  plain_seg seg ->
  never_after ")" (Text.eqb ";")
    (table_header seg.1 ++ join comma_newline seg.2 ++ ["010"%char]).
Proof.
  intros Hseg.
  destruct (scan_open_segment ")" (Text.eqb ";") (fun _ => True)) with (seg := seg)
    as (st & Hst & _); try done.
  - intros col st Hcol. apply scan_rparen_body; auto.
  - intros [|] _; by eexists.
  - intros name Hname. apply scan_header; auto.
  - apply (scan_never _ _ _ false st). rewrite app_assoc.
    apply (scan_seq _ _ _ _ _ st); [done|]. by destruct st.
Qed.

(** ** The text of plain rows *)

Lemma segment_step_plain (segs : list (str * list str)) (r : row) :
  plain_row r -> Forall plain_seg segs ->
  Forall plain_seg (segment_step segs r).
Proof.
  unfold plain_row, segment_step. intros Hr Hsegs.
  destruct (table_name r) as [name|]; [|done]. destruct Hr as [Hname Hr].
  assert (plain_col (column_body r)) as Hcol by (by exists r).
  assert (plain_seg (name, [column_body r])) as Hnew.
  { split; [done|]. split; [done|]. by constructor. }
  destruct segs as [|[current cols] older]; [by constructor|].
  destruct (decide (name = current)) as [->|_]; [|by constructor].
  apply Forall_cons in Hsegs as [(_ & Hne & Hcols) Holder].
  constructor; [|done]. split; [done|]. simpl in *. split.
  - by destruct cols.
  - apply Forall_app. split; [done|by constructor].
Qed.

Lemma segments_plain (schema_data : list row) :
  Forall plain_row schema_data -> Forall plain_seg (segments schema_data).
Proof.
  intros Hrows. unfold segments. apply Forall_rev.
  assert (forall segs, Forall plain_seg segs ->
                       Forall plain_seg (fold_left segment_step schema_data segs))
    as Hfold; [|by apply Hfold].
  induction Hrows as [|r rows Hr Hrows IH]; intros segs Hsegs; [done|].
  cbn [fold_left]. by apply IH, segment_step_plain.
Qed.

Lemma eqb_ci_lparen (c : ascii) : Text.eqb_ci "(" c = true -> c = "("%char.
Proof. destruct c as [[] [] [] [] [] [] [] []]; vm_compute; congruence. Qed.

Lemma eqb_comma (c : ascii) : Text.eqb "," c = true -> c = ","%char.
Proof. intros H. symmetry. by apply Ascii.eqb_eq. Qed.

Lemma eqb_rparen_bad (c : ascii) :
  Text.eqb ")" c = true -> paren_or_semi c = true.
Proof. intros H%Ascii.eqb_eq. by subst. Qed.

Lemma eqb_semi_bad (c : ascii) :
  Text.eqb ";" c = true -> paren_or_semi c = true.
Proof. intros H%Ascii.eqb_eq. by subst. Qed.

Lemma fix_sql_schema_plain (segs : list (str * list str)) :
  Forall plain_seg segs -> fix_sql_schema (ddl_text segs) = ddl_text segs.
Proof.
  intros Hsegs. unfold fix_sql_schema. cbv zeta.
  pose proof (never_lparen segs Hsegs) as Hl.
  pose proof (never_comma segs Hsegs) as Hc.
  rewrite (sub_nowhere nvarchar_empty_re).
  2:{ apply (no_gap_match "(" (Text.eqb ")") (lit_ci "NVARCHAR") []);
      [done|apply eqb_ci_lparen|]. intros c. by rewrite eqb_ci_paren_eqb. }
  rewrite (sub_nowhere varchar_empty_re).
  2:{ apply (no_gap_match "(" (Text.eqb ")") (lit_ci "VARCHAR") []);
      [done|apply eqb_ci_lparen|]. intros c. by rewrite eqb_ci_paren_eqb. }
  rewrite (sub_nowhere comma_paren_re).
  2:{ apply (no_gap_match "," paren_or_semi [] []);
      [done|apply eqb_comma|apply eqb_rparen_bad]. }
  rewrite (sub_nowhere comma_semi_re).
  2:{ apply (no_gap_match "," paren_or_semi [] []);
      [done|apply eqb_comma|apply eqb_semi_bad]. }
  done.
Qed.

(** X23. For rows whose names and types are made of word characters the
    repairs of [fix_sql_schema] change nothing: the DDL text is exactly the
    text of the runs of the rows. *)
Theorem build_schema_text_plain (schema_data : list row) :
  Forall plain_row schema_data ->
  build_schema_text schema_data = ddl_text (segments schema_data).
Proof.
  intros Hrows. rewrite build_schema_text_unfold.
  destruct (fold_schema_step_open schema_data [] ltac:(constructor))
    as [Hfold Hok].
  change (open_text []) with (@nil ascii, @None str) in Hfold.
  rewrite Hfold, close_open_text by done.
  by apply fix_sql_schema_plain, segments_plain.
Qed.

(** ** The statements read back from the text of plain rows *)

(** At the header of a table with a good name the table pattern finds a
    match, when a closing comes later. *)
Lemma run_table_block_closing (i : nat) (name u t : str) :
  good_name name ->
  exists y, run table_block_re i
              (table_header name ++ u ++ ")"%char :: ";"%char :: t) []
            = Some y.
Proof.
  intros [Hne Hword]. destruct name as [|c name]; [done|].
  apply Forall_cons in Hword as [Hc Hword].
  rewrite table_header_unfold.
  change table_block_re
    with (Mark :: lit_ci "CREATE TABLE" ++ plus is_space
          ++ Opt (Text.eqb "[")
             :: (plus is_word
                 ++ Opt (Text.eqb "]") :: StarLazy any
                    :: lit_ci ");" ++ [Mark])).
  rewrite run_Mark.
  assert (exists y,
             run (plus is_word
                  ++ Opt (Text.eqb "]") :: StarLazy any
                     :: lit_ci ");" ++ [Mark]) (i + 14)
               ((c :: name) ++ "]"%char :: " "%char :: "("%char :: newline
                :: u ++ ")"%char :: ";"%char :: t) [i] = Some y)
    as [y Hy].
  { destruct (star_lazy_some any
                (fun j t0 => run (lit_ci ");" ++ [Mark]) j t0 [i])
                (S (S (i + 14) + length name))
                (" "%char :: "("%char :: newline :: u)
                (")"%char :: ";"%char :: t)
                (S (S (S (S (i + 14) + length name)
                         + length (" "%char :: "("%char :: newline :: u))),
                 [S (S (S (S (i + 14) + length name)
                          + length (" "%char :: "("%char :: newline :: u)));
                  i]))
      as [z Hz].
    { apply Forall_forall. done. }
    { rewrite run_closing. reflexivity. }
    unfold plus. simpl app. rewrite run_Ch, Hc, run_Star.
    apply (star_greedy_some _ _ _ _ _ z); [exact Hword|].
    rewrite run_Opt. change (Text.eqb "]" "]") with true. cbv iota.
    rewrite run_StarLazy. simpl app in Hz. by rewrite Hz. }
  exists y. by apply run_header_start.
Qed.

(** The match of the table pattern at a statement that has no closing
    before its own is the statement. *)
Lemma run_table_block_exact (i : nat) (name u t : str) :
  good_name name ->
  never_after ")" (Text.eqb ";") (table_header name ++ u) ->
  let n := length (table_header name ++ u ++ closing) in
  run table_block_re i (table_header name ++ u ++ closing ++ t) []
  = Some (i + n, [i + n; i]).
Proof.
  intros Hname Hnever n. change closing with [")"; ";"]%char in *.
  cbn [app]. destruct (run_table_block_closing i name u t Hname) as [[j ms] Hy].
  rewrite Hy. f_equal.
  apply run_table_block in Hy as (m & p & t' & -> & -> & Hm & Hhead & Hdrop & Hmin).
  set (U := table_header name ++ u) in *.
  assert (n = length U + 2) as Hn.
  { unfold n, U. rewrite !length_app. simpl. lia. }
  rewrite app_assoc in Hhead, Hdrop, Hmin, Hm. fold U in Hhead, Hdrop, Hmin, Hm.
  assert (m + p = length U) as Hmp; [|by replace (i + m + p + 2) with (i + n) by lia].
  destruct (Nat.lt_trichotomy (m + p) (length U)) as [Hlt|[Heq|Hgt]]; [|done|].
  - exfalso.
    assert (U !! (m + p) = Some ")"%char) as Hc.
    { rewrite <- (lookup_app_l U (")"%char :: ";"%char :: t)) by done.
      rewrite <- (Nat.add_0_r (m + p)), <- lookup_drop. by rewrite Hdrop. }
    assert ((U ++ ")"%char :: ";"%char :: t) !! (S (m + p)) = Some ";"%char) as Hd.
    { replace (S (m + p)) with (m + p + 1) by lia.
      rewrite <- lookup_drop. by rewrite Hdrop. }
    destruct (decide (S (m + p) = length U)) as [Hend|Hin].
    + rewrite lookup_app_r, Hend, Nat.sub_diag in Hd by lia. done.
    + rewrite lookup_app_l in Hd by lia.
      specialize (Hnever (m + p) 0 ";"%char Hc ltac:(constructor)).
      rewrite Nat.add_0_r in Hnever. by specialize (Hnever Hd).
  - exfalso. destruct (decide (length U < m)) as [Hbig|Hsmall].
    + apply Hhead. apply (elem_of_take _ _ _). exists (length U).
      split; [|done]. by rewrite lookup_app_r, Nat.sub_diag by lia.
    + specialize (Hmin (length U - m) ltac:(lia)).
      replace (m + (length U - m)) with (length U) in Hmin by lia.
      by rewrite drop_app_length in Hmin.
Qed.

Lemma segment_text_parts (seg : str * list str) :
  segment_text seg
  = table_header seg.1 ++ (join comma_newline seg.2 ++ [newline]) ++ closing.
Proof. unfold segment_text. by rewrite <- app_assoc. Qed.

Lemma run_segment (i : nat) (seg : str * list str) (t : str) :
  plain_seg seg ->
  run table_block_re i (segment_text seg ++ t) []
  = Some (i + length (segment_text seg),
          [i + length (segment_text seg); i]).
Proof.
  intros Hseg. rewrite segment_text_parts, <- !app_assoc.
  pose proof (run_table_block_exact i seg.1 (join comma_newline seg.2 ++ [newline]) t)
    as Hrun.
  cbv zeta in Hrun. rewrite <- !app_assoc in Hrun. apply Hrun.
  - by destruct Hseg.
  - by apply never_closing.
Qed.

Lemma segment_text_cons (seg : str * list str) :
  exists x, segment_text seg = "C"%char :: x.
Proof. unfold segment_text, table_header. by eexists. Qed.

Lemma findall_ddl (text : str) (segs : list (str * list str)) :
  Forall plain_seg segs ->
  forall pre,
    text = pre ++ ddl_text segs ->
    map (group1 text) (findall_loop table_block_re (length pre) 0 (ddl_text segs))
    = map segment_text segs.
Proof.
  induction 1 as [|seg segs Hseg Hsegs IH]; intros pre Htext; [done|].
  assert (forall t, text = pre ++ segment_text seg ++ t ->
            map (group1 text)
              (findall_loop table_block_re (length pre) 0 (segment_text seg ++ t))
            = segment_text seg
              :: map (group1 text)
                   (findall_loop table_block_re
                      (length pre + length (segment_text seg)) 0 t)) as Hstep.
  { intros t Ht. destruct (segment_text_cons seg) as [x Hx].
    pose proof (run_segment (length pre) seg t Hseg) as Hrun.
    rewrite Hx in Hrun |- *. cbn [app] in Hrun |- *.
    rewrite findall_loop_cons, Hrun. cbn [map]. f_equal.
    - unfold group1, slice.
      replace (length pre + length ("C"%char :: x) - length pre)
        with (length ("C"%char :: x)) by lia.
      rewrite Ht, Hx, drop_app_length. by rewrite take_app_length.
    - simpl length.
      replace (Nat.max (length pre + S (length x)) (S (length pre)))
        with (length pre + S (length x)) by lia.
      replace (length pre + S (length x) - length pre) with (S (length x))
        by lia.
      change ("C"%char :: x ++ t) with (("C"%char :: x) ++ t).
      by rewrite (drop_app_length' _ _ (S (length x))) by done. }
  unfold ddl_text in *. destruct segs as [|seg' segs].
  - cbn [map join] in *. rewrite <- (app_nil_r (segment_text seg)) at 1.
    rewrite Hstep by (by rewrite app_nil_r). done.
  - change (join blank_line (map segment_text (seg :: seg' :: segs)))
      with (segment_text seg ++ blank_line
            ++ join blank_line (map segment_text (seg' :: segs))) in *.
    set (rest := join blank_line (map segment_text (seg' :: segs))) in *.
    rewrite Hstep by done. cbn [map]. f_equal.
    unfold blank_line. cbn [app].
    rewrite findall_loop_cons, run_table_block_first by (by left).
    rewrite findall_loop_cons, run_table_block_first by (by left).
    specialize (IH (pre ++ segment_text seg ++ blank_line)).
    rewrite !length_app in IH. change (length blank_line) with 2 in IH.
    replace (length pre + (length (segment_text seg) + 2))
      with (S (S (length pre + length (segment_text seg)))) in IH by lia.
    apply IH. rewrite Htext. by rewrite <- !app_assoc.
Qed.

(** X24. The text of plain rows reads back as written: the statements
    that [split_schema_to_tables] gives are the statements of the runs of
    the rows, in order, and [extract_table_name] gives the name of each
    run. *)
Theorem split_schema_to_tables_plain (schema_data : list row) :
  Forall plain_row schema_data ->
  let tables := split_schema_to_tables (build_schema_text schema_data) in
  tables = map segment_text (segments schema_data)
  /\ map extract_table_name tables = map fst (segments schema_data).
Proof.
  intros Hrows tables. pose proof (segments_plain _ Hrows) as Hsegs.
  assert (tables = map segment_text (segments schema_data)) as Htables.
  { unfold tables, split_schema_to_tables, findall.
    rewrite build_schema_text_unfold.
    destruct (fold_schema_step_open schema_data [] ltac:(constructor))
      as [Hfold Hok].
    change (open_text []) with (@nil ascii, @None str) in Hfold.
    rewrite Hfold, close_open_text by done.
    rewrite fix_sql_schema_plain by done.
    by apply (findall_ddl _ _ Hsegs []). }
  split; [done|]. rewrite Htables, map_map.
  apply map_ext_Forall. eapply Forall_impl; [exact Hsegs|].
  intros seg [Hname _]. unfold segment_text.
  by apply extract_table_name_header.
Qed.

(** ** The foreign keys of the text of plain rows *)

Lemma foreign_key_re_gap :
  foreign_key_re
  = (lit_ci "FOREIGN" ++ plus is_space ++ lit_ci "KEY" ++ [Star is_space]
     ++ lit_ci "(" ++ plus not_rparen)
    ++ Ch (Text.eqb_ci ")") :: plus is_space
    ++ Ch (Text.eqb_ci "R")
       :: (lit_ci "EFERENCES" ++ plus is_space ++ [Opt (Text.eqb "[")]
           ++ [Mark] ++ plus is_word ++ [Mark; Opt (Text.eqb "]")]).
Proof. reflexivity. Qed.

Lemma foreign_key_re_nowhere (s : str) :
  never_after ")" (Text.eqb_ci "R") s ->
  forall i q ms, run foreign_key_re i (drop q s) ms = None.
Proof.
  intros Hnever i q ms.
  destruct (run foreign_key_re i (drop q s) ms) as [[j ms']|] eqn:Hrun;
    [|done].
  apply run_matches in Hrun as (n & _ & Hm).
  rewrite foreign_key_re_gap in Hm.
  apply matches_gap_plus, matches_gap in Hm
    as (q' & k & ca & cb & Hq & Hca & Hsp & Hk & Hcb).
  apply eqb_ci_paren in Hca as ->.
  pose proof (never_after_drop _ _ s q Hnever _ _ _ Hq Hsp Hk) as Hno.
  congruence.
Qed.

Lemma extract_foreign_key_targets_plain (seg : str * list str) :
  plain_seg seg -> extract_foreign_key_targets (segment_text seg) = ∅.
Proof.
  intros Hseg. unfold extract_foreign_key_targets, findall.
  rewrite findall_loop_nowhere; [done|].
  apply foreign_key_re_nowhere.
  by apply (never_rparen [seg]), Forall_singleton.
Qed.

Lemma last_with_key_elem_of {A K : Type} `{EqDecision K} (key : A -> K)
    (k : K) (l : list A) (x : A) :
  last_with_key key k l = Some x -> x ∈ l.
Proof.
  unfold last_with_key. intros [l' Hl]%last_Some.
  assert (x ∈ filter (fun y => key y = k) l) as Hin.
  { rewrite Hl. apply elem_of_app. right. left. }
  by apply list_elem_of_filter in Hin as [_ Hin].
Qed.

(** X25. The dependency graph of the text of plain rows has no edge: the
    foreign keys of the rows are written without a column list before
    REFERENCES, which the pattern of [extract_foreign_key_targets] asks
    for, so every table of the graph has the empty set of targets. *)
Theorem build_dependency_graph_plain (schema_data : list row) :
  Forall plain_row schema_data ->
  let tables := split_schema_to_tables (build_schema_text schema_data) in
  let graph := (build_dependency_graph tables).1 in
  dom graph = list_to_set (map fst (segments schema_data))
  /\ forall name targets, graph !! name = Some targets -> targets = ∅.
Proof.
  intros Hrows tables graph. pose proof (segments_plain _ Hrows) as Hsegs.
  assert (tables = map segment_text (segments schema_data)) as Htables.
  { unfold tables, split_schema_to_tables, findall.
    rewrite build_schema_text_unfold.
    destruct (fold_schema_step_open schema_data [] ltac:(constructor))
      as [Hfold Hok].
    change (open_text []) with (@nil ascii, @None str) in Hfold.
    rewrite Hfold, close_open_text by done.
    rewrite fix_sql_schema_plain by done.
    by apply (findall_ddl _ _ Hsegs []). }
  assert (map extract_table_name tables = map fst (segments schema_data))
    as Hnames.
  { rewrite Htables, map_map.
    apply map_ext_Forall. eapply Forall_impl; [exact Hsegs|].
    intros seg [Hname _]. unfold segment_text.
    by apply extract_table_name_header. }
  unfold graph.
  destruct (build_dependency_graph_fold tables)
    as (g & d & -> & Hkeys & Hget & Hall & Hgraph & _).
  cbn [fst]. split.
  - apply set_eq. intros k. rewrite elem_of_dom, elem_of_list_to_set.
    rewrite <- Hnames, Hgraph, <- (first_wins_keys extract_table_name), <- Hkeys.
    rewrite <- dict_has_elem_of. unfold dict_has.
    destruct (dict_get k d); simpl.
    + split; [done|]. by eexists.
    + split; [by intros [? ?]|done].
  - intros name targets. rewrite Hgraph, Hget.
    destruct (last_with_key extract_table_name name tables) as [ddl|] eqn:Hl;
      [|done].
    simpl. intros [= <-]. apply last_with_key_elem_of in Hl.
    rewrite Htables in Hl. apply list_elem_of_fmap in Hl as (seg & -> & Hseg).
    apply extract_foreign_key_targets_plain.
    rewrite Forall_forall in Hsegs. by apply Hsegs.
Qed.

(** X26. For plain rows that come table by table, as [get_schema] orders
    them, the chunks that [chunk_tables] gives for the text of the rows
    are the statements of the tables, one chunk for each table, in the
    order of the rows. *)
Theorem chunk_tables_plain (schema_data : list row)
    (max_columns_per_chunk : Z) :
  Forall plain_row schema_data ->
  NoDup (map fst (segments schema_data)) ->
  let tables := split_schema_to_tables (build_schema_text schema_data) in
  chunk_tables (build_dependency_graph tables).1
    (build_dependency_graph tables).2 max_columns_per_chunk
  = Ok (map segment_text (segments schema_data)).
Proof.
  intros Hrows Hnd tables. pose proof (segments_plain _ Hrows) as Hsegs.
  assert (tables = map segment_text (segments schema_data)) as Htables.
  { unfold tables, split_schema_to_tables, findall.
    rewrite build_schema_text_unfold.
    destruct (fold_schema_step_open schema_data [] ltac:(constructor))
      as [Hfold Hok].
    change (open_text []) with (@nil ascii, @None str) in Hfold.
    rewrite Hfold, close_open_text by done.
    rewrite fix_sql_schema_plain by done.
    by apply (findall_ddl _ _ Hsegs []). }
  assert (map extract_table_name tables = map fst (segments schema_data))
    as Hnames.
  { rewrite Htables, map_map.
    apply map_ext_Forall. eapply Forall_impl; [exact Hsegs|].
    intros seg [Hname _]. unfold segment_text.
    by apply extract_table_name_header. }
  rewrite <- Hnames in Hnd.
  destruct (build_dependency_graph_fold tables)
    as (g & d & -> & Hkeys & _ & _ & _ & Hid).
  cbn [fst snd]. rewrite chunk_tables_values.
  - rewrite (Hid Hnd), <- list_fmap_compose. simpl.
    by rewrite list_fmap_id, Htables.
  - rewrite Hkeys. apply first_wins_NoDup.
Qed.

(** ** The callers of [call_llm] *)

Lemma call_llm_stripped (configured : bool) (r : reply) (sql : str) :
  call_llm configured r = Ok sql -> strip sql = sql.
Proof.
  unfold call_llm. destruct configured; [|done]. simpl.
  destruct r as [|status body]; [done|].
  unfold try_except.
  destruct (_ ← raise_for_status status; _) as [s|e] eqn:Hbody.
  - intros [= <-].
    destruct (raise_for_status status); [|done]. simpl in Hbody.
    destruct body as [data|]; [|done]. simpl in Hbody.
    destruct (py_index data "choices") as [choices|]; [|done].
    simpl in Hbody. destruct (py_first choices) as [choice|]; [|done].
    simpl in Hbody. destruct (py_index choice "message") as [message|]; [|done].
    simpl in Hbody. destruct (py_index message "content") as [content|]; [|done].
    simpl in Hbody. destruct content; try done. simpl in Hbody.
    injection Hbody as <-. apply strip_idem.
  - by destruct (is_request_exception e), (is_value_key_index_error e).
Qed.

(** X27. [analyze_normalization] gives SQL to review exactly when there
    are schema chunks and [call_llm] returns a text that is not empty; the
    SQL is then that text as it is, its second [strip] changes nothing.
    In the other cases it reports a failure and raises nothing. *)
Theorem analyze_normalization_review (all_chunks : list str)
    (configured : bool) (r : reply) (sql : str) :
  analyze_normalization all_chunks configured r = SqlToReview sql
  <-> all_chunks ≠ [] /\ call_llm configured r = Ok sql /\ sql ≠ [].
Proof.
  unfold analyze_normalization. split.
  - destruct all_chunks as [|chunk chunks]; [done|].
    destruct (call_llm configured r) as [s|e] eqn:Hcall; [|done].
    rewrite (call_llm_stripped _ _ _ Hcall).
    destruct s; simpl; [done|]. by intros [= <-].
  - intros (Hne & Hcall & Hsql). destruct all_chunks; [done|].
    rewrite Hcall, (call_llm_stripped _ _ _ Hcall). by destruct sql.
Qed.

Lemma starts_with_prefix (x s : str) :
  starts_with x s = true <-> exists b, s = x ++ b.
Proof.
  revert s. induction x as [|c x IH]; intros s; simpl.
  - split; [by exists s|done].
  - destruct s as [|d s]; [split; [done|by intros [? ?]]|].
    rewrite andb_true_iff, IH. split.
    + intros [->%Ascii.eqb_eq [b ->]]. by exists b.
    + intros [b [= -> ->]]. split; [apply Ascii.eqb_refl|by exists b].
Qed.

Lemma occurs_in_cons (x : str) (c : ascii) (s : str) :
  occurs_in x (c :: s) -> starts_with x (c :: s) = true \/ occurs_in x s.
Proof.
  intros ([|d a] & b & Heq).
  - left. apply starts_with_prefix. by exists b.
  - right. injection Heq as -> ->. by exists a, b.
Qed.

(** The pieces of [s.split(sep)]: the first is the start of the text, and
    [sep] occurs in none. *)
Lemma py_split_loop_pieces (sep : str) :
  sep ≠ [] ->
  forall s skip,
    exists piece pieces rest,
      py_split_loop sep skip s = piece :: pieces
      /\ drop skip s = piece ++ rest
      /\ Forall (fun q => ¬ occurs_in sep q /\ occurs_in q s) (piece :: pieces).
Proof.
  intros Hsep. induction s as [|c s IH]; intros skip.
  - exists [], [], []. split; [done|]. split; [by destruct skip|].
    constructor; [|done]. split; [|by exists [], []].
    intros ([|? ?] & b & Heq); [|done]. by destruct sep.
  - assert (forall q, occurs_in q s -> occurs_in q (c :: s)) as Hgrow.
    { intros q (a & b & ->). by exists (c :: a), b. }
    destruct skip as [|k]; cbn [py_split_loop].
    + destruct (starts_with sep (c :: s)) eqn:Hstart.
      * destruct (IH (length sep - 1)) as (p & ps & rest & -> & _ & Hall).
        exists [], (p :: ps), (c :: s). split; [done|]. split; [done|].
        constructor.
        -- split; [|by exists [], (c :: s)].
           intros ([|? ?] & b & Heq); [|done]. by destruct sep.
        -- eapply Forall_impl; [exact Hall|]. intros q [? ?]. auto.
      * destruct (IH 0) as (p & ps & rest & -> & Hdrop & Hall).
        rewrite drop_0 in Hdrop. subst s.
        apply Forall_cons in Hall as [[Hp _] Hps].
        exists (c :: p), ps, rest. split; [done|]. split; [done|].
        constructor.
        -- split; [|by exists [], rest].
           intros [Hs|Hin]%occurs_in_cons; [|done].
           apply starts_with_prefix in Hs as [b Hb].
           assert (starts_with sep (c :: p ++ rest) = true) as Habs.
           { apply starts_with_prefix. exists (b ++ rest).
             rewrite app_assoc, <- Hb. done. }
           congruence.
        -- eapply Forall_impl; [exact Hps|]. intros q [? ?]. auto.
    + destruct (IH k) as (p & ps & rest & -> & Hdrop & Hall).
      exists p, ps, rest. split; [done|]. split; [done|].
      eapply Forall_impl; [exact Hall|]. intros q [? ?]. auto.
Qed.

Lemma py_split_loop_whole (sep s : str) :
  ¬ occurs_in sep s -> py_split_loop sep 0 s = [s].
Proof.
  induction s as [|c s IH]; intros Hno; [done|]. cbn [py_split_loop].
  destruct (starts_with sep (c :: s)) eqn:Hstart.
  - exfalso. apply Hno. apply starts_with_prefix in Hstart as [b ->].
    by exists [], b.
  - rewrite IH; [done|]. intros (a & b & ->). apply Hno.
    by exists (c :: a), b.
Qed.

(** X28. The statements that apply_normalization and apply_fix execute
    are the texts between the occurrences of GO, stripped, without the
    blank ones: a statement is not empty, has no white space around it,
    occurs in the script, and GO occurs nowhere in it, not even inside a
    word.  A script without GO is one statement. *)
Theorem go_statements_pieces (sql : str) :
  Forall (fun stmt => stmt ≠ [] /\ strip stmt = stmt
                      /\ ¬ occurs_in (txt "GO") stmt /\ occurs_in stmt sql)
    (go_statements sql)
  /\ (¬ occurs_in (txt "GO") sql ->
      go_statements sql = if nonempty (strip sql) then [strip sql] else []).
Proof.
  unfold go_statements, py_split. split.
  - destruct (py_split_loop_pieces (txt "GO") ltac:(done) sql 0)
      as (p & ps & _ & -> & _ & Hall).
    apply Forall_forall. intros stmt (q & -> & Hq)%list_elem_of_fmap.
    apply list_elem_of_filter in Hq as [Hq Hel].
    rewrite Forall_forall in Hall. destruct (Hall q Hel) as [Hno Hin].
    destruct (strip_decompose q) as (w1 & w2 & Hdec & _).
    assert (occurs_in (strip q) q) as Hsub by (by exists w1, w2).
    split; [by destruct (strip q)|]. split; [apply strip_idem|].
    split.
    + intros Hgo. apply Hno. by apply (occurs_in_trans _ (strip q)).
    + by apply (occurs_in_trans _ q).
  - intros Hno. rewrite py_split_loop_whole by done.
    destruct (nonempty (strip sql)) eqn:Hne.
    + by rewrite filter_cons_True.
    + by rewrite filter_cons_False by congruence.
Qed.

(* ------------------------------------------------------------------ *)
(** ** The properties on sample inputs *)
(* ------------------------------------------------------------------ *)

Lemma normalize_erd_node_shape_witness :
  exists d cols,
    JObj [(txt "id", JStr (txt "Employees"));
          (txt "type", JStr (txt "table"));
          (txt "columns",
           JArr [JObj [(txt "name", JStr (txt "EID"));
                       (txt "type", JNull);
                       (txt "isPrimaryKey", JBool true);
                       (txt "isForeignKey", JBool false);
                       (txt "nullable", JBool false)]])] = JObj d
    /\ dict_get (txt "type") d = Some (JStr (txt "table"))
    /\ dict_get (txt "columns") d = Some (JArr cols)
    /\ Forall normal_col cols
    /\ (distinct_keys employees_node -> dict_has (txt "data") d = false).
Proof. apply (normalize_erd_node_shape employees_node). reflexivity. Defined.

Lemma normalize_erd_node_idempotent_witness :
  exists node',
    normalize_erd_node employees_node = Ok node'
    /\ normalize_erd_node node' = Ok node'.
Proof.
  eexists. split; [reflexivity|].
  apply (normalize_erd_node_idempotent employees_node).
  - vm_compute. repeat constructor; set_solver.
  - reflexivity.
Defined.

Lemma parse_erd_json_nodes_witness :
  exists parsed nodes,
    parse_erd_json nested_loads (txt "{}") = Ok (Some parsed)
    /\ py_item parsed "nodes" = Ok (JArr nodes)
    /\ length nodes = 1
    /\ Forall typed_node nodes.
Proof.
  eexists _, _. split; [vm_compute; reflexivity|].
  split; [vm_compute; reflexivity|]. split; [reflexivity|].
  apply (parse_erd_json_nodes nested_loads (txt "{}") _ _ eq_refl eq_refl).
Defined.

Lemma parse_erd_json_edges_witness :
  exists parsed json_str decoded,
    parse_erd_json nested_loads (txt "{}") = Ok (Some parsed)
    /\ json_text (txt "{}") = Some json_str
    /\ nested_loads json_str = Ok decoded
    /\ forall nodes,
         py_item decoded "nodes" = Ok (JArr nodes) ->
         py_item parsed "edges"
         = Ok (JArr (top_edges decoded ++ concat (map inner_edges nodes))).
Proof.
  eexists.
  destruct (parse_erd_json_edges nested_loads (txt "{}") _ eq_refl)
    as (json_str & decoded & Ht & Hl & He).
  exists json_str, decoded. split; [reflexivity|]. split; [exact Ht|].
  split; [exact Hl|exact He].
Defined.

Lemma clean_json_string_result_witness :
  balanced_object (txt "{a{b}}")
  /\ occurs_in (txt "{a{b}}")
       (fenced (txt "json") (txt "{a{b}}") (txt " Done.") []).
Proof.
  apply clean_json_string_result. vm_compute. reflexivity.
Defined.

Lemma call_llm_exceptions_witness :
  call_llm true NoReply = Raise RuntimeError
  /\ (RuntimeError = RuntimeError \/ RuntimeError = TypeError
      \/ RuntimeError = AttributeError).
Proof.
  split; [reflexivity|].
  apply (call_llm_exceptions NoReply RuntimeError). reflexivity.
Defined.


Lemma call_llm_single_around_retries_witness :
  call_llm_single_around limited_twice default_max_retries
    default_base_delay idle
  = (Ok (strip (txt " SELECT 1 ")),
     {| requests := 0 + 3;
        sleeps := rev (map (fun k => default_base_delay * 2 ^ k) (seq 0 2))
                  ++ [] |}).
Proof.
  apply (call_llm_single_around_retries limited_twice default_max_retries
           default_base_delay 2 (txt " SELECT 1 ") idle).
  - unfold default_max_retries. lia.
  - intros [|[|k]] Hk; [reflexivity|reflexivity|lia].
  - reflexivity.
Defined.

Lemma call_llm_single_around_gives_up_witness :
  call_llm_single_around (fun _ => Raise (HTTPError (Some 429)))
    default_max_retries default_base_delay idle
  = (Ok [],
     {| requests := 0 + default_max_retries;
        sleeps := rev (map (fun k => default_base_delay * 2 ^ k)
                         (seq 0 default_max_retries))
                  ++ [] |})
  /\ list_sum (map (fun k => default_base_delay * 2 ^ k)
                 (seq 0 default_max_retries))
     = default_base_delay * (2 ^ default_max_retries - 1).
Proof.
  apply (call_llm_single_around_gives_up
           (fun _ => Raise (HTTPError (Some 429)))
           default_max_retries default_base_delay idle).
  intros k Hk. reflexivity.
Defined.

Lemma split_schema_to_tables_blocks_witness :
  occurs_in employees_block (txt "-- schema" ++ newline :: employees_block)
  /\ (exists body, employees_block = body ++ txt ");")
  /\ is_Some (match_start table_name_re employees_block).
Proof.
  apply split_schema_to_tables_blocks. vm_compute. left.
Defined.

Lemma extract_foreign_key_targets_names_witness :
  good_name (txt "Departments")
  /\ occurs_in (txt "Departments") employees_block.
Proof.
  apply extract_foreign_key_targets_names.
  unfold extract_foreign_key_targets. apply elem_of_list_to_set.
  vm_compute. left.
Defined.


Lemma resolve_chunk_tables_accumulates_witness :
  exists visited result,
    resolve_chunk_tables 10 cycle_graph (txt "B") None = Some visited
    /\ resolve_chunk_tables 10 cycle_graph (txt "X") (Some visited)
       = Some result
    /\ forall x, x ∈ result
                 <-> reachable cycle_graph (txt "B") x
                     \/ reachable cycle_graph (txt "X") x.
Proof.
  apply (resolve_chunk_tables_accumulates cycle_graph 10 10 (txt "B")
           (txt "X")); vm_compute; lia.
Defined.

Lemma statements_fixed_witness :
  txt "SELECT 1" ≠ []
  /\ strip (txt "SELECT 1") = txt "SELECT 1"
  /\ statements (txt "SELECT 1") = [txt "SELECT 1"].
Proof.
  apply (statements_fixed two_statements). vm_compute. left.
Defined.

Lemma build_schema_text_plain_witness :
  build_schema_text two_tables
  = txt "CREATE TABLE [Employees] (" ++ [newline]
    ++ txt "  [DeptID] int NOT NULL FOREIGN KEY REFERENCES Departments(DeptID)"
    ++ [newline] ++ txt ");" ++ [newline; newline]
    ++ txt "CREATE TABLE [Departments] (" ++ [newline]
    ++ txt "  [DeptID] int NOT NULL PRIMARY KEY" ++ [newline] ++ txt ");".
Proof.
  rewrite (build_schema_text_plain two_tables); [reflexivity|].
  repeat constructor; vm_compute; try discriminate; repeat constructor.
Defined.

Lemma split_schema_to_tables_plain_witness :
  split_schema_to_tables (build_schema_text two_tables)
  = map segment_text (segments two_tables)
  /\ map extract_table_name
       (split_schema_to_tables (build_schema_text two_tables))
     = [txt "Employees"; txt "Departments"].
Proof.
  apply (split_schema_to_tables_plain two_tables).
  repeat constructor; vm_compute; try discriminate; repeat constructor.
Defined.

Lemma build_dependency_graph_plain_witness :
  dom (build_dependency_graph
         (split_schema_to_tables (build_schema_text two_tables))).1
  = list_to_set [txt "Employees"; txt "Departments"]
  /\ forall name targets,
       (build_dependency_graph
          (split_schema_to_tables (build_schema_text two_tables))).1 !! name
       = Some targets ->
       targets = ∅.
Proof.
  apply (build_dependency_graph_plain two_tables).
  repeat constructor; vm_compute; try discriminate; repeat constructor.
Defined.

Lemma chunk_tables_plain_witness :
  chunk_tables
    (build_dependency_graph
       (split_schema_to_tables (build_schema_text two_tables))).1
    (build_dependency_graph
       (split_schema_to_tables (build_schema_text two_tables))).2
    default_max_columns
  = Ok (map segment_text (segments two_tables)).
Proof.
  apply (chunk_tables_plain two_tables).
  - repeat constructor; vm_compute; try discriminate; repeat constructor.
  - apply (bool_decide_unpack _). vm_compute. exact I.
Defined.

(* ------------------------------------------------------------------ *)
(** ** Letter case *)
(* ------------------------------------------------------------------ *)

Lemma same_letter_spec (a b : ascii) :
  same_letter a b <-> same_letterb a b = true.
Proof.
  unfold same_letter, same_letterb.
  rewrite orb_true_iff, !andb_true_iff, orb_true_iff, !N.eqb_eq.
  rewrite Ascii.eqb_eq. tauto.
Qed.

Lemma upper_char_same (u c : ascii) :
  u ∈ txt "NVARCH" -> Ascii.eqb (upper_char c) u = same_letterb u c.
Proof.
  intros Hu. unfold txt in Hu. simpl in Hu.
  repeat (apply elem_of_cons in Hu as [->|Hu];
          [destruct c as [[] [] [] [] [] [] [] []]; reflexivity|]).
  by apply elem_of_nil in Hu.
Qed.

Lemma str_eqb_upper (u data_type : str) :
  Forall (fun c => c ∈ txt "NVARCH") u ->
  str_eqb (upper data_type) u = true <-> same_word u data_type.
Proof.
  intros Hu. revert data_type.
  induction Hu as [|c u Hc Hu IH]; intros [|d data_type]; simpl.
  - split; [constructor|done].
  - split; [done|inversion 1].
  - split; [done|inversion 1].
  - rewrite andb_true_iff, IH, (upper_char_same c d Hc), <- same_letter_spec.
    split.
    + intros [? ?]. by constructor.
    + inversion 1; by subst.
Qed.

Lemma is_varchar_name (data_type : str) :
  is_varchar data_type = true <-> varchar_name data_type.
Proof.
  unfold is_varchar, varchar_name, varchar_types. simpl.
  rewrite !orb_true_iff, !str_eqb_upper.
  - naive_solver.
  - unfold txt; simpl. repeat constructor; set_solver.
  - unfold txt; simpl. repeat constructor; set_solver.
Qed.

(* ------------------------------------------------------------------ *)
(** ** The length of the character types in the text *)
(* ------------------------------------------------------------------ *)

(** C2, as the code has it.  For rows whose names and types are made of word
    characters the DDL text is the text of the runs of the rows, and the
    column of a row has a length in parentheses exactly when its type is
    VARCHAR or NVARCHAR up to letter case: 255 when max_length is 0 or
    missing, and the absolute value of max_length otherwise, also when
    max_length is negative. *)
Theorem build_schema_text_length (schema_data : list row) :
  Forall plain_row schema_data ->
  build_schema_text schema_data = ddl_text (segments schema_data)
  /\ forall r,
       r ∈ schema_data ->
       let name := default (txt "UnknownColumn") (column_name r) in
       let type := default (txt "VARCHAR") (data_type r) in
       let before := txt "  [" ++ name ++ txt "] " ++ type in
       (~ varchar_name type ->
        column_body r = before ++ constraints_text r)
       /\ (varchar_name type ->
           max_length r = None \/ max_length r = Some 0%Z ->
           column_body r = before ++ txt "(255)" ++ constraints_text r)
       /\ (varchar_name type ->
           forall n, max_length r = Some n -> n ≠ 0%Z ->
           column_body r
           = before ++ txt "(" ++ decimal (Z.to_N (Z.abs n)) ++ txt ")"
             ++ constraints_text r).
Proof.
  intros Hrows. split.
  - rewrite build_schema_text_unfold.
    destruct (fold_schema_step_open schema_data [] ltac:(constructor))
      as [Hfold Hok].
    change (open_text []) with (@nil ascii, @None str) in Hfold.
    rewrite Hfold, close_open_text by done.
    by apply fix_sql_schema_plain, segments_plain.
  - intros r _ name type before.
    unfold column_body, length_text. fold name type. unfold before.
    rewrite <- is_varchar_name.
    destruct (is_varchar type); repeat split.
    + done.
    + intros _ [->| ->]; simpl; by rewrite <- !app_assoc.
    + intros _ n -> Hn. simpl.
      assert ((Z.abs n >? 0)%Z = true) as -> by lia.
      by rewrite <- !app_assoc.
    + intros _. by rewrite <- !app_assoc.
    + done.
    + done.
Qed.

Lemma build_schema_text_length_witness :
  build_schema_text [notes_row]
  = txt "CREATE TABLE [T] (" ++ ["010"%char]
    ++ txt "  [Notes] NVARCHAR(1) NULL" ++ ["010"%char] ++ txt ");"
  /\ column_body notes_row = txt "  [Notes] NVARCHAR(1) NULL".
Proof.
  destruct (build_schema_text_length [notes_row]) as [Htext Hrow].
  - repeat constructor; vm_compute; try discriminate; repeat constructor.
  - split; [rewrite Htext; reflexivity|].
    destruct (Hrow notes_row ltac:(left)) as (_ & _ & Hneg).
    rewrite (Hneg ltac:(right; repeat constructor) (-1)%Z eq_refl
               ltac:(lia)).
    reflexivity.
Defined.

(** The repairs of [fix_sql_schema] write a length of their own after a
    type name that ends with VARCHAR and an empty pair of parentheses, also
    when the type is not VARCHAR or NVARCHAR. *)
Lemma fix_sql_schema_adds_length :
  ~ varchar_name (txt "MYVARCHAR()")
  /\ build_schema_text [odd_type_row]
     = txt "CREATE TABLE [T] (" ++ ["010"%char]
       ++ txt "  [c] MYVARCHAR(255) NULL" ++ ["010"%char] ++ txt ");".
Proof.
  split; [|vm_compute; reflexivity].
  intros H%is_varchar_name. vm_compute in H. discriminate.
Qed.

(* ------------------------------------------------------------------ *)
(** ** The fences of an answer *)
(* ------------------------------------------------------------------ *)



Lemma matches_nil_inv i s n : matches [] i s n -> n = 0.
Proof. by inversion 1. Qed.












